(** * CI/CD engine: job queue, cache manager and orchestrator

    A shallow embedding of [job-queue.ts], [cache-manager.ts],
    [state-manager.ts] and [orchestrator.ts] of the
    [ci-cd-engine] example, with the properties of its design document stated
    and settled against the embedding.

    Conventions of the embedding.
    - JavaScript numbers that the code uses as integers (priorities, clock
      readings in milliseconds, counters, exit codes) are [Z]; [NaN] is
      [None] in an [option Z].
    - Strings are [string], read as sequences of bytes.
    - A Workers KV namespace is a finite map from key strings to the decoded
      JSON values the code stores; [kv.list] returns every key with the
      prefix, in the lexicographic order of the keys.
    - [Date.now()] is an explicit argument ([now]) of the queue operations and
      a field of the world the orchestrator runs in. *)

From Stdlib Require Import Ascii String.
From stdpp Require Import gmap strings list fin_maps sorting pretty.

Open Scope string_scope.
Open Scope Z_scope.

(** * Part I: the embedding *)

(** ** JavaScript primitives used by the sources *)

Module JS.

(** Truthiness of an optional number: [undefined], [0] are falsy. *)
Definition truthy (x : option Z) : bool :=
  match x with
  | Some v => negb (v =? 0)
  | None => false
  end.

Definition dec_digit (c : ascii) : option Z := Z.of_nat <$> Ascii.is_nat c.

Definition hex_digit (c : ascii) : option Z :=
  match c with
  | "a" | "A" => Some 10 | "b" | "B" => Some 11 | "c" | "C" => Some 12
  | "d" | "D" => Some 13 | "e" | "E" => Some 14 | "f" | "F" => Some 15
  | _ => dec_digit c
  end%char.

Fixpoint trimStart (s : string) : string :=
  match s with
  | String c s' => if Ascii.is_space c then trimStart s' else s
  | "" => ""
  end.

Definition trimEnd (s : string) : string :=
  String.rev (trimStart (String.rev s)).

Definition trim (s : string) : string := trimEnd (trimStart s).

(** The longest prefix of digits of [s], read in the given radix; [acc] is
    [None] until a first digit has been read. *)
Fixpoint parse_digits (radix : Z) (digit : ascii → option Z)
    (acc : option Z) (s : string) : option Z :=
  match s with
  | String c s' =>
      match digit c with
      | Some d => parse_digits radix digit (Some (radix * default 0 acc + d)) s'
      | None => acc
      end
  | "" => acc
  end.

(** [parseInt(s)] with no radix argument: leading white space, an optional
    sign, an optional [0x] prefix, then the longest run of digits; [NaN]
    when there is none. *)
Definition parseInt (s : string) : option Z :=
  let s1 := trimStart s in
  let '(sign, s2) :=
    match s1 with
    | String "-" r => (-1, r)
    | String "+" r => (1, r)
    | _ => (1, s1)
    end in
  let magnitude :=
    match s2 with
    | String "0" (String "x" r) | String "0" (String "X" r) =>
        parse_digits 16 hex_digit None r
    | _ => parse_digits 10 dec_digit None s2
    end in
  Z.mul sign <$> magnitude.

(** [parseInt(x)] where [x] may be [undefined]: the argument is converted
    to the string ["undefined"], which has no digits. *)
Definition parseInt_opt (x : option string) : option Z :=
  match x with
  | Some s => parseInt s
  | None => parseInt "undefined"
  end.

(** Subtraction of numbers; [NaN] is absorbing. *)
Definition sub (x y : option Z) : option Z :=
  match x, y with
  | Some a, Some b => Some (a - b)
  | _, _ => None
  end.

(** [s.split(sep)] for a one-character separator. *)
Fixpoint split (sep : ascii) (s : string) : list string :=
  match s with
  | "" => [""]
  | String c s' =>
      if Ascii.eqb c sep then "" :: split sep s'
      else match split sep s' with
           | h :: t => String c h :: t
           | [] => [String c ""]
           end
  end.

(** [parts.join(sep)]. *)
Fixpoint join (sep : string) (parts : list string) : string :=
  match parts with
  | [] => ""
  | [p] => p
  | p :: rest => p +:+ sep +:+ join sep rest
  end.

Fixpoint startsWith (s pre : string) {struct pre} : bool :=
  match pre with
  | "" => true
  | String a pre' =>
      match s with
      | String b s' => Ascii.eqb a b && startsWith s' pre'
      | "" => false
      end
  end.

Definition endsWith (s suf : string) : bool :=
  startsWith (String.rev s) (String.rev suf).

(** [s.slice(0, n)]. *)
Fixpoint take (n : nat) (s : string) : string :=
  match n, s with
  | S n', String c s' => String c (take n' s')
  | _, _ => ""
  end.

(** The value a comparator hands to [Array.prototype.sort]: [NaN] counts
    as [0]. *)
Definition sort_verdict (v : option Z) : Z := default 0 v.

Section Sort.
Context {A : Type} (cmp : A → A → option Z).

(** [x] stood before every element of the sorted list [l]; it stays in
    front of the elements it does not compare greater than. *)
Fixpoint sort_insert (x : A) (l : list A) : list A :=
  match l with
  | [] => [x]
  | y :: l' =>
      if sort_verdict (cmp x y) <=? 0 then x :: y :: l'
      else y :: sort_insert x l'
  end.

(** [arr.sort(cmp)]: a stable sort (ECMAScript 2019). For a comparator
    that is a consistent ordering every stable sort returns this list. *)
Definition sort (l : list A) : list A := foldr sort_insert [] l.
End Sort.

(** [x || d] for an optional string: [undefined] and the empty string are
    falsy. *)
Definition or_else (x : option string) (d : string) : string :=
  match x with
  | Some s => if decide (s = "") then d else s
  | None => d
  end.

(** [x < y] on numbers: a comparison with [NaN] is false. *)
Definition lt (x y : option Z) : bool :=
  match x, y with
  | Some a, Some b => a <? b
  | _, _ => false
  end.

(** [s.slice(n)]. *)
Fixpoint drop (n : nat) (s : string) : string :=
  match n, s with
  | S n', String _ s' => drop n' s'
  | _, _ => s
  end.

(** [s.replace(pat, rep)] for a string pattern: the first occurrence
    only. *)
Fixpoint replace (pat rep s : string) : string :=
  if startsWith s pat then rep +:+ drop (String.length pat) s
  else match s with
       | String c s' => String c (replace pat rep s')
       | "" => ""
       end.

(** [parts.filter(Boolean)] on strings: the empty ones go. *)
Definition filter_Boolean (parts : list string) : list string :=
  filter (λ part, part ≠ "") parts.

End JS.

(** ** Types ([types.ts]) *)

Abbreviation Env := (list (string * string)).

Module JobStep.
Record t := mk {
  name : string;
  run : string;
  workingDir : option string;
  env : option Env;
  continueOnError : option bool;
  timeout : option Z
}.
End JobStep.

Module JobConfig.
Record t := mk {
  id : string;
  repo : string;
  commit : string;
  branch : string;
  steps : list JobStep.t;
  env : option Env;
  cacheKeys : option (list string);
  timeout : option Z;
  priority : option Z
}.
End JobConfig.

Module StepResult.
Inductive state := pending | running | success | failure | skipped.

Global Instance state_eq_dec : EqDecision state.
Proof. solve_decision. Defined.

Record t := mk {
  name : string;
  status : state;
  output : option string;
  exitCode : option Z;
  duration : option Z;
  startedAt : option Z;
  finishedAt : option Z
}.

Definition set_status (v : state) (r : t) : t :=
  mk (name r) v (output r) (exitCode r) (duration r) (startedAt r) (finishedAt r).
Definition set_output (v : option string) (r : t) : t :=
  mk (name r) (status r) v (exitCode r) (duration r) (startedAt r) (finishedAt r).
Definition set_exitCode (v : option Z) (r : t) : t :=
  mk (name r) (status r) (output r) v (duration r) (startedAt r) (finishedAt r).
Definition set_duration (v : option Z) (r : t) : t :=
  mk (name r) (status r) (output r) (exitCode r) v (startedAt r) (finishedAt r).
Definition set_finishedAt (v : option Z) (r : t) : t :=
  mk (name r) (status r) (output r) (exitCode r) (duration r) (startedAt r) v.
End StepResult.

Module JobStatus.
Inductive state := queued | running | success | failure | timeout | cancelled.

Global Instance state_eq_dec : EqDecision state.
Proof. solve_decision. Defined.

Record t := mk {
  id : string;
  status : state;
  currentStep : option Z;
  startedAt : option Z;
  finishedAt : option Z;
  duration : option Z;
  steps : list StepResult.t;
  sandboxId : option string;
  error : option string
}.

Definition set_status (v : state) (s : t) : t :=
  mk (id s) v (currentStep s) (startedAt s) (finishedAt s) (duration s)
     (steps s) (sandboxId s) (error s).
Definition set_currentStep (v : option Z) (s : t) : t :=
  mk (id s) (status s) v (startedAt s) (finishedAt s) (duration s)
     (steps s) (sandboxId s) (error s).
Definition set_startedAt (v : option Z) (s : t) : t :=
  mk (id s) (status s) (currentStep s) v (finishedAt s) (duration s)
     (steps s) (sandboxId s) (error s).
Definition set_finishedAt (v : option Z) (s : t) : t :=
  mk (id s) (status s) (currentStep s) (startedAt s) v (duration s)
     (steps s) (sandboxId s) (error s).
Definition set_duration (v : option Z) (s : t) : t :=
  mk (id s) (status s) (currentStep s) (startedAt s) (finishedAt s) v
     (steps s) (sandboxId s) (error s).
Definition set_steps (v : list StepResult.t) (s : t) : t :=
  mk (id s) (status s) (currentStep s) (startedAt s) (finishedAt s)
     (duration s) v (sandboxId s) (error s).
Definition set_error (v : option string) (s : t) : t :=
  mk (id s) (status s) (currentStep s) (startedAt s) (finishedAt s)
     (duration s) (steps s) (sandboxId s) v.

(** The statuses the design calls terminal. *)
Definition terminal (v : state) : bool :=
  match v with
  | success | failure | timeout | cancelled => true
  | queued | running => false
  end.
End JobStatus.

Module CacheKey.
Record t := mk {
  key : string;
  paths : list string;
  lastUsed : Z;
  size : option Z
}.

Definition set_lastUsed (v : Z) (c : t) : t := mk (key c) (paths c) v (size c).
End CacheKey.

(** ** The key-value metadata store *)

(** What [JSON.stringify] wrote under a key, decoded again: the sources store
    job configurations, job statuses and cache records. *)
Inductive KVValue :=
  | VJob (job : JobConfig.t)
  | VStatus (status : JobStatus.t)
  | VCache (cache : CacheKey.t).

Abbreviation KV := (gmap string KVValue).

Module Kv.
(** [kv.put(key, value, { expirationTtl })]. Expiry is not part of the
    embedding: entries are live for the operations considered. *)
Definition put (key : string) (value : KVValue) (expirationTtl : Z) (kv : KV) : KV :=
  <[key := value]> kv.

Definition get (key : string) (kv : KV) : option KVValue := kv !! key.

Definition delete (key : string) (kv : KV) : KV := base.delete key kv.

(** [kv.list({ prefix })]: the names of all keys with the prefix, in
    lexicographic order. *)
Definition list (prefix : string) (kv : KV) : list string :=
  merge_sort String.le
    (filter (λ key, JS.startsWith key prefix = true) (elements (dom kv))).

(** [kv.get(key, 'json') as JobConfig | null] and its siblings. *)
Definition as_job (v : option KVValue) : option JobConfig.t :=
  match v with Some (VJob job) => Some job | _ => None end.
Definition as_status (v : option KVValue) : option JobStatus.t :=
  match v with Some (VStatus status) => Some status | _ => None end.
Definition as_cache (v : option KVValue) : option CacheKey.t :=
  match v with Some (VCache cache) => Some cache | _ => None end.
End Kv.

(** ** The job queue ([job-queue.ts]) *)

Module JobQueue.

Record QueueConfig := mkConfig {
  maxConcurrent : Z;
  defaultPriority : Z;
  maxRetries : Z
}.

(** The default of the constructor's [config] argument. *)
Definition default_config : QueueConfig := mkConfig 10 5 3.

Definition queueKey (priority now : Z) (jobId : string) : string :=
  "queue:" +:+ pretty priority +:+ ":" +:+ pretty now +:+ ":" +:+ jobId.

Definition statusKey (jobId : string) : string := "status:" +:+ jobId.

Definition jobKey (jobId : string) : string := "job:" +:+ jobId.

Definition getJobStatus (jobId : string) (kv : KV) : option JobStatus.t :=
  Kv.as_status (Kv.get (statusKey jobId) kv).

Definition updateJobStatus (jobId : string) (status : JobStatus.t) (kv : KV) : KV :=
  Kv.put (statusKey jobId) (VStatus status) (7 * 24 * 60 * 60) kv.

Definition initial_status (job : JobConfig.t) : JobStatus.t :=
  JobStatus.mk (JobConfig.id job) JobStatus.queued None None None None
    (map (λ step, StepResult.mk (JobStep.name step) StepResult.pending
                    None None None None None)
         (JobConfig.steps job))
    None None.

Definition enqueue (config : QueueConfig) (now : Z) (job : JobConfig.t) (kv : KV) : KV :=
  let priority := default (defaultPriority config) (JobConfig.priority job) in
  let queueKey := queueKey priority now (JobConfig.id job) in
  let kv := Kv.put queueKey (VJob job) (24 * 60 * 60) kv in
  updateJobStatus (JobConfig.id job) (initial_status job) kv.

Definition getRunningJobCount (kv : KV) : Z :=
  fold_left
    (λ count key,
       match Kv.as_status (Kv.get key kv) with
       | Some status =>
           if decide (JobStatus.status status = JobStatus.running)
           then count + 1 else count
       | None => count
       end)
    (Kv.list "status:" kv) 0.

(** The comparator of [dequeue]: priority descending, then timestamp
    ascending, both read back from the key with [split] and [parseInt]. *)
Definition compareKeys (a b : string) : option Z :=
  let partsA := JS.split ":" a in
  let partsB := JS.split ":" b in
  let priorityA := partsA !! 1%nat in
  let timestampA := partsA !! 2%nat in
  let priorityB := partsB !! 1%nat in
  let timestampB := partsB !! 2%nat in
  let priDiff := JS.sub (JS.parseInt_opt priorityB) (JS.parseInt_opt priorityA) in
  match priDiff with
  | Some 0 => JS.sub (JS.parseInt_opt timestampA) (JS.parseInt_opt timestampB)
  | _ => priDiff
  end.

(** [dequeue] from the point where [kv.list({ prefix: 'queue:' })] has
    returned [listing]. The store is eventually consistent, so the listing
    is an observation of its own: it can name a key whose value is gone. *)
Definition dequeue_listed (now : Z) (listing : list string) (kv : KV)
    : option JobConfig.t * KV :=
  if decide (length listing = 0%nat) then (None, kv)
  else
    match JS.sort compareKeys listing with
    | [] => (None, kv)
    | firstKey :: _ =>
        match Kv.as_job (Kv.get firstKey kv) with
        | None => (None, kv)
        | Some jobData =>
            let kv := Kv.delete firstKey kv in
            match getJobStatus (JobConfig.id jobData) kv with
            | Some status =>
                let status := JobStatus.set_status JobStatus.running status in
                let status := JobStatus.set_startedAt (Some now) status in
                (Some jobData, updateJobStatus (JobConfig.id jobData) status kv)
            | None => (Some jobData, kv)
            end
        end
    end.

(** [dequeue] with the listing observed at call time (an unspecified
    [listing] argument) and with the listing of a consistent store. *)
Definition dequeue_with (config : QueueConfig) (now : Z) (listing : list string)
    (kv : KV) : option JobConfig.t * KV :=
  let running := getRunningJobCount kv in
  if maxConcurrent config <=? running then (None, kv)
  else dequeue_listed now listing kv.

Definition dequeue (config : QueueConfig) (now : Z) (kv : KV)
    : option JobConfig.t * KV :=
  dequeue_with config now (Kv.list "queue:" kv) kv.

Definition listJobs (statusFilter : option JobStatus.state) (kv : KV)
    : list JobStatus.t :=
  fold_left
    (λ jobs key,
       match Kv.as_status (Kv.get key kv) with
       | Some status =>
           match statusFilter with
           | None => (jobs ++ [status])%list
           | Some f =>
               if decide (JobStatus.status status = f)
               then (jobs ++ [status])%list else jobs
           end
       | None => jobs
       end)
    (Kv.list "status:" kv) [].

Definition cancelJob (now : Z) (jobId : string) (kv : KV) : bool * KV :=
  match getJobStatus jobId kv with
  | None => (false, kv)
  | Some status =>
      let kv :=
        if decide (JobStatus.status status = JobStatus.queued) then
          match find (λ key, JS.endsWith key (":" +:+ jobId)) (Kv.list "queue:" kv) with
          | Some key => Kv.delete key kv
          | None => kv
          end
        else kv in
      let status := JobStatus.set_status JobStatus.cancelled status in
      let status := JobStatus.set_finishedAt (Some now) status in
      let status :=
        if JS.truthy (JobStatus.startedAt status)
        then JobStatus.set_duration
               (JS.sub (JobStatus.finishedAt status) (JobStatus.startedAt status))
               status
        else status in
      (true, updateJobStatus jobId status kv)
  end.

Definition retryJob (config : QueueConfig) (now : Z) (jobId : string) (kv : KV)
    : bool * KV :=
  match getJobStatus jobId kv with
  | None => (false, kv)
  | Some status =>
      if decide (JobStatus.status status ≠ JobStatus.failure) then (false, kv)
      else
        match Kv.as_job (Kv.get (jobKey jobId) kv) with
        | None => (false, kv)
        | Some jobData => (true, enqueue config now jobData kv)
        end
  end.

Definition storeJobConfig (job : JobConfig.t) (kv : KV) : KV :=
  Kv.put (jobKey (JobConfig.id job)) (VJob job) (7 * 24 * 60 * 60) kv.

(** The condition of the loop of [pruneCompletedJobs]. *)
Definition prunable (cutoff : Z) (status : JobStatus.t) : bool :=
  JS.truthy (JobStatus.finishedAt status)
  && bool_decide (default 0 (JobStatus.finishedAt status) < cutoff)
  && bool_decide (JobStatus.status status ∈
       [JobStatus.success; JobStatus.failure; JobStatus.cancelled]).

Definition pruneCompletedJobs (now maxAge : Z) (kv : KV) : Z * KV :=
  let cutoff := now - maxAge in
  let statuses := listJobs None kv in
  fold_left
    (λ '(deleted, kv) status,
       if prunable cutoff status then
         let kv := Kv.delete (statusKey (JobStatus.id status)) kv in
         let kv := Kv.delete (jobKey (JobStatus.id status)) kv in
         (deleted + 1, kv)
       else (deleted, kv))
    statuses (0, kv).

(** The default of [pruneCompletedJobs]'s [maxAge]. *)
Definition default_maxAge : Z := 7 * 24 * 60 * 60 * 1000.

End JobQueue.

(** ** SHA-256 ([createHash('sha256')] of Node's [crypto]) *)

Module Sha256.

Definition mask32 : Z := 0xffffffff.

Definition w32 (x : Z) : Z := Z.land x mask32.

Definition rotr (n x : Z) : Z :=
  Z.lor (Z.shiftr x n) (w32 (Z.shiftl x (32 - n))).

Definition shr (n x : Z) : Z := Z.shiftr x n.

Definition not32 (x : Z) : Z := Z.lxor x mask32.

Definition ch (x y z : Z) : Z := Z.lxor (Z.land x y) (Z.land (not32 x) z).

Definition maj (x y z : Z) : Z :=
  Z.lxor (Z.lxor (Z.land x y) (Z.land x z)) (Z.land y z).

Definition bsig0 (x : Z) : Z := Z.lxor (Z.lxor (rotr 2 x) (rotr 13 x)) (rotr 22 x).
Definition bsig1 (x : Z) : Z := Z.lxor (Z.lxor (rotr 6 x) (rotr 11 x)) (rotr 25 x).
Definition ssig0 (x : Z) : Z := Z.lxor (Z.lxor (rotr 7 x) (rotr 18 x)) (shr 3 x).
Definition ssig1 (x : Z) : Z := Z.lxor (Z.lxor (rotr 17 x) (rotr 19 x)) (shr 10 x).

Definition K : list Z :=
  [
    1116352408; 1899447441; 3049323471; 3921009573;
    961987163; 1508970993; 2453635748; 2870763221;
    3624381080; 310598401; 607225278; 1426881987;
    1925078388; 2162078206; 2614888103; 3248222580;
    3835390401; 4022224774; 264347078; 604807628;
    770255983; 1249150122; 1555081692; 1996064986;
    2554220882; 2821834349; 2952996808; 3210313671;
    3336571891; 3584528711; 113926993; 338241895;
    666307205; 773529912; 1294757372; 1396182291;
    1695183700; 1986661051; 2177026350; 2456956037;
    2730485921; 2820302411; 3259730800; 3345764771;
    3516065817; 3600352804; 4094571909; 275423344;
    430227734; 506948616; 659060556; 883997877;
    958139571; 1322822218; 1537002063; 1747873779;
    1955562222; 2024104815; 2227730452; 2361852424;
    2428436474; 2756734187; 3204031479; 3329325298 ].

Definition H0 : list Z :=
  [
    1779033703; 3144134277; 1013904242; 2773480762;
    1359893119; 2600822924; 528734635; 1541459225 ].

Fixpoint bytes_of_string (s : string) : list Z :=
  match s with
  | "" => []
  | String c s' => Z.of_N (N_of_ascii c) :: bytes_of_string s'
  end.

(** Big-endian bytes of [x], [n] of them. *)
Fixpoint be_bytes (n : nat) (x : Z) : list Z :=
  match n with
  | O => []
  | S n' => Z.land (Z.shiftr x (8 * Z.of_nat n')) 0xff :: be_bytes n' x
  end.

(** The message followed by the bit [1], zero bits up to 56 modulo 64
    bytes, and the length in bits on 8 bytes. *)
Definition pad (msg : list Z) : list Z :=
  let len := Z.of_nat (length msg) in
  let zeros := Z.to_nat ((55 - len) `mod` 64) in
  (msg ++ 0x80 :: replicate zeros 0 ++ be_bytes 8 (8 * len))%list.

Fixpoint words_of_bytes (bs : list Z) : list Z :=
  match bs with
  | b0 :: b1 :: b2 :: b3 :: rest =>
      Z.lor (Z.shiftl b0 24) (Z.lor (Z.shiftl b1 16) (Z.lor (Z.shiftl b2 8) b3))
      :: words_of_bytes rest
  | _ => []
  end.

Fixpoint blocks (fuel : nat) (ws : list Z) : list (list Z) :=
  match fuel, ws with
  | S fuel', _ :: _ => take 16 ws :: blocks fuel' (drop 16 ws)
  | _, _ => []
  end.

(** The message schedule, most recent word first: [w] holds
    [W[t-1], W[t-2], ...]. *)
Fixpoint schedule (n : nat) (w : list Z) : list Z :=
  match n with
  | O => w
  | S n' =>
      let at_ i := nth i w 0 in
      schedule n' (w32 (ssig1 (at_ 1%nat) + at_ 6%nat + ssig0 (at_ 14%nat) + at_ 15%nat) :: w)
  end.

Definition round (st : list Z) (kw : Z * Z) : list Z :=
  match st with
  | [a; b; c; d; e; f; g; h] =>
      let t1 := w32 (h + bsig1 e + ch e f g + kw.1 + kw.2) in
      let t2 := w32 (bsig0 a + maj a b c) in
      [w32 (t1 + t2); a; b; c; w32 (d + t1); e; f; g]
  | _ => st
  end.

Definition compress (h : list Z) (block : list Z) : list Z :=
  let w := rev (schedule 48 (rev block)) in
  let st := fold_left round (zip K w) h in
  zip_with (λ x y, w32 (x + y)) h st.

Definition hex_char (x : Z) : ascii :=
  match x with
  | 0 => "0" | 1 => "1" | 2 => "2" | 3 => "3" | 4 => "4" | 5 => "5"
  | 6 => "6" | 7 => "7" | 8 => "8" | 9 => "9" | 10 => "a" | 11 => "b"
  | 12 => "c" | 13 => "d" | 14 => "e" | _ => "f"
  end%char.

Fixpoint hex_of_bytes (bs : list Z) : string :=
  match bs with
  | [] => ""
  | b :: rest =>
      String (hex_char (Z.shiftr b 4)) (String (hex_char (Z.land b 0xf)) (hex_of_bytes rest))
  end.

Definition digest (msg : string) : list Z :=
  let ws := words_of_bytes (pad (bytes_of_string msg)) in
  fold_left compress (blocks (length ws) ws) H0.

(** [createHash('sha256').update(msg).digest('hex')]. *)
Definition hexdigest (msg : string) : string :=
  hex_of_bytes (mjoin (be_bytes 4 <$> digest msg)).

End Sha256.

(** ** Asynchronous calls: state, exceptions and a script of outcomes *)

(** The result of an awaited call: a value, or a rejection carrying the
    message of the [Error]. *)
Inductive Res (A : Type) :=
  | Ok (a : A)
  | Throw (msg : string).
Arguments Ok {A} a.
Arguments Throw {A} msg.

(** Computations over a state [Σ] that may throw. The state reached when an
    exception is thrown is kept, as the mutations of a JavaScript object
    are when a [try] block is left by an exception. *)
Definition M (Σ A : Type) : Type := Σ → Res A * Σ.

Module Async.
Section Monad.
Context {Σ : Type}.

Definition ret {A} (a : A) : M Σ A := λ σ, (Ok a, σ).

Definition bind {A B} (m : M Σ A) (k : A → M Σ B) : M Σ B := λ σ,
  match m σ with
  | (Ok a, σ') => k a σ'
  | (Throw msg, σ') => (Throw msg, σ')
  end.

Definition throw {A} (msg : string) : M Σ A := λ σ, (Throw msg, σ).

(** [try { m } catch (error) { handler(error.message) }]. *)
Definition try_catch {A} (m : M Σ A) (handler : string → M Σ A) : M Σ A := λ σ,
  match m σ with
  | (Ok a, σ') => (Ok a, σ')
  | (Throw msg, σ') => handler msg σ'
  end.

Definition get : M Σ Σ := λ σ, (Ok σ, σ).

Definition modify (f : Σ → Σ) : M Σ unit := λ σ, (Ok tt, f σ).
End Monad.

(** A computation on the world, run next to a local object of type [L]. *)
Definition lift {L W A} (m : M W A) : M (L * W) A := λ '(l, w),
  match m w with
  | (r, w') => (r, (l, w'))
  end.

Definition local {L W} : M (L * W) L := λ σ, (Ok σ.1, σ).

Definition modify_local {L W} (f : L → L) : M (L * W) unit := λ σ,
  (Ok tt, (f σ.1, σ.2)).
End Async.

Declare Scope async_scope.
Delimit Scope async_scope with async.
Notation "x <- m ;; k" := (Async.bind m (λ x, k))
  (at level 100, m at next level, right associativity) : async_scope.
Notation "m ;;; k" := (Async.bind m (λ _, k))
  (at level 100, right associativity) : async_scope.

(** The result of [sandbox.exec]. *)
Module ExecResult.
Record t := mk {
  stdout : string;
  stderr : string;
  exitCode : Z
}.
End ExecResult.

(** The execution sandbox, an external collaborator: what its three calls do
    when they go through. [readFile] rejects for a file that cannot be
    read. *)
Class ISandbox (S : Type) := {
  exec : string → option string → S → ExecResult.t * S;
  readFile : string → S → Res string;
  writeFile : string → string → S → S
}.

(** [Buffer.from(text, 'base64')] and [buffer.toString('base64')] of Node;
    a [Buffer] is the string of its bytes. *)
Class Base64 := {
  base64_decode : string → string;
  base64_encode : string → string
}.

(** An object of the blob store. *)
Module R2Object.
Record t := mk {
  body : string;
  customMetadata : list (string * string)
}.
End R2Object.

Abbreviation R2 := (gmap string R2Object.t).

Module R2Bucket.
(** [obj.size]. *)
Definition size (object : R2Object.t) : Z :=
  Z.of_nat (String.length (R2Object.body object)).

(** [obj.customMetadata?.name]. *)
Definition meta (name : string) (object : R2Object.t) : option string :=
  snd <$> find (λ entry, String.eqb entry.1 name) (R2Object.customMetadata object).

(** [r2.list({ prefix })]: the objects whose key has the prefix, with
    their custom metadata, in the lexicographic order of the keys. *)
Definition list (prefix : string) (bucket : R2) : list (string * R2Object.t) :=
  omap (λ key, pair key <$> bucket !! key)
    (merge_sort String.le
       (filter (λ key, JS.startsWith key prefix = true) (elements (dom bucket)))).
End R2Bucket.

(** One awaited call on an external collaborator, as the environment lets it
    go: the milliseconds it takes and whether it rejects. *)
Module Tick.
Record t := mk {
  elapsed : Z;
  fault : option string
}.

(** What happens once the script is exhausted. *)
Definition quiet : t := mk 0 None.
End Tick.

Module World.
Section World.
Context {S : Type}.

Record t := mk {
  queue_kv : KV;          (* [env.CI_QUEUE_KV], the job queue's namespace *)
  metrics_kv : KV;        (* [env.CI_METRICS_KV], the cache manager's *)
  cache_bucket : R2;      (* [env.CI_CACHE_BUCKET] *)
  state_bucket : R2;      (* [env.CI_STATE_BUCKET] *)
  sandbox : S;
  clock : Z;              (* what [Date.now()] reads *)
  script : list Tick.t    (* the outcomes of the awaited calls to come *)
}.

Definition set_queue_kv (v : KV) (w : t) : t :=
  mk v (metrics_kv w) (cache_bucket w) (state_bucket w) (sandbox w) (clock w) (script w).
Definition set_metrics_kv (v : KV) (w : t) : t :=
  mk (queue_kv w) v (cache_bucket w) (state_bucket w) (sandbox w) (clock w) (script w).
Definition set_cache_bucket (v : R2) (w : t) : t :=
  mk (queue_kv w) (metrics_kv w) v (state_bucket w) (sandbox w) (clock w) (script w).
Definition set_state_bucket (v : R2) (w : t) : t :=
  mk (queue_kv w) (metrics_kv w) (cache_bucket w) v (sandbox w) (clock w) (script w).
Definition set_sandbox (v : S) (w : t) : t :=
  mk (queue_kv w) (metrics_kv w) (cache_bucket w) (state_bucket w) v (clock w) (script w).

Definition next_tick (w : t) : Tick.t := hd Tick.quiet (script w).

(** The world after [ms] milliseconds and one scripted outcome. *)
Definition advance (ms : Z) (w : t) : t :=
  mk (queue_kv w) (metrics_kv w) (cache_bucket w) (state_bucket w)
     (sandbox w) (clock w + ms) (tail (script w)).
End World.
Arguments t : clear implicits.
End World.

Section Runtime.
Context {S : Type} `{!ISandbox S}.

Local Open Scope async_scope.

(** [await collaborator.call(...)]: the call takes the time the script
    says, and either rejects with the scripted fault or does what [call]
    says. *)
Definition await {A} (call : M (World.t S) A) : M (World.t S) A := λ w,
  let tick := World.next_tick w in
  let w := World.advance (Tick.elapsed tick) w in
  match Tick.fault tick with
  | Some msg => (Throw msg, w)
  | None => call w
  end.

(** [Date.now()]. *)
Definition Date_now : M (World.t S) Z := λ w, (Ok (World.clock w), w).

(** [await sandbox.exec(command, { workingDir })]. *)
Definition sandbox_exec (command : string) (workingDir : option string)
    : M (World.t S) ExecResult.t :=
  await (λ w,
    let '(result, sb) := exec command workingDir (World.sandbox w) in
    (Ok result, World.set_sandbox sb w)).

Definition sandbox_readFile (path : string) : M (World.t S) string :=
  await (λ w, (readFile path (World.sandbox w), w)).

Definition sandbox_writeFile (path content : string) : M (World.t S) unit :=
  await (λ w, (Ok tt, World.set_sandbox (writeFile path content (World.sandbox w)) w)).

(** [await Promise.race([sandbox.exec(command, { workingDir }), timer])]
    where the timer rejects with [Error('Step timeout')] after [budget]
    milliseconds. [setTimeout] takes a delay below one millisecond for
    one millisecond: a command that settles at once wins the race
    whatever the budget, and the clock never goes back. The command that
    loses the race is not stopped: the sandbox still moves to the state
    the command leaves. *)
Definition sandbox_exec_race (command : string) (workingDir : option string)
    (budget : Z) : M (World.t S) ExecResult.t := λ w,
  let tick := World.next_tick w in
  let delay := Z.max 1 budget in
  if Tick.elapsed tick <? delay then sandbox_exec command workingDir w
  else
    let '(_, sb) := exec command workingDir (World.sandbox w) in
    (Throw "Step timeout", World.set_sandbox sb (World.advance delay w)).

(** The two calls of the job queue the orchestrator awaits. *)
Definition jobQueue_getJobStatus (jobId : string)
    : M (World.t S) (option JobStatus.t) :=
  await (λ w, (Ok (JobQueue.getJobStatus jobId (World.queue_kv w)), w)).

Definition jobQueue_updateJobStatus (jobId : string) (status : JobStatus.t)
    : M (World.t S) unit :=
  await (λ w,
    (Ok tt, World.set_queue_kv
              (JobQueue.updateJobStatus jobId status (World.queue_kv w)) w)).

(** [for (const x of xs) { await body(x) }]. *)
Fixpoint for_each {Σ A} (xs : list A) (body : A → M Σ unit) : M Σ unit :=
  match xs with
  | [] => Async.ret tt
  | x :: rest => body x ;;; for_each rest body
  end.

End Runtime.

(** The double quote character of the template literals. *)
Definition dquote : string := String "034"%char "".

(** [for (const x of xs) { acc = await body(acc, x) }]. *)
Fixpoint for_fold {Σ A B} (xs : list A) (acc : B) (body : B → A → M Σ B) : M Σ B :=
  match xs with
  | [] => Async.ret acc
  | x :: rest => (acc' <- body acc x ;; for_fold rest acc' body)%async
  end.

(** ** The cache manager ([cache-manager.ts]) *)

(** A [CacheKey] as [listCaches] builds it from the custom metadata of an
    object: [lastUsed] is the number [parseInt] returns, [NaN] included, and
    [size] is the size of the object. *)
Module CacheListing.
Record t := mk {
  key : string;
  paths : list string;
  lastUsed : option Z;
  size : Z
}.
End CacheListing.

Module CacheManager.
Section CacheManager.
Context {S : Type} `{!ISandbox S} `{!Base64}.

Local Open Scope async_scope.

Definition archiveKey (cacheKey : string) : string :=
  "cache/" +:+ cacheKey +:+ ".tar.gz".

Definition metadataKey (cacheKey : string) : string := "cache:" +:+ cacheKey.

(** The key built from the contents that could be read, in order. *)
Definition cache_key_of (repo commit : string) (lockfileContents : list string)
    : string :=
  let parts := [repo; commit] in
  if decide (0 < length lockfileContents)%nat then
    let hash := JS.take 12 (Sha256.hexdigest (JS.join "" lockfileContents)) in
    JS.join "-" (parts ++ [hash])%list
  else JS.join "-" parts.

(** [generateCacheKey(repo, commit, lockfiles, sandbox?)]; [with_sandbox]
    tells whether the optional sandbox argument is given. *)
Definition generateCacheKey (repo commit : string) (lockfiles : list string)
    (with_sandbox : bool) : M (World.t S) string :=
  if with_sandbox && bool_decide (0 < length lockfiles)%nat then
    lockfileContents <-
      for_fold lockfiles []
        (λ contents lockfile,
           Async.try_catch
             (content <- sandbox_readFile lockfile ;;
              Async.ret (contents ++ [content])%list)
             (λ _, Async.ret contents)) ;;
    Async.ret (cache_key_of repo commit lockfileContents)
  else Async.ret (JS.join "-" [repo; commit]).

Definition saveCache (cacheKey : string) (paths : list string)
    : M (World.t S) CacheKey.t :=
  let archiveKey := archiveKey cacheKey in
  timestamp <- Date_now ;;
  existingPaths <-
    for_fold paths []
      (λ existing path,
         result <- sandbox_exec
                     ("test -d " +:+ path +:+ " && echo exists || echo missing")
                     None ;;
         Async.ret
           (if decide (JS.trim (ExecResult.stdout result) = "exists")
            then (existing ++ [path])%list else existing)) ;;
  if decide (length existingPaths = 0%nat)
  then Async.throw "No cache directories found to archive"
  else
    let tarCommand := "tar -czf /tmp/cache.tar.gz " +:+ JS.join " " existingPaths in
    sandbox_exec tarCommand None ;;;
    archiveContent <- sandbox_readFile "/tmp/cache.tar.gz" ;;
    let archiveBuffer := base64_decode archiveContent in
    let size := Z.of_nat (String.length archiveBuffer) in
    await (Async.modify (λ w,
      World.set_cache_bucket
        (<[archiveKey :=
             R2Object.mk archiveBuffer
               [("cacheKey", cacheKey);
                ("paths", JS.join "," paths);
                ("timestamp", pretty timestamp);
                ("size", pretty size)]]>
           (World.cache_bucket w)) w)) ;;;
    sandbox_exec "rm /tmp/cache.tar.gz" None ;;;
    let cacheMetadata := CacheKey.mk cacheKey paths timestamp (Some size) in
    await (Async.modify (λ w,
      World.set_metrics_kv
        (Kv.put (metadataKey cacheKey) (VCache cacheMetadata)
           (30 * 24 * 60 * 60) (World.metrics_kv w)) w)) ;;;
    Async.ret cacheMetadata.

Definition restoreCache (cacheKey : string) : M (World.t S) bool :=
  let archiveKey := archiveKey cacheKey in
  object <- await (w <- Async.get ;; Async.ret (World.cache_bucket w !! archiveKey)) ;;
  match object with
  | None => Async.ret false
  | Some object =>
      archiveBuffer <- await (Async.ret (R2Object.body object)) ;;
      let archiveBase64 := base64_encode archiveBuffer in
      sandbox_writeFile "/tmp/cache.tar.gz" archiveBase64 ;;;
      sandbox_exec "tar -xzf /tmp/cache.tar.gz -C /" None ;;;
      sandbox_exec "rm /tmp/cache.tar.gz" None ;;;
      metadata <- await (w <- Async.get ;;
                        Async.ret (Kv.as_cache
                                     (Kv.get (metadataKey cacheKey)
                                             (World.metrics_kv w)))) ;;
      match metadata with
      | Some metadata =>
          now <- Date_now ;;
          let metadata := CacheKey.set_lastUsed now metadata in
          await (Async.modify (λ w,
            World.set_metrics_kv
              (Kv.put (metadataKey cacheKey) (VCache metadata)
                 (30 * 24 * 60 * 60) (World.metrics_kv w)) w)) ;;;
          Async.ret true
      | None => Async.ret true
      end
  end.

Inductive ProjectType := node | python | go | rust.

Definition getDefaultCachePaths (projectType : ProjectType) : list string :=
  match projectType with
  | node => ["node_modules"; ".npm"; ".yarn/cache"]
  | python => [".venv"; "__pycache__"; ".pip-cache"; ".cache/pip"]
  | go => ["go/pkg/mod"; ".cache/go-build"]
  | rust => ["target"; ".cargo/registry"; ".cargo/git"]
  end.

Definition cacheExists (cacheKey : string) : M (World.t S) bool :=
  let archiveKey := archiveKey cacheKey in
  head <- await (w <- Async.get ;; Async.ret (World.cache_bucket w !! archiveKey)) ;;
  Async.ret (bool_decide (is_Some head)).

(** The record [listCaches] pushes for one listed object. *)
Definition listed_cache (entry : string * R2Object.t) : CacheListing.t :=
  let '(key, obj) := entry in
  CacheListing.mk
    (JS.or_else (R2Bucket.meta "cacheKey" obj)
       (JS.replace ".tar.gz" "" (JS.replace "cache/" "" key)))
    (JS.filter_Boolean
       (JS.split "," (JS.or_else (R2Bucket.meta "paths" obj) "")))
    (JS.parseInt (JS.or_else (R2Bucket.meta "timestamp" obj) "0"))
    (R2Bucket.size obj).

Definition listCaches : M (World.t S) (list CacheListing.t) :=
  list <- await (w <- Async.get ;;
                 Async.ret (R2Bucket.list "cache/" (World.cache_bucket w))) ;;
  Async.ret (map listed_cache list).

(** The default of [pruneCaches]'s [maxAge]. *)
Definition default_maxAge : Z := 30 * 24 * 60 * 60 * 1000.

Definition pruneCaches (maxAge : Z) : M (World.t S) Z :=
  now <- Date_now ;;
  let cutoff := now - maxAge in
  list <- await (w <- Async.get ;;
                 Async.ret (R2Bucket.list "cache/" (World.cache_bucket w))) ;;
  for_fold list 0
    (λ deleted '(key, obj),
       let timestamp :=
         JS.parseInt (JS.or_else (R2Bucket.meta "timestamp" obj) "0") in
       if JS.lt (Some 0) timestamp && JS.lt timestamp (Some cutoff) then
         await (Async.modify (λ w,
           World.set_cache_bucket (base.delete key (World.cache_bucket w)) w)) ;;;
         match R2Bucket.meta "cacheKey" obj with
         | Some cacheKey =>
             if decide (cacheKey = "") then Async.ret tt
             else
               await (Async.modify (λ w,
                 World.set_metrics_kv
                   (Kv.delete (metadataKey cacheKey) (World.metrics_kv w)) w))
         | None => Async.ret tt
         end ;;;
         Async.ret (deleted + 1)
       else Async.ret deleted).
End CacheManager.
End CacheManager.

(** ** The state manager ([state-manager.ts]) *)

Module WorkspaceSnapshot.
Record t := mk {
  jobId : string;
  sandboxId : string;
  commit : string;
  timestamp : Z;
  archivePath : string;
  size : Z
}.
End WorkspaceSnapshot.

(** A [WorkspaceSnapshot] as [getLatestSnapshot] builds it from a listed
    object: [timestamp] is the number [parseInt] returns, [NaN] included. *)
Module SnapshotListing.
Record t := mk {
  jobId : string;
  sandboxId : string;
  commit : string;
  timestamp : option Z;
  archivePath : string;
  size : Z
}.
End SnapshotListing.

Module StateManager.
Section StateManager.
Context {S : Type} `{!ISandbox S} `{!Base64}.

Local Open Scope async_scope.

(** The default of [createSnapshot]'s [paths]. *)
Definition default_paths : list string := ["/workspace"].

Definition createSnapshot (jobId commit : string) (paths : list string)
    : M (World.t S) WorkspaceSnapshot.t :=
  timestamp <- Date_now ;;
  let archiveKey :=
    "snapshots/" +:+ jobId +:+ "/" +:+ commit +:+ "/" +:+ pretty timestamp +:+ ".tar.gz" in
  let tarCommand := "tar -czf /tmp/snapshot.tar.gz " +:+ JS.join " " paths in
  sandbox_exec tarCommand None ;;;
  archiveContent <- sandbox_readFile "/tmp/snapshot.tar.gz" ;;
  let archiveBuffer := base64_decode archiveContent in
  await (Async.modify (λ w,
    World.set_state_bucket
      (<[archiveKey :=
           R2Object.mk archiveBuffer
             [("jobId", jobId);
              ("commit", commit);
              ("timestamp", pretty timestamp);
              ("paths", JS.join "," paths)]]>
         (World.state_bucket w)) w)) ;;;
  sandbox_exec "rm /tmp/snapshot.tar.gz" None ;;;
  Async.ret
    (WorkspaceSnapshot.mk jobId "unknown" commit timestamp archiveKey
       (Z.of_nat (String.length archiveBuffer))).

Definition restoreSnapshot (snapshotKey : string) : M (World.t S) unit :=
  object <- await (w <- Async.get ;;
                   Async.ret (World.state_bucket w !! snapshotKey)) ;;
  match object with
  | None => Async.throw ("Snapshot not found: " +:+ snapshotKey)
  | Some object =>
      archiveBuffer <- await (Async.ret (R2Object.body object)) ;;
      let archiveBase64 := base64_encode archiveBuffer in
      sandbox_writeFile "/tmp/restore.tar.gz" archiveBase64 ;;;
      sandbox_exec "tar -xzf /tmp/restore.tar.gz -C /" None ;;;
      sandbox_exec "rm /tmp/restore.tar.gz" None ;;;
      Async.ret tt
  end.

(** [r2.list({ prefix, limit: 1 })] returns the first object of the
    listing. *)
Definition getLatestSnapshot (jobId commit : string)
    : M (World.t S) (option SnapshotListing.t) :=
  let prefix := "snapshots/" +:+ jobId +:+ "/" +:+ commit +:+ "/" in
  list <- await (w <- Async.get ;;
                 Async.ret (take 1 (R2Bucket.list prefix (World.state_bucket w)))) ;;
  match list with
  | [] => Async.ret None
  | (key, obj) :: _ =>
      Async.ret
        (Some (SnapshotListing.mk
                 (JS.or_else (R2Bucket.meta "jobId" obj) jobId)
                 (JS.or_else (R2Bucket.meta "sandboxId" obj) "unknown")
                 (JS.or_else (R2Bucket.meta "commit" obj) commit)
                 (JS.parseInt (JS.or_else (R2Bucket.meta "timestamp" obj) "0"))
                 key
                 (R2Bucket.size obj)))
  end.

(** The default of [pruneSnapshots]'s [maxAge]. *)
Definition default_maxAge : Z := 7 * 24 * 60 * 60 * 1000.

Definition pruneSnapshots (maxAge : Z) : M (World.t S) Z :=
  now <- Date_now ;;
  let cutoff := now - maxAge in
  list <- await (w <- Async.get ;;
                 Async.ret (R2Bucket.list "snapshots/" (World.state_bucket w))) ;;
  for_fold list 0
    (λ deleted '(key, obj),
       let timestamp :=
         JS.parseInt (JS.or_else (R2Bucket.meta "timestamp" obj) "0") in
       if JS.lt (Some 0) timestamp && JS.lt timestamp (Some cutoff) then
         await (Async.modify (λ w,
           World.set_state_bucket (base.delete key (World.state_bucket w)) w)) ;;;
         Async.ret (deleted + 1)
       else Async.ret deleted).
End StateManager.
End StateManager.

(** ** The orchestrator ([orchestrator.ts]) *)

(** The stream [streamJobLogs] returns, as its consumer sees it: the chunks
    enqueued so far and whether the stream has been closed; [lastStep] is
    the variable the interval callback keeps between its runs. *)
Module LogStream.
Record t := mk {
  lastStep : Z;
  chunks : list string;
  closed : bool
}.

(** The stream when [start] has run: [lastStep] is [-1]. *)
Definition start : t := mk (-1) [] false.

Definition set_lastStep (v : Z) (s : t) : t := mk v (chunks s) (closed s).
(** [controller.enqueue(chunk)]. *)
Definition enqueue (chunk : string) (s : t) : t :=
  mk (lastStep s) (chunks s ++ [chunk]) (closed s).
(** [controller.close()], with [clearInterval(interval)]. *)
Definition close (s : t) : t := mk (lastStep s) (chunks s) true.
End LogStream.

Module Orchestrator.
Section Orchestrator.
Context {S : Type} `{!ISandbox S} `{!Base64}.

Local Open Scope async_scope.

Definition export_command (key value : string) : string :=
  "export " +:+ key +:+ "=" +:+ dquote +:+ value +:+ dquote.

Definition setupWorkspace (job : JobConfig.t) : M (World.t S) unit :=
  sandbox_exec "mkdir -p /workspace" None ;;;
  sandbox_exec ("git clone " +:+ JobConfig.repo job +:+ " /workspace/repo")
               (Some "/workspace") ;;;
  sandbox_exec ("git checkout " +:+ JobConfig.commit job)
               (Some "/workspace/repo") ;;;
  match JobConfig.env job with
  | Some env =>
      for_each env (λ '(key, value),
        sandbox_exec (export_command key value) None ;;; Async.ret tt)
  | None => Async.ret tt
  end.

(** [step.workingDir || '/workspace/repo'] and [step.timeout || 300]. *)
Definition step_workingDir (step : JobStep.t) : string :=
  match JobStep.workingDir step with
  | Some dir => if decide (dir = "") then "/workspace/repo" else dir
  | None => "/workspace/repo"
  end.

Definition step_timeout (step : JobStep.t) : Z :=
  if JS.truthy (JobStep.timeout step) then default 0 (JobStep.timeout step)
  else 300.

(** [execResult.stdout || execResult.stderr]. *)
Definition captured_output (execResult : ExecResult.t) : string :=
  if decide (ExecResult.stdout execResult = "") then ExecResult.stderr execResult
  else ExecResult.stdout execResult.

Definition executeStep (step : JobStep.t) (job : JobConfig.t)
    : M (World.t S) StepResult.t :=
  startedAt <- Date_now ;;
  let result :=
    StepResult.mk (JobStep.name step) StepResult.running
      None None None (Some startedAt) None in
  result <-
    Async.try_catch
      (let workingDir := step_workingDir step in
       let timeout := step_timeout step in
       match JobStep.env step with
       | Some env =>
           for_each env (λ '(key, value),
             sandbox_exec (export_command key value) None ;;; Async.ret tt)
       | None => Async.ret tt
       end ;;;
       execResult <- sandbox_exec_race (JobStep.run step) (Some workingDir)
                                       (timeout * 1000) ;;
       let result := StepResult.set_output (Some (captured_output execResult)) result in
       let result := StepResult.set_exitCode (Some (ExecResult.exitCode execResult)) result in
       Async.ret
         (StepResult.set_status
            (if decide (ExecResult.exitCode execResult = 0)
             then StepResult.success else StepResult.failure)
            result))
      (λ error,
         let result := StepResult.set_status StepResult.failure result in
         let result := StepResult.set_output (Some error) result in
         Async.ret (StepResult.set_exitCode (Some 1) result)) ;;
  finishedAt <- Date_now ;;
  let result := StepResult.set_finishedAt (Some finishedAt) result in
  Async.ret
    (StepResult.set_duration
       (JS.sub (StepResult.finishedAt result) (StepResult.startedAt result))
       result).

(** [!job.cacheKeys || job.cacheKeys.length === 0]. *)
Definition no_cacheKeys (job : JobConfig.t) : bool :=
  match JobConfig.cacheKeys job with
  | Some (_ :: _) => false
  | _ => true
  end.

Definition restoreCache (job : JobConfig.t) : M (World.t S) bool :=
  if no_cacheKeys job then Async.ret false
  else
    Async.try_catch
      (cacheKey <- CacheManager.generateCacheKey
                     (JobConfig.repo job) (JobConfig.commit job)
                     (default [] (JobConfig.cacheKeys job)) true ;;
       cacheHit <- CacheManager.restoreCache cacheKey ;;
       Async.ret cacheHit)
      (λ _, Async.ret false).

Definition saveCache (job : JobConfig.t) : M (World.t S) unit :=
  if no_cacheKeys job then Async.ret tt
  else
    Async.try_catch
      (cacheKey <- CacheManager.generateCacheKey
                     (JobConfig.repo job) (JobConfig.commit job)
                     (default [] (JobConfig.cacheKeys job)) true ;;
       let cachePaths :=
         (CacheManager.getDefaultCachePaths CacheManager.node
          ++ CacheManager.getDefaultCachePaths CacheManager.python
          ++ CacheManager.getDefaultCachePaths CacheManager.go)%list in
       CacheManager.saveCache cacheKey cachePaths ;;;
       Async.ret tt)
      (λ _, Async.ret tt).

(** [status.steps[i] = stepResult]: an assignment at the length of the
    array appends. The loop assigns the indices in order from [0], so it
    never assigns beyond the length. *)
Definition array_set {A} (i : nat) (x : A) (l : list A) : list A :=
  if decide (i < length l)%nat then <[i := x]> l else (l ++ [x])%list.

Definition step_failed_message (step : JobStep.t) : string :=
  "Step " +:+ dquote +:+ JobStep.name step +:+ dquote +:+ " failed".

(** The [for] loop of [executeJob] from index [i], over the steps that
    remain; [status] is the local object the loop mutates. *)
Fixpoint step_loop (job : JobConfig.t) (i : nat) (steps : list JobStep.t)
    : M (JobStatus.t * World.t S) unit :=
  match steps with
  | [] => Async.ret tt
  | step :: rest =>
      Async.modify_local (JobStatus.set_currentStep (Some (Z.of_nat i))) ;;;
      status <- Async.local ;;
      Async.lift (jobQueue_updateJobStatus (JobConfig.id job) status) ;;;
      stepResult <- Async.lift (executeStep step job) ;;
      Async.modify_local
        (λ status, JobStatus.set_steps
                     (array_set i stepResult (JobStatus.steps status)) status) ;;;
      if bool_decide (StepResult.status stepResult = StepResult.failure)
         && negb (default false (JobStep.continueOnError step))
      then
        Async.modify_local (JobStatus.set_status JobStatus.failure) ;;;
        Async.modify_local (JobStatus.set_error (Some (step_failed_message step)))
      else step_loop job (Datatypes.S i) rest
  end.

Definition all_steps_succeeded (status : JobStatus.t) : bool :=
  forallb
    (λ s, bool_decide (StepResult.status s = StepResult.success)
          || bool_decide (StepResult.status s = StepResult.skipped))
    (JobStatus.steps status).

(** The [try] block of [executeJob]. *)
Definition executeJob_body (job : JobConfig.t) : M (JobStatus.t * World.t S) unit :=
  Async.lift (setupWorkspace job) ;;;
  cacheHit <- Async.lift (restoreCache job) ;;
  step_loop job 0 (JobConfig.steps job) ;;;
  status <- Async.local ;;
  (if all_steps_succeeded status
   then Async.modify_local (JobStatus.set_status JobStatus.success)
   else Async.ret tt) ;;;
  status <- Async.local ;;
  (if bool_decide (JobStatus.status status = JobStatus.success)
      && negb (no_cacheKeys job)
   then Async.lift (saveCache job)
   else Async.ret tt) ;;;
  status <- Async.local ;;
  (if bool_decide (JobStatus.status status = JobStatus.success)
   then Async.lift (StateManager.createSnapshot (JobConfig.id job)
                      (JobConfig.commit job) StateManager.default_paths) ;;;
        Async.ret tt
   else Async.ret tt).

(** The [try] block with its [catch] clause. *)
Definition executeJob_guarded (job : JobConfig.t)
    : M (JobStatus.t * World.t S) unit :=
  Async.try_catch (executeJob_body job)
    (λ error,
       Async.modify_local (JobStatus.set_status JobStatus.failure) ;;;
       Async.modify_local (JobStatus.set_error (Some error))).

(** The [finally] clause. *)
Definition executeJob_finally (job : JobConfig.t)
    : M (JobStatus.t * World.t S) unit :=
  finishedAt <- Async.lift Date_now ;;
  Async.modify_local (JobStatus.set_finishedAt (Some finishedAt)) ;;;
  Async.modify_local
    (λ status,
       if JS.truthy (JobStatus.startedAt status)
       then JobStatus.set_duration
              (JS.sub (JobStatus.finishedAt status) (JobStatus.startedAt status))
              status
       else status) ;;;
  status <- Async.local ;;
  Async.lift (jobQueue_updateJobStatus (JobConfig.id job) status).

Definition executeJob (job : JobConfig.t) : M (World.t S) JobStatus.t :=
  status <- jobQueue_getJobStatus (JobConfig.id job) ;;
  match status with
  | None => Async.throw ("Job status not found: " +:+ JobConfig.id job)
  | Some status =>
      λ w,
        match (executeJob_guarded job ;;; executeJob_finally job) (status, w) with
        | (Ok _, (status, w)) => (Ok status, w)
        | (Throw error, (_, w)) => (Throw error, w)
        end
  end.

Definition newline : string := String "010"%char "".

(** The chunk for a step result, when [step.output] is truthy. *)
Definition log_chunk (step : StepResult.t) : option string :=
  match StepResult.output step with
  | Some output =>
      if decide (output = "") then None
      else Some ("[" +:+ StepResult.name step +:+ "]" +:+ newline
                 +:+ output +:+ newline +:+ newline)
  | None => None
  end.

(** [status.steps[i]]. *)
Definition step_at (status : JobStatus.t) (i : Z) : option StepResult.t :=
  if i <? 0 then None else JobStatus.steps status !! Z.to_nat i.

(** One run of the interval callback of [streamJobLogs]; the runs
    follow one another, a second apart. *)
Definition streamJobLogs_poll (jobId : string)
    : M (LogStream.t * World.t S) unit :=
  status <- Async.lift (jobQueue_getJobStatus jobId) ;;
  match status with
  | None => Async.modify_local LogStream.close
  | Some status =>
      stream <- Async.local ;;
      let lastStep := LogStream.lastStep stream in
      match JobStatus.currentStep status with
      | Some currentStep =>
          if lastStep <? currentStep then
            for_each (seqZ (lastStep + 1) (currentStep - lastStep))
              (λ i,
                 match step_at status i with
                 | Some step =>
                     match log_chunk step with
                     | Some chunk =>
                         Async.modify_local (LogStream.enqueue chunk)
                     | None => Async.ret tt
                     end
                 | None => Async.ret tt
                 end) ;;;
            Async.modify_local (LogStream.set_lastStep currentStep)
          else Async.ret tt
      | None => Async.ret tt
      end ;;;
      if bool_decide (JobStatus.status status ∈
           [JobStatus.success; JobStatus.failure; JobStatus.timeout;
            JobStatus.cancelled])
      then Async.modify_local LogStream.close
      else Async.ret tt
  end.
End Orchestrator.
End Orchestrator.

(** ** Vocabulary of the properties *)

(** Numerals and separators. *)
Fixpoint all_digits (s : string) : bool :=
  match s with
  | "" => true
  | String c s' => bool_decide (is_Some (JS.dec_digit c)) && all_digits s'
  end.

Fixpoint free_of (sep : ascii) (s : string) : bool :=
  match s with
  | "" => true
  | String c s' => negb (Ascii.eqb c sep) && free_of sep s'
  end.

(** Among the elements of a sorted array, the first may stand before every
    element, in the order [le]. *)
Definition head_least {A} (le : A → A → Prop) (l : list A) : Prop :=
  match l with
  | [] => True
  | h :: t => Forall (le h) (h :: t)
  end.

Module QueueSpec.
Import JobQueue.
Implicit Types (kv : KV) (key jobId : string).

(** What the comparator of [dequeue] reads from a key. *)
Definition key_priority (key : string) : option Z :=
  JS.parseInt_opt (JS.split ":" key !! 1%nat).
Definition key_timestamp (key : string) : option Z :=
  JS.parseInt_opt (JS.split ":" key !! 2%nat).

(** [before a b]: the entry [a] is to be served no later than [b]. *)
Definition before (a b : string) : Prop :=
  ∃ p1 t1 id1 p2 t2 id2,
    a = queueKey p1 t1 id1 ∧ b = queueKey p2 t2 id2
    ∧ (p2 < p1 ∨ (p1 = p2 ∧ t1 ≤ t2)).

Definition written_by_enqueue (key : string) : Prop :=
  ∃ p t id, key = queueKey p t id.

(** The store after [dequeue] has taken the entry [firstKey] of [jobData]. *)
Definition after_dequeue (now : Z) (firstKey : string) (jobData : JobConfig.t) kv : KV :=
  match getJobStatus (JobConfig.id jobData) (base.delete firstKey kv) with
  | Some status =>
      updateJobStatus (JobConfig.id jobData)
        (JobStatus.set_startedAt (Some now)
           (JobStatus.set_status JobStatus.running status))
        (base.delete firstKey kv)
  | None => base.delete firstKey kv
  end.

(** Every pending entry was written by [enqueue] and holds a job. *)
Definition queue_wf kv : Prop :=
  ∀ key v, JS.startsWith key "queue:" = true → kv !! key = Some v →
    written_by_enqueue key ∧ ∃ job, v = VJob job.

(** The record under [key] is a status in [running]. *)
Definition is_running kv key : bool :=
  match Kv.as_status (Kv.get key kv) with
  | Some status => bool_decide (JobStatus.status status = JobStatus.running)
  | None => false
  end.

Definition running_keys kv : list string :=
  filter (λ key, is_running kv key = true) (Kv.list "status:" kv).

(** The store after [dequeue] has been called at each of [times]. *)
Definition dequeue_all (config : QueueConfig) (times : list Z) kv : KV :=
  fold_left (λ kv now, (dequeue config now kv).2) times kv.

(** The store after the records of [statuses] are deleted with their
    retained configurations. *)
Definition delete_records (statuses : list JobStatus.t) kv : KV :=
  fold_left
    (λ kv status,
       Kv.delete (jobKey (JobStatus.id status))
         (Kv.delete (statusKey (JobStatus.id status)) kv))
    statuses kv.

(** The records the design asks [pruneCompletedJobs] to delete: those in
    success, failure or cancelled whose [finishedAt] is older than
    [maxAge] at time [now]. *)
Definition overdue (now maxAge : Z) (status : JobStatus.t) : bool :=
  bool_decide (JobStatus.status status ∈
    [JobStatus.success; JobStatus.failure; JobStatus.cancelled])
  && match JobStatus.finishedAt status with
     | Some t => bool_decide (t < now - maxAge)
     | None => false
     end.

Definition overdue_record (now maxAge : Z) (entry : string * KVValue) : bool :=
  JS.startsWith entry.1 "status:"
  && match entry.2 with
     | VStatus status => overdue now maxAge status
     | _ => false
     end.

(** Status records as the queue and the orchestrator write them: under
    the key of their own identifier, and stamped by a clock that does not
    read [0]. *)
Definition status_wf kv : Prop :=
  ∀ jobId status, kv !! statusKey jobId = Some (VStatus status) →
    JobStatus.id status = jobId ∧ JobStatus.finishedAt status ≠ Some 0.

(** The operations on the status store: those of the queue and the
    status write of the orchestrator. *)
Inductive QueueOp :=
  | Enqueue (now : Z) (job : JobConfig.t)
  | StoreJobConfig (job : JobConfig.t)
  | Dequeue (now : Z)
  | CancelJob (now : Z) (jobId : string)
  | RetryJob (now : Z) (jobId : string)
  | UpdateJobStatus (jobId : string) (status : JobStatus.t).

Definition run_op (config : QueueConfig) (op : QueueOp) kv : KV :=
  match op with
  | Enqueue now job => enqueue config now job kv
  | StoreJobConfig job => storeJobConfig job kv
  | Dequeue now => (dequeue config now kv).2
  | CancelJob now jobId => (cancelJob now jobId kv).2
  | RetryJob now jobId => (retryJob config now jobId kv).2
  | UpdateJobStatus jobId status => updateJobStatus jobId status kv
  end.

(** The job whose status record an operation writes, if any. *)
Definition op_target (config : QueueConfig) (op : QueueOp) kv : option string :=
  match op with
  | Enqueue _ job => Some (JobConfig.id job)
  | StoreJobConfig _ => None
  | Dequeue now => JobConfig.id <$> (dequeue config now kv).1
  | CancelJob _ jobId => Some jobId
  | RetryJob _ jobId => JobConfig.id <$> Kv.as_job (Kv.get (jobKey jobId) kv)
  | UpdateJobStatus jobId _ => Some jobId
  end.

(** What the callers of the operations see to: the clock does not read
    [0], and the orchestrator writes back the record it read, under the
    same identifier, and does not set running itself. *)
Definition op_ok (op : QueueOp) kv : Prop :=
  match op with
  | CancelJob now _ => now ≠ 0
  | UpdateJobStatus jobId status =>
      JobStatus.id status = jobId
      ∧ JobStatus.finishedAt status ≠ Some 0
      ∧ (JobStatus.status status = JobStatus.running →
         ∃ stored, getJobStatus jobId kv = Some stored
                   ∧ JobStatus.status stored = JobStatus.running)
  | _ => True
  end.

(** The stores the operations lead to from the empty one. *)
Inductive reachable (config : QueueConfig) : KV → Prop :=
  | reachable_empty : reachable config ∅
  | reachable_op op kv :
      reachable config kv → op_ok op kv → reachable config (run_op config op kv)
  | reachable_prune now maxAge kv :
      reachable config kv → reachable config (pruneCompletedJobs now maxAge kv).2.

(** The status records in [running], counted on the store itself and not
    by the code of the queue: the entries under [status:] whose value is
    a status in [running]. *)
Definition running_record (entry : string * KVValue) : bool :=
  JS.startsWith entry.1 "status:"
  && match entry.2 with
     | VStatus status => bool_decide (JobStatus.status status = JobStatus.running)
     | _ => false
     end.

Definition running_records kv : Z :=
  Z.of_nat (size (filter (λ entry, running_record entry = true) kv)).

(** A status write that does not put back into [running] a record that
    the store no longer holds as [running]; the operations of the queue
    itself are not restricted. *)
Definition no_revival (op : QueueOp) kv : Prop :=
  match op with
  | UpdateJobStatus jobId status =>
      JobStatus.status status = JobStatus.running →
      ∃ stored, getJobStatus jobId kv = Some stored
                ∧ JobStatus.status stored = JobStatus.running
  | _ => True
  end.

(** The stores that the operations lead to from the empty one when no
    status write revives a record. *)
Inductive served (config : QueueConfig) : KV → Prop :=
  | served_empty : served config ∅
  | served_op op kv :
      served config kv → no_revival op kv → served config (run_op config op kv)
  | served_prune now maxAge kv :
      served config kv → served config (pruneCompletedJobs now maxAge kv).2.

(** The store after the operations [ops], in order. *)
Definition run_ops (config : QueueConfig) (ops : list QueueOp) kv : KV :=
  fold_left (λ kv op, run_op config op kv) ops kv.

End QueueSpec.

(** ** Vocabulary for runs in a world *)

Module RunSpec.
Section RunSpec.
Context {S : Type}.
Implicit Types (w : World.t S).

(** None of the awaited calls to come rejects by the environment's doing. *)
Definition fault_free w : Prop :=
  Forall (λ tick, Tick.fault tick = None) (World.script w).

(** No call to come takes [budget] milliseconds or more. *)
Definition within (budget : Z) w : Prop :=
  Forall (λ tick, Tick.elapsed tick < budget) (Tick.quiet :: World.script w).

(** [w'] is [w] after some awaited calls. *)
Definition later w w' : Prop := World.script w' `suffix_of` World.script w.

(** [w'] is [w] after some awaited calls that wrote nothing to the job
    queue's namespace. *)
Definition frame w w' : Prop :=
  later w w' ∧ World.queue_kv w' = World.queue_kv w.

(** A computation that only consumes the script and keeps the job
    queue's namespace. *)
Definition framed {A} (m : M (World.t S) A) : Prop :=
  ∀ w, frame w (m w).2.

(** A computation that never throws. *)
Definition total {Σ A} (m : M Σ A) : Prop :=
  ∀ σ, ∃ a, (m σ).1 = Ok a.

(** A computation that does not throw unless the environment makes a
    call reject. *)
Definition safe {A} (m : M (World.t S) A) : Prop :=
  ∀ w, fault_free w → ∃ a, (m w).1 = Ok a.
End RunSpec.
End RunSpec.

Module CacheSpec.
Section CacheSpec.
Context {S : Type} `{!ISandbox S}.

End CacheSpec.

End CacheSpec.

Module OrchestratorSpec.
Section OrchestratorSpec.
Context {S : Type} `{!ISandbox S} `{!Base64}.

Local Open Scope async_scope.

(** Whether a step result stops the loop. *)
Definition stops (step : JobStep.t) (result : StepResult.t) : bool :=
  bool_decide (StepResult.status result = StepResult.failure)
  && negb (default false (JobStep.continueOnError step)).

(** The local status after the step at index [i] has produced [result]. *)
Definition record_step (i : nat) (result : StepResult.t) (status : JobStatus.t)
    : JobStatus.t :=
  JobStatus.set_steps
    (Orchestrator.array_set i result
       (JobStatus.steps (JobStatus.set_currentStep (Some (Z.of_nat i)) status)))
    (JobStatus.set_currentStep (Some (Z.of_nat i)) status).

(** The local status after a step has stopped the loop. *)
Definition record_stop (step : JobStep.t) (status : JobStatus.t) : JobStatus.t :=
  JobStatus.set_error (Some (Orchestrator.step_failed_message step))
    (JobStatus.set_status JobStatus.failure status).

(** The local status after the [catch] clause has caught [error]. *)
Definition record_error (error : string) (status : JobStatus.t) : JobStatus.t :=
  JobStatus.set_error (Some error)
    (JobStatus.set_status JobStatus.failure status).

(** The local status after the [finally] clause has stamped it at [now]. *)
Definition finalize (now : Z) (status : JobStatus.t) : JobStatus.t :=
  let status := JobStatus.set_finishedAt (Some now) status in
  if JS.truthy (JobStatus.startedAt status)
  then JobStatus.set_duration
         (JS.sub (JobStatus.finishedAt status) (JobStatus.startedAt status))
         status
  else status.

(** The [try] block of [executeJob] from the end of the step loop. *)
Definition after_loop (job : JobConfig.t) : M (JobStatus.t * World.t S) unit :=
  status <- Async.local ;;
  (if Orchestrator.all_steps_succeeded status
   then Async.modify_local (JobStatus.set_status JobStatus.success)
   else Async.ret tt) ;;;
  status <- Async.local ;;
  (if bool_decide (JobStatus.status status = JobStatus.success)
      && negb (Orchestrator.no_cacheKeys job)
   then Async.lift (Orchestrator.saveCache job)
   else Async.ret tt) ;;;
  status <- Async.local ;;
  (if bool_decide (JobStatus.status status = JobStatus.success)
   then Async.lift (StateManager.createSnapshot (JobConfig.id job)
                      (JobConfig.commit job) StateManager.default_paths) ;;;
        Async.ret tt
   else Async.ret tt).

(** The [try] block with its [catch] clause, run from [σ], returns
    with the status failure and [msg] for error. *)
Definition caught (job : JobConfig.t) (σ : JobStatus.t * World.t S)
    (msg : string) : Prop :=
  ∃ status1 w1,
    Orchestrator.executeJob_guarded job σ = (Ok tt, (status1, w1))
    ∧ JobStatus.status status1 = JobStatus.failure
    ∧ JobStatus.error status1 = Some msg.

(** The loop of [executeJob], from the index [i] and the state [σ],
    has run the steps [steps], none of which stopped it and none of
    whose status writes was rejected, and is in the state [σ']. *)
Fixpoint loop_reaches (job : JobConfig.t) (i : nat) (steps : list JobStep.t)
    (σ σ' : JobStatus.t * World.t S) : Prop :=
  match steps with
  | [] => σ' = σ
  | step :: rest =>
      ∃ w1 result w2,
        jobQueue_updateJobStatus (JobConfig.id job)
          (JobStatus.set_currentStep (Some (Z.of_nat i)) σ.1) σ.2
        = (Ok tt, w1)
        ∧ Orchestrator.executeStep step job w1 = (Ok result, w2)
        ∧ stops step result = false
        ∧ loop_reaches job (Datatypes.S i) rest (record_step i result σ.1, w2) σ'
  end.

(** The world in which [executeJob] creates the snapshot: the one the
    loop leaves, after the cache has been saved when the job has cache
    keys. *)
Definition snapshot_world (job : JobConfig.t) (w : World.t S) : World.t S :=
  if Orchestrator.no_cacheKeys job then w else (Orchestrator.saveCache job w).2.
End OrchestratorSpec.
End OrchestratorSpec.

(** ** Jobs and stores used as concrete instances *)

Module Fixtures.
Import JobQueue.

Definition a_step (name run : string) : JobStep.t :=
  JobStep.mk name run None None None None.

Definition a_job (id : string) (priority : Z) : JobConfig.t :=
  JobConfig.mk id "https://github.com/user/repo" "abc123" "main"
    [a_step "Install" "npm ci"; a_step "Test" "npm test"]
    None None None (Some priority).

(** The scenario of the design document: A (priority 5) submitted at
    time 0, B (priority 8) at time 1, C (priority 5) at time 2. *)
Definition scenario_kv : KV :=
  enqueue default_config 2 (a_job "C" 5)
    (enqueue default_config 1 (a_job "B" 8)
       (enqueue default_config 0 (a_job "A" 5) ∅)).

(** The identifiers of the jobs that [n] successive calls of [dequeue]
    return, at the times [now], [now + 1], ... *)
Fixpoint dequeue_sequence (config : QueueConfig) (n : nat) (now : Z) (kv : KV)
    : list (option string) :=
  match n with
  | O => []
  | S n' =>
      let '(job, kv') := dequeue config now kv in
      (JobConfig.id <$> job) :: dequeue_sequence config n' (now + 1) kv'
  end.

(** One job at a time; B of the scenario has been dequeued and runs. *)
Definition single_config : QueueConfig := mkConfig 1 5 3.

Definition busy_kv : KV := (dequeue single_config 3 scenario_kv).2.

(** A listing of the scenario taken before the entry of B went away:
    the listing still names it, the store no longer holds it. *)
Definition stale_listing : list string := Kv.list "queue:" scenario_kv.

Definition stale_kv : KV := Kv.delete (queueKey 8 1 "B") scenario_kv.

(** A store of finished and unfinished jobs, for the retention rules: at
    time 10000 with a maximal age of 5000, the records stamped 1000 are
    overdue. *)
Definition a_status (id : string) (state : JobStatus.state) (finishedAt : option Z)
    : JobStatus.t :=
  JobStatus.mk id state (Some 1) (Some 500) finishedAt
    ((λ t, t - 500) <$> finishedAt) [] None None.

Definition retention_kv : KV :=
  updateJobStatus "old-ok" (a_status "old-ok" JobStatus.success (Some 1000))
    (storeJobConfig (a_job "old-ok" 5)
    (updateJobStatus "old-timeout" (a_status "old-timeout" JobStatus.timeout (Some 1000))
    (storeJobConfig (a_job "old-timeout" 5)
    (updateJobStatus "fresh" (a_status "fresh" JobStatus.failure (Some 9000))
    (storeJobConfig (a_job "fresh" 5)
    (updateJobStatus "active" (a_status "active" JobStatus.running None)
    (storeJobConfig (a_job "active" 5) ∅))))))).

(** One job at a time. A and B are submitted and A is dequeued; the
    orchestrator reads the status of A, in running; A is cancelled and
    B is dequeued in its place. *)
Definition admitted_kv : KV :=
  QueueSpec.run_ops single_config
    [QueueSpec.Enqueue 0 (a_job "A" 5); QueueSpec.Enqueue 1 (a_job "B" 5);
     QueueSpec.Dequeue 2] ∅.

Definition status_read : JobStatus.t :=
  JobStatus.set_startedAt (Some 2)
    (JobStatus.set_status JobStatus.running (initial_status (a_job "A" 5))).

Definition replaced_kv : KV :=
  QueueSpec.run_ops single_config
    [QueueSpec.CancelJob 3 "A"; QueueSpec.Dequeue 4] admitted_kv.

(** The first status write of the loop of [executeJob] for A, from the
    status object it read before the cancellation. *)
Definition revived_kv : KV :=
  QueueSpec.run_op single_config
    (QueueSpec.UpdateJobStatus "A"
       (JobStatus.set_currentStep (Some 0) status_read))
    replaced_kv.

(** A job, submitted and dequeued, that the orchestrator has recorded as
    failed. *)
Definition failed_kv : KV :=
  let kv := enqueue default_config 1 (a_job "A" 5) (storeJobConfig (a_job "A" 5) ∅) in
  let kv := (dequeue default_config 2 kv).2 in
  updateJobStatus "A" (a_status "A" JobStatus.failure (Some 700)) kv.
End Fixtures.

(** A sandbox to run jobs in: a table of files and a list of directories.
    A command that starts with [false] exits with [1], every other command
    with [0]. *)
Module Toy.
Record Sandbox := mk {
  files : gmap string string;
  dirs : list string
}.

Definition set_files (v : gmap string string) (sb : Sandbox) : Sandbox :=
  mk v (dirs sb).

Definition run (command : string) (workingDir : option string) (sb : Sandbox)
    : ExecResult.t * Sandbox :=
  if JS.startsWith command "false" then
    (ExecResult.mk "" ("failed: " +:+ command) 1, sb)
  else if JS.startsWith command "test -d " then
    (ExecResult.mk
       (if bool_decide
             (command ∈ (λ d, "test -d " +:+ d +:+ " && echo exists || echo missing")
                          <$> dirs sb)
        then "exists" else "missing") "" 0, sb)
  else if JS.startsWith command "tar -czf /tmp/cache.tar.gz " then
    (ExecResult.mk "" "" 0,
     set_files (<["/tmp/cache.tar.gz" := "archive of the cache"]> (files sb)) sb)
  else if JS.startsWith command "tar -czf /tmp/snapshot.tar.gz " then
    (ExecResult.mk "" "" 0,
     set_files (<["/tmp/snapshot.tar.gz" := "archive of the workspace"]> (files sb)) sb)
  else if JS.startsWith command "rm " then
    (ExecResult.mk "" "" 0,
     set_files (base.delete (String.substring 3 (String.length command) command)
                  (files sb)) sb)
  else (ExecResult.mk ("ran: " +:+ command) "" 0, sb).

Global Instance sandbox : ISandbox Sandbox := {|
  exec := run;
  readFile path sb :=
    match files sb !! path with
    | Some content => Ok content
    | None => Throw ("ENOENT: no such file or directory, open " +:+ path)
    end;
  writeFile path content sb := set_files (<[path := content]> (files sb)) sb
|}.

(** Archives are kept as they are. *)
Global Instance base64 : Base64 := {|
  base64_decode content := content;
  base64_encode content := content
|}.

Definition lock_a_files : gmap string string :=
  {[ "package-lock.json" := "dep@24037953" ]}.

Definition world (sb : Sandbox) (queue_kv : KV) (script : list Tick.t)
    : World.t Sandbox :=
  World.mk queue_kv ∅ ∅ ∅ sb 1000 script.

(** A job of the given steps, submitted at time 1 and dequeued at time 5. *)
Definition job_of (id : string) (steps : list JobStep.t)
    (cacheKeys : option (list string)) : JobConfig.t :=
  JobConfig.mk id "https://github.com/user/repo" "abc123" "main" steps
    None cacheKeys None None.

Definition dequeued (job : JobConfig.t) : KV :=
  (JobQueue.dequeue JobQueue.default_config 5
     (JobQueue.enqueue JobQueue.default_config 1 job ∅)).2.

(** Install succeeds, Test fails, Build is never reached. *)
Definition stop_job : JobConfig.t :=
  job_of "stop"
    [JobStep.mk "Install" "npm ci" None None None None;
     JobStep.mk "Test" "false # npm test" None None (Some false) None;
     JobStep.mk "Build" "npm run build" None None None None] None.


(** Lint fails and is allowed to; Test succeeds. *)
Definition continue_job : JobConfig.t :=
  job_of "continue"
    [JobStep.mk "Lint" "false # npm run lint" None None (Some true) None;
     JobStep.mk "Test" "npm test" None None None None] None.

Definition continue_world : World.t Sandbox :=
  world (mk ∅ []) (dequeued continue_job) [].

(** A job with a manifest to derive its cache key from, in a world whose
    blob store rejects the sixth awaited call: the probe of
    [restoreCache], after the status read, the three commands of the
    workspace setup and the read of the manifest. *)
Definition cached_job : JobConfig.t :=
  job_of "cached" [JobStep.mk "Test" "npm test" None None None None]
    (Some ["package-lock.json"]).

Definition outage_world : World.t Sandbox :=
  world (mk {[ "package-lock.json" := "dep@24037953" ]} ["node_modules"])
    (dequeued cached_job)
    (replicate 5 Tick.quiet ++ [Tick.mk 0 (Some "R2 unavailable")]).

(** The same job in a world that rejects the checkout, the fourth call. *)
Definition checkout_fails_world : World.t Sandbox :=
  world (mk {[ "package-lock.json" := "dep@24037953" ]} ["node_modules"])
    (dequeued cached_job)
    (replicate 3 Tick.quiet ++ [Tick.mk 0 (Some "checkout failed")]).

(** The world of the outage at the moment [restoreCache] probes the blob
    store: the status has been read, the workspace set up and the cache
    key derived. *)
Definition probe_world : World.t Sandbox :=
  (CacheManager.generateCacheKey (JobConfig.repo cached_job)
     (JobConfig.commit cached_job) ["package-lock.json"] true
     (Orchestrator.setupWorkspace cached_job
        (World.advance 0 outage_world)).2).2.

(** A world that rejects the status write of the [finally] clause of the
    job that stops: the ninth awaited call. *)
Definition final_write_fails_world : World.t Sandbox :=
  world (mk ∅ []) (dequeued stop_job)
    (replicate 8 Tick.quiet ++ [Tick.mk 0 (Some "KV unavailable")]).

(** A world that rejects the status write before the second step of
    the job that stops: the seventh awaited call, after the status read,
    the three commands of the workspace setup, the status write before
    the first step and the command of the first step. *)
Definition loop_write_fails_world : World.t Sandbox :=
  world (mk ∅ []) (dequeued stop_job)
    (replicate 6 Tick.quiet ++ [Tick.mk 0 (Some "KV unavailable")]).

(** A sandbox with the given files and nothing else. *)
Definition with_files (files : gmap string string) : World.t Sandbox :=
  world (mk files []) ∅ [].

(** Two sandboxes whose manifest differs, and one with two manifests. *)
Definition lock_a : World.t Sandbox := with_files lock_a_files.
End Toy.

(** ** Vocabulary and instances for the further properties *)

Module QueueSpec2.
Import JobQueue.

(** Every pending entry was written by [enqueue] for a job whose
    identifier has no colon in it. *)
Definition colon_free_ids (kv : KV) : Prop :=
  ∀ key, key ∈ Kv.list "queue:" kv →
    ∃ p t id, key = queueKey p t id ∧ free_of ":" id = true.
End QueueSpec2.

Module RunSpec2.
Section RunSpec2.
Context {S : Type}.
Implicit Types (w : World.t S).

(** A computation that leaves the part [π] of the world as it was,
    whether it returns or throws. *)
Definition keeps {X A} (π : World.t S → X) (m : M (World.t S) A) : Prop :=
  ∀ w, π (m w).2 = π w.

(** A part of the world that the passing of time does not change. *)
Definition steady {X} (π : World.t S → X) : Prop :=
  ∀ ms w, π (World.advance ms w) = π w.

(** What the clock reads when the next [n] awaited calls have been
    made. *)
Definition clock_after (n : nat) w : Z :=
  World.clock w + foldr Z.add 0 (Tick.elapsed <$> take n (World.script w)).

(** A part of the world that is not the sandbox. *)
Definition apart_from_sandbox {X} (π : World.t S → X) : Prop :=
  ∀ sb w, π (World.set_sandbox sb w) = π w.
End RunSpec2.
End RunSpec2.

Module BlobSpec.
(** The command [saveCache] probes a directory with. *)
Definition probe (path : string) : string :=
  "test -d " +:+ path +:+ " && echo exists || echo missing".

(** The time an object carries in its custom metadata, as the pruning
    loops read it. *)
Definition stamp (obj : R2Object.t) : option Z :=
  JS.parseInt (JS.or_else (R2Bucket.meta "timestamp" obj) "0").

(** The objects the pruning loops delete at a cutoff: those stamped
    with a positive time before it. *)
Definition stale (cutoff : Z) (obj : R2Object.t) : bool :=
  match stamp obj with
  | Some t => bool_decide (0 < t < cutoff)
  | None => false
  end.

(** The custom metadata [saveCache] attaches to a bundle. *)
Definition bundle_metadata (cacheKey : string) (paths : list string)
    (timestamp size : Z) : list (string * string) :=
  [("cacheKey", cacheKey);
   ("paths", JS.join "," paths);
   ("timestamp", pretty timestamp);
   ("size", pretty size)].

Section Loops.
Context {S : Type} `{!ISandbox S}.

(** The loop of [saveCache] over the paths, from the paths found so
    far. *)
Definition probe_loop (paths existing : list string)
    : M (World.t S) (list string) :=
  for_fold paths existing
    (λ existing path,
       (result <- sandbox_exec (probe path) None ;;
        Async.ret
          (if decide (JS.trim (ExecResult.stdout result) = "exists")
           then (existing ++ [path])%list else existing))%async).

(** The paths [saveCache] finds to be directories, when each probe is
    answered from the state the probes before it left. *)
Fixpoint probed (paths : list string) (sb : S) : list string * S :=
  match paths with
  | [] => ([], sb)
  | path :: rest =>
      let '(result, sb') := exec (probe path) None sb in
      let '(found, sb'') := probed rest sb' in
      (if decide (JS.trim (ExecResult.stdout result) = "exists")
       then path :: found else found, sb'')
  end.
End Loops.
End BlobSpec.

(** Worlds of the sandbox [Toy] for the cache manager. *)
Module ToyCache.
(** The paths the orchestrator asks to cache for a node project. *)
Definition node_paths : list string :=
  CacheManager.getDefaultCachePaths CacheManager.node.

(** A sandbox where the dependencies have been installed, at time 1000. *)
Definition installed : World.t Toy.Sandbox :=
  Toy.world (Toy.mk ∅ ["node_modules"]) ∅ [].

(** A sandbox with no directory to cache. *)
Definition bare : World.t Toy.Sandbox := Toy.world (Toy.mk ∅ []) ∅ [].

(** The world once the cache of the installed sandbox has been saved. *)
Definition saved : World.t Toy.Sandbox :=
  (CacheManager.saveCache "repo-abc123" node_paths installed).2.

(** The bundle the blob store then holds. *)
Definition bundle : R2Object.t :=
  R2Object.mk "archive of the cache"
    (BlobSpec.bundle_metadata "repo-abc123" node_paths 1000 20).
End ToyCache.

Module ListingSpec.
(** The entries a pruning loop over the listing of [prefix] deletes at
    a cutoff. *)
Definition pruned (prefix : string) (cutoff : Z) (entry : string * R2Object.t) : bool :=
  JS.startsWith entry.1 prefix && BlobSpec.stale cutoff entry.2.

(** The keys of the cache metadata a pruning of the caches deletes:
    those named by the pruned bundles. *)
Definition pruned_metadata (cutoff : Z) (bucket : R2) (key : string) : Prop :=
  ∃ name obj cacheKey,
    bucket !! name = Some obj
    ∧ pruned "cache/" cutoff (name, obj) = true
    ∧ R2Bucket.meta "cacheKey" obj = Some cacheKey
    ∧ cacheKey ≠ ""
    ∧ key = CacheManager.metadataKey cacheKey.

(** A bucket after the stale entries of a listing have been deleted,
    and the cache metadata after the records those entries name have
    been. *)
Definition swept (cutoff : Z) (l : list (string * R2Object.t)) (bucket : R2) : R2 :=
  foldl (λ b entry, if BlobSpec.stale cutoff entry.2 then base.delete entry.1 b else b)
    bucket l.

Definition swept_metadata (cutoff : Z) (l : list (string * R2Object.t)) (kv : KV) : KV :=
  foldl
    (λ kv entry,
       if BlobSpec.stale cutoff entry.2 then
         match R2Bucket.meta "cacheKey" entry.2 with
         | Some cacheKey =>
             if decide (cacheKey = "") then kv
             else Kv.delete (CacheManager.metadataKey cacheKey) kv
         | None => kv
         end
       else kv)
    kv l.

(** Paths that survive the journey through the custom metadata: not
    empty and without a comma. *)
Definition plain_path (path : string) : bool :=
  negb (bool_decide (path = "")) && free_of "," path.
End ListingSpec.

Module ToyCache2.
Import ToyCache.

(** Forty days after the cache was saved. *)
Definition forty_days_on : World.t Toy.Sandbox :=
  World.advance (40 * 24 * 60 * 60 * 1000) saved.
End ToyCache2.

(** Worlds of the sandbox [Toy] for the state manager. *)
Module ToySnapshots.
(** A workspace at time 1000, with nothing in the stores. *)
Definition workspace : World.t Toy.Sandbox := Toy.world (Toy.mk ∅ []) ∅ [].

(** The world after a first snapshot of job [build] at time 1000, and
    after a second one at time 2000. *)
Definition once : World.t Toy.Sandbox :=
  (StateManager.createSnapshot "build" "abc123" StateManager.default_paths workspace).2.

Definition twice : World.t Toy.Sandbox :=
  (StateManager.createSnapshot "build" "abc123" StateManager.default_paths
     (World.advance 1000 once)).2.

(** Ten days after the first snapshot. *)
Definition ten_days_on : World.t Toy.Sandbox :=
  World.advance (10 * 24 * 60 * 60 * 1000) once.
End ToySnapshots.

Module OrchestratorSpec2.
Section OrchestratorSpec2.
Context {S : Type} `{!ISandbox S}.

(** A step whose command exits with [0] wherever it runs, and within
    the time the step allows as long as no call to come takes that
    long. *)
Definition passes (w : World.t S) (step : JobStep.t) : Prop :=
  RunSpec.within (Orchestrator.step_timeout step * 1000) w
  ∧ ∀ dir sb, ExecResult.exitCode (exec (JobStep.run step) dir sb).1 = 0.

(** The command [createSnapshot] archives the workspace with. *)
Definition snapshot_command (paths : list string) : string :=
  "tar -czf /tmp/snapshot.tar.gz " +:+ JS.join " " paths.

(** The key [createSnapshot] stores a snapshot under. *)
Definition snapshot_key (jobId commit : string) (timestamp : Z) : string :=
  "snapshots/" +:+ jobId +:+ "/" +:+ commit +:+ "/" +:+ pretty timestamp
  +:+ ".tar.gz".

(** [kv'] is [kv] except, at most, for the status record of the job. *)
Definition elsewhere (jobId : string) (kv kv' : KV) : Prop :=
  ∀ key, key ≠ JobQueue.statusKey jobId → kv' !! key = kv !! key.

(** A computation that writes to the job queue's namespace nothing
    but the status record of the job, whether it returns or throws. *)
Definition minds_own {L A} (jobId : string) (m : M (L * World.t S) A) : Prop :=
  ∀ l w, elsewhere jobId (World.queue_kv w) (World.queue_kv (m (l, w)).2.2).

(** The chunk [streamJobLogs] has for the step at index [i], if any. *)
Definition chunk_at (status : JobStatus.t) (i : Z) : option string :=
  Orchestrator.step_at status i ≫= Orchestrator.log_chunk.

(** The status values that close the stream. *)
Definition finished (status : JobStatus.t) : Prop :=
  JobStatus.status status ∈
    [JobStatus.success; JobStatus.failure; JobStatus.timeout; JobStatus.cancelled].
End OrchestratorSpec2.
End OrchestratorSpec2.

(** A sandbox without network and whose files cannot be read: [git clone]
    exits with [128] and every other command with [0]; it keeps a log of
    the commands. *)
Module Sealed.
Record Sandbox := mk { commands : list string }.

Definition denied (path : string) : string :=
  "EACCES: permission denied, open " +:+ path.

Global Instance sandbox : ISandbox Sandbox := {|
  exec command workingDir sb :=
    (ExecResult.mk "" "" (if JS.startsWith command "git clone " then 128 else 0),
     mk (command :: commands sb));
  readFile path sb := Throw (denied path);
  writeFile path content sb := sb
|}.
End Sealed.

Module ToyJobs.
(** Two steps that succeed. *)
Definition green_job : JobConfig.t :=
  Toy.job_of "green"
    [JobStep.mk "Install" "npm ci" None None None None;
     JobStep.mk "Test" "npm test" None None None None] None.

(** The job dequeued, in an empty workspace. *)
Definition green_world : World.t Toy.Sandbox :=
  Toy.world (Toy.mk ∅ []) (Toy.dequeued green_job) [].

(** The same job where no file can be read. *)
Definition sealed_world : World.t Sealed.Sandbox :=
  World.mk (Toy.dequeued green_job) ∅ ∅ ∅ (Sealed.mk []) 1000 [].
End ToyJobs.

Module ToyLogs.
(** The status of the job [green] as the loop of [executeJob] writes it
    before the first step runs, and as [executeJob] leaves it. *)
Definition at_first_step : JobStatus.t :=
  JobStatus.set_currentStep (Some 0)
    (JobStatus.set_status JobStatus.running
       (JobQueue.initial_status ToyJobs.green_job)).

Definition at_last_step : JobStatus.t :=
  JobStatus.set_currentStep (Some 1) at_first_step.

Definition at_end : JobStatus.t :=
  JobStatus.set_status JobStatus.success
    (JobStatus.set_steps
       [StepResult.mk "Install" StepResult.success (Some "ran: npm ci") (Some 0)
          (Some 0) (Some 1000) (Some 1000);
        StepResult.mk "Test" StepResult.success (Some "ran: npm test") (Some 0)
          (Some 0) (Some 1000) (Some 1000)]
       at_last_step).

Definition world_of (status : JobStatus.t) : World.t Toy.Sandbox :=
  Toy.world (Toy.mk ∅ []) (JobQueue.updateJobStatus "green" status ∅) [].
End ToyLogs.

(** * Part II: properties *)

(** ** Decimal numerals: [parseInt] reads back what a template literal wrote *)

Section Numerals.

Lemma string_app_cons c s t : String c s +:+ t = String c (s +:+ t).
Proof. reflexivity. Qed.

Lemma string_app_assoc s t u : (s +:+ t) +:+ u = s +:+ t +:+ u.
Proof. induction s as [| c s IH]; [done |]. by rewrite !string_app_cons, IH. Qed.

Lemma dec_digit_cases c d :
  JS.dec_digit c = Some d →
  c ∈ ["0"; "1"; "2"; "3"; "4"; "5"; "6"; "7"; "8"; "9"]%char.
Proof.
  destruct c as [[] [] [] [] [] [] [] []]; simpl; intros; try discriminate;
    set_solver.
Qed.

Lemma dec_digit_pretty_N_char (d : N) :
  (d < 10)%N → JS.dec_digit (pretty_N_char d) = Some (Z.of_N d).
Proof.
  intros Hd.
  assert (d = 0 ∨ d = 1 ∨ d = 2 ∨ d = 3 ∨ d = 4 ∨ d = 5 ∨ d = 6 ∨ d = 7
          ∨ d = 8 ∨ d = 9)%N as Hcases by lia.
  repeat destruct Hcases as [-> | Hcases]; try subst d; reflexivity.
Qed.

Lemma pretty_N_go_digits (x : N) :
  ∃ ds, all_digits ds = true ∧ (0 < x → ds ≠ "")%N ∧
        ∀ s, pretty_N_go x s = ds +:+ s.
Proof.
  induction (N.lt_wf_0 x) as [x _ IH].
  destruct (decide (x = 0)%N) as [-> | Hx].
  - exists "". split; [done | split; [lia |]].
    intros s. by rewrite pretty_N_go_0.
  - assert (0 < x)%N as Hpos by lia.
    destruct (IH (x `div` 10)%N) as (ds & Hds & _ & Heq).
    { by apply N.div_lt. }
    exists (ds +:+ String (pretty_N_char (x `mod` 10)) "").
    split; [| split].
    + clear Heq. induction ds as [| c ds IHds]; simpl in *.
      * rewrite dec_digit_pretty_N_char; [done | by apply N.mod_lt].
      * apply andb_true_iff in Hds as [-> ?]. simpl. auto.
    + intros _. by destruct ds.
    + intros s. rewrite pretty_N_go_step, Heq by done.
      by rewrite string_app_assoc.
Qed.

Lemma parse_pretty_N_go (x : N) :
  (0 < x)%N →
  ∃ k, ∀ acc s,
    JS.parse_digits 10 JS.dec_digit acc (pretty_N_go x s)
    = JS.parse_digits 10 JS.dec_digit (Some (k * default 0 acc + Z.of_N x)) s.
Proof.
  induction (N.lt_wf_0 x) as [x _ IH]. intros Hpos.
  assert (x `mod` 10 < 10)%N as Hmod by (by apply N.mod_lt).
  pose proof (N.div_mod x 10 ltac:(done)) as Hdiv.
  destruct (decide (x `div` 10 = 0)%N) as [Hz | Hnz].
  - exists 10. intros acc s.
    rewrite pretty_N_go_step, Hz, pretty_N_go_0 by done. simpl.
    rewrite dec_digit_pretty_N_char by done. do 2 f_equal. lia.
  - destruct (IH (x `div` 10)%N) as [k Hk]; [by apply N.div_lt | lia |].
    exists (10 * k). intros acc s.
    rewrite pretty_N_go_step, Hk by done. simpl.
    rewrite dec_digit_pretty_N_char by done. do 2 f_equal. lia.
Qed.

Lemma fmap_mul_1 (o : option Z) : Z.mul 1 <$> o = o.
Proof. destruct o as [z |]; simpl; [f_equal; lia | done]. Qed.

Lemma fmap_mul_m1 (o : option Z) : Z.mul (-1) <$> o = Z.opp <$> o.
Proof. destruct o as [z |]; simpl; [f_equal; lia | done]. Qed.

(** [parseInt] on a numeral: no white space to skip, no [0x] prefix. *)
Lemma parseInt_numeral c r d :
  JS.dec_digit c = Some d →
  (∀ c2 r2, r = String c2 r2 → is_Some (JS.dec_digit c2)) →
  JS.parseInt (String c r)
  = Z.mul 1 <$> JS.parse_digits 10 JS.dec_digit None (String c r)
  ∧ JS.parseInt (String "-" (String c r))
    = Z.mul (-1) <$> JS.parse_digits 10 JS.dec_digit None (String c r).
Proof.
  intros Hc Hr.
  pose proof (dec_digit_cases _ _ Hc) as Hcases.
  repeat (apply elem_of_cons in Hcases as [-> | Hcases]);
    [| by split; reflexivity .. | by apply elem_of_nil in Hcases].
  destruct r as [| c2 r]; [by split; reflexivity |].
  destruct (Hr c2 r eq_refl) as [d2 Hc2].
  pose proof (dec_digit_cases _ _ Hc2) as Hcases.
  repeat (apply elem_of_cons in Hcases as [-> | Hcases]);
    [by split; reflexivity .. | by apply elem_of_nil in Hcases].
Qed.

(** [parseInt(`${z}`)] is [z]. *)
Lemma parseInt_pretty (z : Z) : JS.parseInt (pretty z) = Some z.
Proof.
  assert (∀ p : positive,
            ∃ c r d, pretty_N_go (N.pos p) "" = String c r
              ∧ JS.dec_digit c = Some d
              ∧ (∀ c2 r2, r = String c2 r2 → is_Some (JS.dec_digit c2))
              ∧ JS.parse_digits 10 JS.dec_digit None (String c r)
                = Some (Z.pos p)) as Hpos.
  { intros p.
    destruct (pretty_N_go_digits (N.pos p)) as (ds & Hds & Hne & Heq).
    destruct (parse_pretty_N_go (N.pos p)) as [k Hk]; [lia |].
    specialize (Hne ltac:(lia)).
    assert (pretty_N_go (N.pos p) "" = ds) as Hds'.
    { rewrite Heq. clear. induction ds as [| c ds IH]; [done |].
      by rewrite string_app_cons, IH. }
    specialize (Hk None ""). rewrite Hds' in Hk |- *.
    destruct ds as [| c r]; [done |].
    simpl in Hds. apply andb_true_iff in Hds as [Hc Hr].
    apply bool_decide_eq_true in Hc as [d Hc].
    exists c, r, d. repeat split; [done | | rewrite Hk; simpl; f_equal; lia].
    intros c2 r2 ->. simpl in Hr. apply andb_true_iff in Hr as [Hc2 _].
    by apply bool_decide_eq_true in Hc2. }
  destruct z as [| p | p]; [done | |].
  - destruct (Hpos p) as (c & r & d & Heq & Hc & Hr & Hparse).
    change (pretty (Z.pos p)) with (pretty_N_go (N.pos p) "").
    rewrite Heq. by rewrite (proj1 (parseInt_numeral c r d Hc Hr)), Hparse.
  - destruct (Hpos p) as (c & r & d & Heq & Hc & Hr & Hparse).
    change (pretty (Z.neg p)) with ("-" +:+ pretty_N_go (N.pos p) "").
    rewrite Heq, string_app_cons. change ("" +:+ ?s) with s.
    by rewrite (proj2 (parseInt_numeral c r d Hc Hr)), Hparse.
Qed.

(** A numeral has no colon in it. *)
Lemma pretty_free_of_colon (z : Z) : free_of ":" (pretty z) = true.
Proof.
  assert (∀ ds, all_digits ds = true → free_of ":" ds = true) as Hdigits.
  { induction ds as [| c ds IH]; [done |]. simpl.
    intros [Hc Hds]%andb_true_iff. rewrite (IH Hds), andb_true_r.
    apply bool_decide_eq_true in Hc as [d Hc].
    pose proof (dec_digit_cases _ _ Hc) as Hcases.
    repeat (apply elem_of_cons in Hcases as [-> | Hcases]);
      [done .. | by apply elem_of_nil in Hcases]. }
  assert (∀ p : positive, free_of ":" (pretty_N_go (N.pos p) "") = true) as Hpos.
  { intros p.
    destruct (pretty_N_go_digits (N.pos p)) as (ds & Hds & _ & Heq).
    rewrite Heq. replace (ds +:+ "") with ds; [by apply Hdigits |].
    clear. induction ds as [| c ds IH]; [done |]. by rewrite string_app_cons, <- IH. }
  destruct z as [| p | p]; [done | apply Hpos |].
  change (pretty (Z.neg p)) with ("-" +:+ pretty_N_go (N.pos p) "").
  rewrite string_app_cons. simpl. apply Hpos.
Qed.

Lemma split_app (sep : ascii) (s rest : string) :
  free_of sep s = true →
  JS.split sep (s +:+ String sep rest) = s :: JS.split sep rest.
Proof.
  induction s as [| c s IH]; simpl.
  - intros _. change ("" +:+ ?x) with x. simpl. by rewrite Ascii.eqb_refl.
  - intros [Hc Hs]%andb_true_iff. rewrite ?string_app_cons. simpl.
    apply negb_true_iff in Hc. rewrite Hc. by rewrite (IH Hs).
Qed.
End Numerals.

(** ** The listing of a store *)

Section Listing.
Implicit Types (kv : KV) (key prefix : string).

Lemma elem_of_Kv_list prefix kv key :
  key ∈ Kv.list prefix kv ↔ JS.startsWith key prefix = true ∧ is_Some (kv !! key).
Proof.
  unfold Kv.list. rewrite merge_sort_Permutation, list_elem_of_filter.
  by rewrite elem_of_elements, elem_of_dom.
Qed.

Lemma NoDup_Kv_list prefix kv : NoDup (Kv.list prefix kv).
Proof.
  unfold Kv.list. rewrite merge_sort_Permutation.
  apply NoDup_filter, NoDup_elements.
Qed.

Lemma Kv_list_Permutation prefix kv :
  Kv.list prefix kv
  ≡ₚ filter (λ key, JS.startsWith key prefix = true) (elements (dom kv)).
Proof. apply merge_sort_Permutation. Qed.
End Listing.

(** ** The stable sort *)

Section SortFacts.
Context {A : Type} (cmp : A → A → option Z).

Lemma sort_insert_Permutation x l : JS.sort_insert cmp x l ≡ₚ x :: l.
Proof.
  induction l as [| y l IH]; simpl; [done |].
  case_match; [done |]. rewrite IH. apply perm_swap.
Qed.

Lemma sort_Permutation l : JS.sort cmp l ≡ₚ l.
Proof.
  induction l as [| x l IH]; simpl; [done |].
  by rewrite sort_insert_Permutation, IH.
Qed.

(** The order the comparator decides on, for the elements of interest:
    [le x y] when [x] may stand before [y]. *)
Context (P : A → Prop) (le : A → A → Prop).
Context (le_trans : ∀ x y z, P x → P y → P z → le x y → le y z → le x z).
Context (le_cmp : ∀ x y, P x → P y → (JS.sort_verdict (cmp x y) ≤ 0 ↔ le x y)).
Context (le_total : ∀ x y, P x → P y → le x y ∨ le y x).

Lemma sort_insert_head_least x l :
  P x → Forall P l → head_least le l → head_least le (JS.sort_insert cmp x l).
Proof.
  intros Hx Hl Hleast. destruct l as [| y l]; simpl.
  { constructor; [| done]. destruct (le_total x x Hx Hx); done. }
  apply Forall_cons in Hl as [Hy Hl]. simpl in Hleast.
  destruct (Z.leb_spec (JS.sort_verdict (cmp x y)) 0) as [Hle | Hgt].
  - apply le_cmp in Hle; [| done ..]. simpl.
    constructor; [destruct (le_total x x Hx Hx); done |].
    apply Forall_forall. intros z Hz.
    assert (P z) as HPz.
    { apply elem_of_cons in Hz as [-> | Hz]; [done |].
      by eapply Forall_forall in Hl. }
    eapply le_trans; [done | apply Hy | done | done |].
    by eapply Forall_forall in Hleast.
  - assert (le y x) as Hyx.
    { destruct (le_total x y Hx Hy) as [Hxy | ?]; [| done].
      apply le_cmp in Hxy; [lia | done ..]. }
    simpl. apply Forall_forall. intros z Hz.
    apply elem_of_cons in Hz as [-> | Hz].
    { by apply Forall_cons in Hleast as [? _]. }
    apply (elem_of_Permutation_proper _ _ _ (sort_insert_Permutation x l)) in Hz.
    apply elem_of_cons in Hz as [-> | Hz]; [done |].
    apply Forall_cons in Hleast as [_ Hleast].
    by eapply Forall_forall in Hleast.
Qed.

(** The first element of the sorted array may stand before all others. *)
Lemma sort_head_least l : Forall P l → head_least le (JS.sort cmp l).
Proof.
  induction l as [| x l IH]; [done |].
  intros [Hx Hl]%Forall_cons. simpl.
  apply sort_insert_head_least; [done | | by apply IH].
  by rewrite sort_Permutation.
Qed.
End SortFacts.

(** ** Queue keys *)

Section QueueKeys.
Import JobQueue QueueSpec.

Lemma split_queueKey p t id :
  JS.split ":" (queueKey p t id)
  = "queue" :: pretty p :: pretty t :: JS.split ":" id.
Proof.
  change (queueKey p t id)
    with ("queue" +:+ String ":" (pretty p +:+ String ":" (pretty t +:+ String ":" id))).
  rewrite split_app by done.
  by rewrite !split_app by apply pretty_free_of_colon.
Qed.

Lemma key_priority_queueKey p t id : key_priority (queueKey p t id) = Some p.
Proof. unfold key_priority. rewrite split_queueKey. apply parseInt_pretty. Qed.

Lemma key_timestamp_queueKey p t id : key_timestamp (queueKey p t id) = Some t.
Proof. unfold key_timestamp. rewrite split_queueKey. apply parseInt_pretty. Qed.

Lemma queueKey_startsWith p t id : JS.startsWith (queueKey p t id) "queue:" = true.
Proof. reflexivity. Qed.

Lemma compareKeys_queueKey p1 t1 id1 p2 t2 id2 :
  compareKeys (queueKey p1 t1 id1) (queueKey p2 t2 id2)
  = Some (if decide (p2 - p1 = 0) then t1 - t2 else p2 - p1).
Proof.
  unfold compareKeys.
  fold (key_priority (queueKey p1 t1 id1)) (key_priority (queueKey p2 t2 id2)).
  fold (key_timestamp (queueKey p1 t1 id1)) (key_timestamp (queueKey p2 t2 id2)).
  rewrite !key_priority_queueKey, !key_timestamp_queueKey. simpl.
  case_decide as Hd; [by rewrite Hd |]. by destruct (p2 - p1).
Qed.

Lemma queueKey_inj p1 t1 id1 p2 t2 id2 :
  queueKey p1 t1 id1 = queueKey p2 t2 id2 → p1 = p2 ∧ t1 = t2.
Proof.
  intros Heq. split.
  - pose proof (key_priority_queueKey p1 t1 id1) as H1.
    rewrite Heq, key_priority_queueKey in H1. congruence.
  - pose proof (key_timestamp_queueKey p1 t1 id1) as H1.
    rewrite Heq, key_timestamp_queueKey in H1. congruence.
Qed.

Lemma before_trans a b c : before a b → before b c → before a c.
Proof.
  intros (p1 & t1 & id1 & p2 & t2 & id2 & -> & -> & H12)
         (p2' & t2' & id2' & p3 & t3 & id3 & Heq & -> & H23).
  apply queueKey_inj in Heq as [-> ->].
  exists p1, t1, id1, p3, t3, id3. repeat split; [done .. | lia].
Qed.

Lemma before_compareKeys a b :
  written_by_enqueue a → written_by_enqueue b →
  JS.sort_verdict (compareKeys a b) ≤ 0 ↔ before a b.
Proof.
  intros (p1 & t1 & id1 & ->) (p2 & t2 & id2 & ->).
  rewrite compareKeys_queueKey. simpl. split.
  - intros Hle. exists p1, t1, id1, p2, t2, id2.
    repeat split; [done .. |]. case_decide; lia.
  - intros (p1' & t1' & id1' & p2' & t2' & id2' & Heq1 & Heq2 & Hlt).
    apply queueKey_inj in Heq1 as [-> ->].
    apply queueKey_inj in Heq2 as [-> ->]. case_decide; lia.
Qed.

Lemma before_total a b :
  written_by_enqueue a → written_by_enqueue b → before a b ∨ before b a.
Proof.
  intros (p1 & t1 & id1 & ->) (p2 & t2 & id2 & ->).
  destruct (decide (p2 < p1 ∨ (p1 = p2 ∧ t1 ≤ t2))) as [H | H].
  - left. by exists p1, t1, id1, p2, t2, id2.
  - right. exists p2, t2, id2, p1, t1, id1. repeat split; [done .. | lia].
Qed.

(** The head of the sorted listing is served no later than any listed
    entry. *)
Lemma sorted_head_before (listing : list string) firstKey rest key :
  Forall written_by_enqueue listing →
  JS.sort compareKeys listing = firstKey :: rest →
  key ∈ listing → before firstKey key.
Proof.
  intros Hwf Hsort Hkey.
  pose proof (sort_head_least compareKeys written_by_enqueue before
                (λ x y z _ _ _, before_trans x y z)
                before_compareKeys before_total listing Hwf) as Hleast.
  rewrite Hsort in Hleast. simpl in Hleast.
  eapply Forall_forall in Hleast; [done |].
  rewrite <- Hsort. by rewrite sort_Permutation.
Qed.
End QueueKeys.

(** ** The job queue *)

Section QueueFacts.
Import JobQueue QueueSpec.
Implicit Types (kv : KV) (key jobId : string).

Lemma startsWith_cons key a pre :
  JS.startsWith key (String a pre) = true →
  ∃ key', key = String a key' ∧ JS.startsWith key' pre = true.
Proof.
  destruct key as [| c key]; [done |]. cbn [JS.startsWith].
  intros [->%Ascii.eqb_eq ?]%andb_true_iff. by eexists.
Qed.

(** Keys of the three families are kept apart by their first character. *)
Lemma startsWith_queue_status key :
  JS.startsWith key "queue:" = true → JS.startsWith key "status:" = true → False.
Proof. intros (? & -> & _)%startsWith_cons (? & [=] & _)%startsWith_cons. Qed.

Lemma startsWith_queue_job key :
  JS.startsWith key "queue:" = true → JS.startsWith key "job:" = true → False.
Proof. intros (? & -> & _)%startsWith_cons (? & [=] & _)%startsWith_cons. Qed.

Lemma startsWith_status_job key :
  JS.startsWith key "status:" = true → JS.startsWith key "job:" = true → False.
Proof. intros (? & -> & _)%startsWith_cons (? & [=] & _)%startsWith_cons. Qed.

Lemma statusKey_startsWith jobId : JS.startsWith (statusKey jobId) "status:" = true.
Proof. reflexivity. Qed.

Lemma jobKey_startsWith jobId : JS.startsWith (jobKey jobId) "job:" = true.
Proof. reflexivity. Qed.

Lemma statusKey_inj jobId jobId' : statusKey jobId = statusKey jobId' → jobId = jobId'.
Proof. unfold statusKey. apply String.app_inj. Qed.

Lemma jobKey_inj jobId jobId' : jobKey jobId = jobKey jobId' → jobId = jobId'.
Proof. unfold jobKey. apply String.app_inj. Qed.

Lemma statusKey_ne_jobKey jobId jobId' : statusKey jobId ≠ jobKey jobId'.
Proof.
  intros Heq. eapply startsWith_status_job; [apply statusKey_startsWith |].
  rewrite Heq. apply jobKey_startsWith.
Qed.

Lemma queue_ne_statusKey key jobId :
  JS.startsWith key "queue:" = true → key ≠ statusKey jobId.
Proof.
  intros Hq ->. eapply startsWith_queue_status; [done | apply statusKey_startsWith].
Qed.

Lemma queue_ne_jobKey key jobId :
  JS.startsWith key "queue:" = true → key ≠ jobKey jobId.
Proof.
  intros Hq ->. eapply startsWith_queue_job; [done | apply jobKey_startsWith].
Qed.

Lemma lookup_updateJobStatus jobId status kv :
  updateJobStatus jobId status kv !! statusKey jobId = Some (VStatus status).
Proof. apply lookup_insert_eq. Qed.

Lemma lookup_updateJobStatus_ne jobId status kv key :
  key ≠ statusKey jobId → updateJobStatus jobId status kv !! key = kv !! key.
Proof. intros. unfold updateJobStatus, Kv.put. by rewrite lookup_insert_ne. Qed.

Lemma getJobStatus_updateJobStatus jobId status kv :
  getJobStatus jobId (updateJobStatus jobId status kv) = Some status.
Proof. unfold getJobStatus, Kv.get. by rewrite lookup_updateJobStatus. Qed.

Lemma getJobStatus_updateJobStatus_ne jobId jobId' status kv :
  jobId ≠ jobId' →
  getJobStatus jobId (updateJobStatus jobId' status kv) = getJobStatus jobId kv.
Proof.
  intros Hne. unfold getJobStatus, Kv.get.
  rewrite lookup_updateJobStatus_ne; [done |]. by intros ?%statusKey_inj.
Qed.

Lemma getJobStatus_Some jobId kv status :
  getJobStatus jobId kv = Some status ↔ kv !! statusKey jobId = Some (VStatus status).
Proof.
  unfold getJobStatus, Kv.get, Kv.as_status. split; [| by intros ->].
  destruct (kv !! statusKey jobId) as [[] |]; naive_solver.
Qed.

Lemma dequeue_listed_Some now listing kv jobData kv' :
  dequeue_listed now listing kv = (Some jobData, kv') →
  ∃ firstKey rest,
    JS.sort compareKeys listing = firstKey :: rest
    ∧ kv !! firstKey = Some (VJob jobData)
    ∧ kv' = after_dequeue now firstKey jobData kv.
Proof.
  unfold dequeue_listed, after_dequeue, Kv.delete, Kv.get.
  case_decide; [done |].
  destruct (JS.sort compareKeys listing) as [| firstKey rest]; [done |].
  destruct (kv !! firstKey) as [[job | |] |] eqn:Hget; simpl; try done.
  intros Heq. exists firstKey, rest.
  destruct (getJobStatus (JobConfig.id job) (base.delete firstKey kv)) eqn:Hst;
    simplify_eq; by rewrite Hst.
Qed.

Lemma dequeue_listed_None now listing kv kv' :
  dequeue_listed now listing kv = (None, kv') → kv' = kv.
Proof.
  unfold dequeue_listed. case_decide; [by intros [= <-] |].
  destruct (JS.sort compareKeys listing) as [| firstKey rest]; [by intros [= <-] |].
  destruct (Kv.as_job (Kv.get firstKey kv)); [| by intros [= <-]].
  by destruct (getJobStatus _ _).
Qed.

Lemma dequeue_Some config now kv jobData kv' :
  dequeue config now kv = (Some jobData, kv') →
  getRunningJobCount kv < maxConcurrent config
  ∧ ∃ firstKey rest,
      JS.sort compareKeys (Kv.list "queue:" kv) = firstKey :: rest
      ∧ kv !! firstKey = Some (VJob jobData)
      ∧ kv' = after_dequeue now firstKey jobData kv.
Proof.
  unfold dequeue, dequeue_with.
  destruct (Z.leb_spec (maxConcurrent config) (getRunningJobCount kv)); [done |].
  intros ?%dequeue_listed_Some. done.
Qed.

Lemma after_dequeue_lookup_queue now firstKey jobData kv key :
  JS.startsWith key "queue:" = true →
  after_dequeue now firstKey jobData kv !! key = base.delete firstKey kv !! key.
Proof.
  intros Hq. unfold after_dequeue.
  destruct (getJobStatus _ _); [| done].
  by rewrite lookup_updateJobStatus_ne by by apply queue_ne_statusKey.
Qed.

Lemma queue_wf_empty : queue_wf ∅.
Proof. intros key v _. by rewrite lookup_empty. Qed.

Lemma queue_wf_enqueue config now job kv :
  queue_wf kv → queue_wf (enqueue config now job kv).
Proof.
  intros Hwf key v Hq. unfold enqueue.
  rewrite lookup_updateJobStatus_ne by by apply queue_ne_statusKey.
  unfold Kv.put. rewrite lookup_insert. case_decide as Hkey.
  - intros [= <-]. subst key. split; [| by eexists]. by eexists _, _, _.
  - by apply Hwf.
Qed.

Lemma queue_wf_listing kv :
  queue_wf kv → Forall written_by_enqueue (Kv.list "queue:" kv).
Proof.
  intros Hwf. apply Forall_forall. intros key [Hq [v Hv]]%elem_of_Kv_list.
  by destruct (Hwf key v Hq Hv).
Qed.
End QueueFacts.

Section Ordering.
Import JobQueue QueueSpec Fixtures.
Implicit Types (kv : KV) (key jobId : string).

Lemma dequeue_progress config now kv :
  queue_wf kv →
  getRunningJobCount kv < maxConcurrent config →
  (∃ key, key ∈ Kv.list "queue:" kv) →
  ∃ job kv', dequeue config now kv = (Some job, kv').
Proof.
  intros Hwf Hrun [key Hkey]. unfold dequeue, dequeue_with.
  destruct (Z.leb_spec (maxConcurrent config) (getRunningJobCount kv)); [lia |].
  unfold dequeue_listed. case_decide as Hlen.
  { apply length_zero_iff_nil in Hlen. rewrite Hlen in Hkey.
    by apply elem_of_nil in Hkey. }
  destruct (JS.sort compareKeys (Kv.list "queue:" kv)) as [| firstKey rest] eqn:Hsort.
  { apply (f_equal length) in Hsort.
    rewrite (Permutation_length (sort_Permutation _ _)) in Hsort. done. }
  assert (firstKey ∈ Kv.list "queue:" kv) as Hfirst.
  { rewrite <- (sort_Permutation compareKeys), Hsort. apply list_elem_of_here. }
  apply elem_of_Kv_list in Hfirst as [Hq [v Hv]].
  destruct (Hwf _ _ Hq Hv) as [_ [job ->]].
  unfold Kv.get. rewrite Hv. simpl.
  destruct (getJobStatus _ _); eauto.
Qed.

Lemma dequeue_ordering config now kv job kv' :
  queue_wf kv →
  dequeue config now kv = (Some job, kv') →
  ∃ p t id,
    kv !! queueKey p t id = Some (VJob job)
    ∧ kv' !! queueKey p t id = None
    ∧ (∀ key, JS.startsWith key "queue:" = true → key ≠ queueKey p t id →
         kv' !! key = kv !! key)
    ∧ ∀ p' t' id', is_Some (kv !! queueKey p' t' id') →
        p' < p ∨ (p' = p ∧ t ≤ t').
Proof.
  intros Hwf (_ & firstKey & rest & Hsort & Hget & ->)%dequeue_Some.
  assert (firstKey ∈ Kv.list "queue:" kv) as Hfirst.
  { rewrite <- (sort_Permutation compareKeys), Hsort. apply list_elem_of_here. }
  apply elem_of_Kv_list in Hfirst as [Hq _].
  destruct (Hwf _ _ Hq Hget) as [(p & t & id & ->) _].
  exists p, t, id. split; [done |]. split; [| split].
  - rewrite after_dequeue_lookup_queue by done. apply lookup_delete_eq.
  - intros key Hkey Hne. rewrite after_dequeue_lookup_queue by done.
    by apply lookup_delete_ne.
  - intros p' t' id' Hsome.
    assert (queueKey p' t' id' ∈ Kv.list "queue:" kv) as Hin.
    { apply elem_of_Kv_list. split; [apply queueKey_startsWith | done]. }
    pose proof (sorted_head_before _ _ _ _ (queue_wf_listing _ Hwf) Hsort Hin)
      as (p1 & t1 & id1 & p2 & t2 & id2 & Heq1 & Heq2 & Hord).
    apply queueKey_inj in Heq1 as [-> ->].
    apply queueKey_inj in Heq2 as [-> ->]. lia.
Qed.

(** C4. While entries written by [enqueue] are pending, [dequeue] takes
    one of highest priority and, among those, of earliest enqueue
    timestamp, whatever the order of submission; it does return a job when
    the concurrency ceiling allows and an entry is pending; and after
    A(5, t=0), B(8, t=1), C(5, t=2) three calls return B, A, C. *)
Theorem dequeue_priority_then_fifo config now kv (Hwf : queue_wf kv) :
  (∀ job kv', dequeue config now kv = (Some job, kv') →
     ∃ p t id,
       kv !! queueKey p t id = Some (VJob job)
       ∧ kv' !! queueKey p t id = None
       ∧ (∀ key, JS.startsWith key "queue:" = true → key ≠ queueKey p t id →
            kv' !! key = kv !! key)
       ∧ ∀ p' t' id', is_Some (kv !! queueKey p' t' id') →
           p' < p ∨ (p' = p ∧ t ≤ t'))
  ∧ (getRunningJobCount kv < maxConcurrent config →
     (∃ key, key ∈ Kv.list "queue:" kv) →
     ∃ job kv', dequeue config now kv = (Some job, kv'))
  ∧ dequeue_sequence default_config 4 3 scenario_kv
    = [Some "B"; Some "A"; Some "C"; None].
Proof.
  split; [| split].
  - intros job kv'. by apply dequeue_ordering.
  - by apply dequeue_progress.
  - by vm_compute.
Qed.

Lemma dequeue_priority_then_fifo_witness :
  queue_wf scenario_kv
  ∧ ((∀ job kv', dequeue default_config 3 scenario_kv = (Some job, kv') →
        ∃ p t id,
          scenario_kv !! queueKey p t id = Some (VJob job)
          ∧ kv' !! queueKey p t id = None
          ∧ (∀ key, JS.startsWith key "queue:" = true → key ≠ queueKey p t id →
               kv' !! key = scenario_kv !! key)
          ∧ ∀ p' t' id', is_Some (scenario_kv !! queueKey p' t' id') →
              p' < p ∨ (p' = p ∧ t ≤ t'))
     ∧ (getRunningJobCount scenario_kv < maxConcurrent default_config →
        (∃ key, key ∈ Kv.list "queue:" scenario_kv) →
        ∃ job kv', dequeue default_config 3 scenario_kv = (Some job, kv'))
     ∧ dequeue_sequence default_config 4 3 scenario_kv
       = [Some "B"; Some "A"; Some "C"; None]).
Proof.
  assert (queue_wf scenario_kv) as Hwf.
  { unfold scenario_kv. do 3 apply queue_wf_enqueue. apply queue_wf_empty. }
  split; [exact Hwf |].
  exact (dequeue_priority_then_fifo default_config 3 scenario_kv Hwf).
Defined.
End Ordering.

(** ** Admission control *)

Section Admission.
Import JobQueue QueueSpec Fixtures.
Implicit Types (kv : KV) (key jobId : string).

Lemma getRunningJobCount_length kv :
  getRunningJobCount kv = Z.of_nat (length (running_keys kv)).
Proof.
  unfold getRunningJobCount, running_keys.
  assert (∀ l c,
    fold_left
      (λ count key,
         match Kv.as_status (Kv.get key kv) with
         | Some status =>
             if decide (JobStatus.status status = JobStatus.running)
             then count + 1 else count
         | None => count
         end) l c
    = c + Z.of_nat (length (filter (λ key, is_running kv key = true) l))) as Hfold.
  { induction l as [| key l IH]; intros c; simpl; [lia |].
    rewrite IH, filter_cons.
    assert (is_running kv key
            = match Kv.as_status (Kv.get key kv) with
              | Some status =>
                  bool_decide (JobStatus.status status = JobStatus.running)
              | None => false
              end) as Hdef by done.
    destruct (Kv.as_status (Kv.get key kv)) as [status |].
    - destruct (decide (JobStatus.status status = JobStatus.running)).
      + rewrite bool_decide_eq_true_2 in Hdef by done.
        rewrite decide_True by done. simpl. lia.
      + rewrite bool_decide_eq_false_2 in Hdef by done.
        rewrite decide_False by (by rewrite Hdef). done.
    - by rewrite decide_False by (by rewrite Hdef). }
  by rewrite Hfold.
Qed.

Lemma elem_of_running_keys kv key :
  key ∈ running_keys kv ↔
  JS.startsWith key "status:" = true
  ∧ ∃ status, kv !! key = Some (VStatus status)
              ∧ JobStatus.status status = JobStatus.running.
Proof.
  unfold running_keys. rewrite list_elem_of_filter, elem_of_Kv_list.
  unfold is_running, Kv.get, Kv.as_status. split.
  - intros [Hrun [Hpre _]]. split; [done |].
    destruct (kv !! key) as [[| status |] |]; try done.
    exists status. split; [done |]. by apply bool_decide_eq_true in Hrun.
  - intros [Hpre (status & -> & Hrun)].
    by rewrite bool_decide_eq_true_2.
Qed.

Lemma NoDup_running_keys kv : NoDup (running_keys kv).
Proof. apply NoDup_filter, NoDup_Kv_list. Qed.

(** A store whose running records are among those of [kv], but for the
    record under [key0], has at most one more of them. *)
Lemma getRunningJobCount_le_succ kv kv' key0 :
  (∀ key, key ∈ running_keys kv' → key = key0 ∨ key ∈ running_keys kv) →
  getRunningJobCount kv' ≤ getRunningJobCount kv + 1.
Proof.
  intros Hsub. rewrite !getRunningJobCount_length.
  assert (running_keys kv' ⊆+ key0 :: running_keys kv) as Hle%submseteq_length.
  { apply NoDup_submseteq; [apply NoDup_running_keys |].
    intros key [-> | ?]%Hsub; set_solver. }
  simpl in Hle. lia.
Qed.

Lemma getRunningJobCount_le kv kv' :
  (∀ key, key ∈ running_keys kv' → key ∈ running_keys kv) →
  getRunningJobCount kv' ≤ getRunningJobCount kv.
Proof.
  intros Hsub. rewrite !getRunningJobCount_length.
  assert (running_keys kv' ⊆+ running_keys kv) as Hle%submseteq_length.
  { apply NoDup_submseteq; [apply NoDup_running_keys | done]. }
  lia.
Qed.

Lemma running_keys_after_dequeue now firstKey jobData kv key :
  key ∈ running_keys (after_dequeue now firstKey jobData kv) →
  key = statusKey (JobConfig.id jobData) ∨ key ∈ running_keys kv.
Proof.
  rewrite !elem_of_running_keys. intros [Hpre (status & Hget & Hrun)].
  destruct (decide (key = statusKey (JobConfig.id jobData))) as [| Hne]; [by left |].
  right. split; [done |]. exists status. split; [| done].
  unfold after_dequeue in Hget.
  destruct (getJobStatus _ _) in Hget.
  - rewrite lookup_updateJobStatus_ne in Hget by done.
    by apply lookup_delete_Some in Hget as [_ ?].
  - by apply lookup_delete_Some in Hget as [_ ?].
Qed.

Lemma dequeue_at_capacity config now kv :
  maxConcurrent config ≤ getRunningJobCount kv →
  dequeue config now kv = (None, kv).
Proof.
  intros Hfull. unfold dequeue, dequeue_with.
  by destruct (Z.leb_spec (maxConcurrent config) (getRunningJobCount kv)); [| lia].
Qed.

Lemma dequeue_bound config now kv :
  getRunningJobCount kv ≤ maxConcurrent config →
  getRunningJobCount (dequeue config now kv).2 ≤ maxConcurrent config.
Proof.
  intros Hbound.
  destruct (dequeue config now kv) as [[job |] kv'] eqn:Hdeq; simpl.
  - apply dequeue_Some in Hdeq as (Hroom & firstKey & rest & _ & _ & ->).
    pose proof (getRunningJobCount_le_succ kv _ _
                  (running_keys_after_dequeue now firstKey job kv)).
    lia.
  - unfold dequeue, dequeue_with in Hdeq.
    destruct (_ <=? _); [by simplify_eq |].
    by apply dequeue_listed_None in Hdeq as ->.
Qed.

Lemma dequeue_all_bound config times kv :
  getRunningJobCount kv ≤ maxConcurrent config →
  getRunningJobCount (dequeue_all config times kv) ≤ maxConcurrent config.
Proof.
  revert kv. induction times as [| now times IH]; intros kv Hbound; [done |].
  simpl. by apply IH, dequeue_bound.
Qed.

(** C10. When the head of the sorted listing has no value in the store,
    [dequeue] returns no job and leaves the store as it is: the head is
    not deleted and no other listed entry is tried, whatever the rest of
    the listing holds. *)
Theorem dequeue_gives_up_on_missing_head config now listing kv firstKey rest
    (Hroom : getRunningJobCount kv < maxConcurrent config)
    (Hsort : JS.sort compareKeys listing = firstKey :: rest)
    (Hmissing : Kv.get firstKey kv = None) :
  dequeue_with config now listing kv = (None, kv).
Proof.
  unfold dequeue_with, dequeue_listed.
  destruct (Z.leb_spec (maxConcurrent config) (getRunningJobCount kv)); [lia |].
  case_decide; [done |]. by rewrite Hsort, Hmissing.
Qed.

Lemma dequeue_gives_up_on_missing_head_witness :
  getRunningJobCount stale_kv < maxConcurrent default_config
  ∧ JS.sort compareKeys stale_listing = queueKey 8 1 "B" :: [queueKey 5 0 "A"; queueKey 5 2 "C"]
  ∧ Kv.get (queueKey 8 1 "B") stale_kv = None
  ∧ Kv.get (queueKey 5 0 "A") stale_kv = Some (VJob (a_job "A" 5))
  ∧ dequeue_with default_config 3 stale_listing stale_kv = (None, stale_kv).
Proof.
  assert (getRunningJobCount stale_kv < maxConcurrent default_config) as Hroom.
  { by vm_compute. }
  assert (JS.sort compareKeys stale_listing
          = queueKey 8 1 "B" :: [queueKey 5 0 "A"; queueKey 5 2 "C"]) as Hsort.
  { by vm_compute. }
  assert (Kv.get (queueKey 8 1 "B") stale_kv = None) as Hmissing.
  { by vm_compute. }
  split; [exact Hroom |]. split; [exact Hsort |]. split; [exact Hmissing |].
  split; [by vm_compute |].
  exact (dequeue_gives_up_on_missing_head default_config 3 stale_listing stale_kv
           _ _ Hroom Hsort Hmissing).
Defined.
End Admission.

(** ** Retention pruning *)

Section Pruning.
Import JobQueue QueueSpec Fixtures.
Implicit Types (kv : KV) (key jobId : string).

Lemma startsWith_app key pre :
  JS.startsWith key pre = true → ∃ rest, key = pre +:+ rest.
Proof.
  revert key. induction pre as [| a pre IH]; intros key.
  - intros _. by exists key.
  - intros (key' & -> & [rest ->]%IH)%startsWith_cons. by exists rest.
Qed.

Lemma status_key_cases key :
  JS.startsWith key "status:" = true → ∃ jobId, key = statusKey jobId.
Proof. apply startsWith_app. Qed.

Lemma listJobs_omap kv :
  listJobs None kv
  = omap (λ key, Kv.as_status (Kv.get key kv)) (Kv.list "status:" kv).
Proof.
  unfold listJobs.
  assert (∀ l acc,
    fold_left
      (λ jobs key,
         match Kv.as_status (Kv.get key kv) with
         | Some status => (jobs ++ [status])%list
         | None => jobs
         end) l acc
    = (acc ++ omap (λ key, Kv.as_status (Kv.get key kv)) l)%list) as Hfold.
  { induction l as [| key l IH]; intros acc; simpl; [by rewrite app_nil_r |].
    rewrite IH. destruct (Kv.as_status (Kv.get key kv)); [| done].
    by rewrite <- app_assoc. }
  by rewrite Hfold.
Qed.

Lemma elem_of_listJobs kv status :
  status ∈ listJobs None kv ↔
  ∃ jobId, kv !! statusKey jobId = Some (VStatus status).
Proof.
  rewrite listJobs_omap, list_elem_of_omap. split.
  - intros (key & [Hpre _]%elem_of_Kv_list & Hget).
    destruct (status_key_cases _ Hpre) as [jobId ->]. exists jobId.
    by apply getJobStatus_Some.
  - intros [jobId Hget]. exists (statusKey jobId). split.
    + apply elem_of_Kv_list. by rewrite Hget.
    + by apply getJobStatus_Some.
Qed.

Lemma pruneCompletedJobs_fold now maxAge kv :
  pruneCompletedJobs now maxAge kv
  = (Z.of_nat (length (filter (λ s, prunable (now - maxAge) s = true)
                              (listJobs None kv))),
     delete_records (filter (λ s, prunable (now - maxAge) s = true)
                            (listJobs None kv)) kv).
Proof.
  unfold pruneCompletedJobs.
  assert (∀ statuses d kv0,
    fold_left
      (λ '(deleted, kv) status,
         if prunable (now - maxAge) status then
           (deleted + 1,
            Kv.delete (jobKey (JobStatus.id status))
              (Kv.delete (statusKey (JobStatus.id status)) kv))
         else (deleted, kv))
      statuses (d, kv0)
    = (d + Z.of_nat (length (filter (λ s, prunable (now - maxAge) s = true) statuses)),
       delete_records (filter (λ s, prunable (now - maxAge) s = true) statuses) kv0))
    as Hfold.
  { induction statuses as [| status statuses IH]; intros d kv0; simpl.
    { f_equal. lia. }
    rewrite filter_cons. destruct (prunable (now - maxAge) status) eqn:Hp.
    - rewrite decide_True by done. rewrite IH. simpl. f_equal. lia.
    - rewrite decide_False by done. apply IH. }
  by rewrite Hfold.
Qed.

Lemma lookup_delete_records_None statuses kv key status :
  status ∈ statuses →
  key = statusKey (JobStatus.id status) ∨ key = jobKey (JobStatus.id status) →
  delete_records statuses kv !! key = None.
Proof.
  unfold delete_records. revert kv.
  assert (∀ l kv0, kv0 !! key = None →
    fold_left
      (λ kv status,
         Kv.delete (jobKey (JobStatus.id status))
           (Kv.delete (statusKey (JobStatus.id status)) kv)) l kv0 !! key = None)
    as Hgone.
  { induction l as [| st l IH]; intros kv0 Hnone; simpl; [done |].
    apply IH. unfold Kv.delete. rewrite !lookup_delete. by repeat case_decide. }
  induction statuses as [| st statuses IH]; intros kv Hin Hkey.
  { by apply elem_of_nil in Hin. }
  simpl. apply elem_of_cons in Hin as [-> | Hin]; [| by apply IH].
  apply Hgone. unfold Kv.delete. rewrite !lookup_delete.
  destruct Hkey as [-> | ->]; repeat case_decide; done.
Qed.

Lemma lookup_delete_records_ne statuses kv key :
  (∀ status, status ∈ statuses →
     key ≠ statusKey (JobStatus.id status) ∧ key ≠ jobKey (JobStatus.id status)) →
  delete_records statuses kv !! key = kv !! key.
Proof.
  unfold delete_records. revert kv.
  induction statuses as [| st statuses IH]; intros kv Hne; simpl; [done |].
  rewrite IH by (intros; apply Hne; by apply list_elem_of_further).
  destruct (Hne st (list_elem_of_here _ _)).
  unfold Kv.delete. by rewrite !lookup_delete_ne.
Qed.

Lemma prunable_overdue now maxAge status :
  JobStatus.finishedAt status ≠ Some 0 →
  prunable (now - maxAge) status = overdue now maxAge status.
Proof.
  intros Hstamp. unfold prunable, overdue, JS.truthy.
  destruct (JobStatus.finishedAt status) as [t |]; simpl; [| by rewrite andb_false_r].
  destruct (Z.eqb_spec t 0) as [-> | _]; [done |]. simpl.
  apply andb_comm.
Qed.

Lemma length_filter_omap {A B} (f : A → option B) (p : B → bool) (l : list A) :
  length (filter (λ y, p y = true) (omap f l))
  = length (filter (λ x, from_option p false (f x) = true) l).
Proof.
  induction l as [| x l IH]; [done |].
  rewrite (filter_cons _ x). cbn [omap list_omap].
  destruct (f x) as [y |]; cbn [from_option].
  - rewrite filter_cons. destruct (p y); repeat case_decide; try done.
    simpl. by rewrite IH.
  - by case_decide.
Qed.

Lemma delete_records_other statuses kv jobId :
  (∀ status, status ∈ statuses → JobStatus.id status ≠ jobId) →
  delete_records statuses kv !! statusKey jobId = kv !! statusKey jobId
  ∧ delete_records statuses kv !! jobKey jobId = kv !! jobKey jobId.
Proof.
  intros Hother.
  split; apply lookup_delete_records_ne; intros status Hin%Hother; split.
  - by intros ?%statusKey_inj.
  - apply statusKey_ne_jobKey.
  - intros Heq. symmetry in Heq. by apply statusKey_ne_jobKey in Heq.
  - by intros ?%jobKey_inj.
Qed.

(** The number of records deleted is the number of overdue records. *)
Lemma pruned_count now maxAge kv :
  status_wf kv →
  length (filter (λ s, prunable (now - maxAge) s = true) (listJobs None kv))
  = size (filter (λ entry, overdue_record now maxAge entry = true) kv).
Proof.
  intros Hwf. rewrite listJobs_omap, length_filter_omap, <- length_map_to_list.
  rewrite <- (length_fmap fst (map_to_list _)).
  apply Permutation_length, NoDup_Permutation.
  - apply NoDup_filter, NoDup_Kv_list.
  - apply NoDup_fst_map_to_list.
  - intros key. rewrite list_elem_of_filter, elem_of_Kv_list, list_elem_of_fmap.
    split.
    + intros [Hp [Hpre [v Hv]]].
      exists (key, v). split; [done |].
      apply elem_of_map_to_list, map_lookup_filter_Some. split; [done |].
      unfold overdue_record. cbn [fst snd]. rewrite Hpre. cbn [andb].
      unfold Kv.get in Hp. rewrite Hv in Hp.
      destruct v as [| status |]; cbn [Kv.as_status from_option] in Hp; try done.
      destruct (status_key_cases _ Hpre) as [jobId ->].
      destruct (Hwf _ _ Hv) as [_ Hstamp].
      by rewrite <- prunable_overdue.
    + intros ([key' v] & -> & [Hv Hover]%elem_of_map_to_list%map_lookup_filter_Some).
      cbn [fst snd] in *. unfold overdue_record in Hover. cbn [fst snd] in Hover.
      apply andb_true_iff in Hover as [Hpre Hover].
      destruct v as [| status |]; try done.
      split; [| by rewrite Hv].
      unfold Kv.get. rewrite Hv. cbn [Kv.as_status from_option].
      destruct (status_key_cases _ Hpre) as [jobId ->].
      destruct (Hwf _ _ Hv) as [_ Hstamp].
      by rewrite prunable_overdue.
Qed.

(** C8. [pruneCompletedJobs] deletes the status record and the retained
    configuration of exactly the jobs whose record is in success, failure
    or cancelled and finished more than [maxAge] ago, returns their
    number, and leaves everything else, records in timeout and
    non-terminal records among it, as it was. *)
Theorem pruneCompletedJobs_deletes_overdue now maxAge kv (Hwf : status_wf kv) :
  let deleted := (pruneCompletedJobs now maxAge kv).1 in
  let kv' := (pruneCompletedJobs now maxAge kv).2 in
  (∀ jobId status,
     kv !! statusKey jobId = Some (VStatus status) →
     overdue now maxAge status = true →
     kv' !! statusKey jobId = None ∧ kv' !! jobKey jobId = None)
  ∧ (∀ jobId,
       (∀ status, kv !! statusKey jobId = Some (VStatus status) →
                  overdue now maxAge status = false) →
       kv' !! statusKey jobId = kv !! statusKey jobId
       ∧ kv' !! jobKey jobId = kv !! jobKey jobId)
  ∧ (∀ jobId status,
       kv !! statusKey jobId = Some (VStatus status) →
       JobStatus.status status ∈
         [JobStatus.timeout; JobStatus.queued; JobStatus.running] →
       kv' !! statusKey jobId = Some (VStatus status)
       ∧ kv' !! jobKey jobId = kv !! jobKey jobId)
  ∧ (∀ key, JS.startsWith key "status:" = false →
            JS.startsWith key "job:" = false → kv' !! key = kv !! key)
  ∧ deleted = Z.of_nat (size (filter (λ entry, overdue_record now maxAge entry = true) kv)).
Proof.
  intros deleted kv'. subst deleted kv'. rewrite pruneCompletedJobs_fold.
  cbn [fst snd].
  assert (∀ status,
    status ∈ filter (λ s, prunable (now - maxAge) s = true) (listJobs None kv) ↔
    kv !! statusKey (JobStatus.id status) = Some (VStatus status)
    ∧ overdue now maxAge status = true) as Hmem.
  { intros status. rewrite list_elem_of_filter, elem_of_listJobs. split.
    - intros [Hp [jobId Hget]]. destruct (Hwf _ _ Hget) as [<- Hstamp].
      split; [done |]. by rewrite <- prunable_overdue.
    - intros [Hget Hover]. destruct (Hwf _ _ Hget) as [_ Hstamp].
      split; [by rewrite prunable_overdue | by eexists]. }
  assert (∀ jobId,
    (∀ status, kv !! statusKey jobId = Some (VStatus status) →
               overdue now maxAge status = false) →
    ∀ status,
      status ∈ filter (λ s, prunable (now - maxAge) s = true) (listJobs None kv) →
      JobStatus.id status ≠ jobId) as Hkeep.
  { intros jobId Hnot status [Hget Hover]%Hmem <-.
    rewrite (Hnot _ Hget) in Hover. done. }
  split; [| split; [| split; [| split]]].
  - intros jobId status Hget Hover. destruct (Hwf _ _ Hget) as [<- _].
    split; eapply lookup_delete_records_None; try (by apply Hmem); auto.
  - intros jobId Hnot. apply delete_records_other. intros status Hin.
    intros Heq. by apply (Hkeep jobId Hnot status Hin).
  - intros jobId status Hget Hstate.
    assert (∀ status', kv !! statusKey jobId = Some (VStatus status') →
                       overdue now maxAge status' = false) as Hnot.
    { intros status' Hget'. simplify_eq. unfold overdue.
      rewrite bool_decide_eq_false_2; [done |].
      revert Hstate. rewrite !elem_of_cons, !elem_of_nil.
      destruct (JobStatus.status status); intuition congruence. }
    rewrite <- Hget. apply delete_records_other. intros st Hin.
    intros Heq. by apply (Hkeep jobId Hnot st Hin).
  - intros key Hs Hj. apply lookup_delete_records_ne. intros status _. split.
    + intros Heq. pose proof (statusKey_startsWith (JobStatus.id status)). congruence.
    + intros Heq. pose proof (jobKey_startsWith (JobStatus.id status)). congruence.
  - f_equal. by apply pruned_count.
Qed.
End Pruning.

(** ** Well-formed status records are what the operations write *)

Section StatusWf.
Import JobQueue QueueSpec Fixtures.
Implicit Types (kv : KV) (key jobId : string).

Lemma status_wf_empty : status_wf ∅.
Proof. intros jobId status. by rewrite lookup_empty. Qed.

Lemma status_wf_updateJobStatus jobId status kv :
  JobStatus.id status = jobId → JobStatus.finishedAt status ≠ Some 0 →
  status_wf kv → status_wf (updateJobStatus jobId status kv).
Proof.
  intros Hid Hstamp Hwf jobId' status'.
  destruct (decide (jobId' = jobId)) as [-> | Hne].
  - rewrite lookup_updateJobStatus. by intros [= <-].
  - rewrite lookup_updateJobStatus_ne by (by intros ?%statusKey_inj). apply Hwf.
Qed.

Lemma status_wf_put key v ttl kv :
  JS.startsWith key "status:" = false →
  status_wf kv → status_wf (Kv.put key v ttl kv).
Proof.
  intros Hpre Hwf jobId status. unfold Kv.put.
  rewrite lookup_insert_ne; [apply Hwf |].
  intros ->. by rewrite statusKey_startsWith in Hpre.
Qed.

Lemma status_wf_delete key kv : status_wf kv → status_wf (Kv.delete key kv).
Proof.
  intros Hwf jobId status. unfold Kv.delete.
  intros [_ Hget]%lookup_delete_Some. by apply Hwf.
Qed.

Lemma status_wf_storeJobConfig job kv :
  status_wf kv → status_wf (storeJobConfig job kv).
Proof. by apply status_wf_put. Qed.

Lemma status_wf_enqueue config now job kv :
  status_wf kv → status_wf (enqueue config now job kv).
Proof.
  intros Hwf. unfold enqueue.
  apply status_wf_updateJobStatus; [done .. |]. by apply status_wf_put.
Qed.

Lemma status_wf_dequeue config now kv :
  status_wf kv → status_wf (dequeue config now kv).2.
Proof.
  intros Hwf.
  destruct (dequeue config now kv) as [[job |] kv'] eqn:Hdeq; simpl.
  - apply dequeue_Some in Hdeq as (_ & firstKey & rest & _ & _ & ->).
    unfold after_dequeue.
    destruct (getJobStatus _ _) as [status |] eqn:Hst;
      [| by apply (status_wf_delete firstKey)].
    apply getJobStatus_Some in Hst.
    destruct (status_wf_delete firstKey kv Hwf _ _ Hst) as [Hid Hstamp].
    apply status_wf_updateJobStatus; [done .. |].
    by apply (status_wf_delete firstKey).
  - unfold dequeue, dequeue_with in Hdeq.
    destruct (_ <=? _); [by simplify_eq |].
    by apply dequeue_listed_None in Hdeq as ->.
Qed.

Lemma status_wf_cancelJob now jobId kv :
  now ≠ 0 → status_wf kv → status_wf (cancelJob now jobId kv).2.
Proof.
  intros Hnow Hwf. unfold cancelJob.
  destruct (getJobStatus jobId kv) as [status |] eqn:Hst; [| done].
  apply getJobStatus_Some in Hst. destruct (Hwf _ _ Hst) as [Hid _].
  cbn [snd]. apply status_wf_updateJobStatus.
  - by case_match.
  - case_match; simpl; congruence.
  - case_decide; [| done]. case_match; [| done]. by apply status_wf_delete.
Qed.

Lemma status_wf_retryJob config now jobId kv :
  status_wf kv → status_wf (retryJob config now jobId kv).2.
Proof.
  intros Hwf. unfold retryJob.
  destruct (getJobStatus jobId kv); [| done]. case_decide; [done |].
  destruct (Kv.as_job _); [| done]. by apply status_wf_enqueue.
Qed.

Lemma status_wf_pruneCompletedJobs now maxAge kv :
  status_wf kv → status_wf (pruneCompletedJobs now maxAge kv).2.
Proof.
  intros Hwf. rewrite pruneCompletedJobs_fold. cbn [snd].
  unfold delete_records.
  generalize (filter (λ s, prunable (now - maxAge) s = true) (listJobs None kv)).
  intros statuses. revert kv Hwf.
  induction statuses as [| status statuses IH]; intros kv Hwf; [done |].
  simpl. by apply IH, status_wf_delete, status_wf_delete.
Qed.
End StatusWf.

Section PruningWitness.
Import JobQueue QueueSpec Fixtures.

Lemma status_wf_retention_kv : status_wf retention_kv.
Proof.
  unfold retention_kv.
  repeat (first [ apply status_wf_updateJobStatus; [done | done |]
                | apply status_wf_storeJobConfig ]).
  apply status_wf_empty.
Qed.

Lemma pruneCompletedJobs_deletes_overdue_witness :
  status_wf retention_kv
  ∧ (pruneCompletedJobs 10000 5000 retention_kv).1 = 1
  ∧ (let deleted := (pruneCompletedJobs 10000 5000 retention_kv).1 in
     let kv' := (pruneCompletedJobs 10000 5000 retention_kv).2 in
     (∀ jobId status,
        retention_kv !! statusKey jobId = Some (VStatus status) →
        overdue 10000 5000 status = true →
        kv' !! statusKey jobId = None ∧ kv' !! jobKey jobId = None)
     ∧ (∀ jobId,
          (∀ status, retention_kv !! statusKey jobId = Some (VStatus status) →
                     overdue 10000 5000 status = false) →
          kv' !! statusKey jobId = retention_kv !! statusKey jobId
          ∧ kv' !! jobKey jobId = retention_kv !! jobKey jobId)
     ∧ (∀ jobId status,
          retention_kv !! statusKey jobId = Some (VStatus status) →
          JobStatus.status status ∈
            [JobStatus.timeout; JobStatus.queued; JobStatus.running] →
          kv' !! statusKey jobId = Some (VStatus status)
          ∧ kv' !! jobKey jobId = retention_kv !! jobKey jobId)
     ∧ (∀ key, JS.startsWith key "status:" = false →
               JS.startsWith key "job:" = false → kv' !! key = retention_kv !! key)
     ∧ deleted
       = Z.of_nat (size (filter (λ entry, overdue_record 10000 5000 entry = true)
                                retention_kv))).
Proof.
  split; [exact status_wf_retention_kv |]. split; [by vm_compute |].
  exact (pruneCompletedJobs_deletes_overdue 10000 5000 retention_kv
           status_wf_retention_kv).
Defined.
End PruningWitness.

(** ** Terminal statuses *)

Section Terminal.
Import JobQueue QueueSpec Fixtures.
Implicit Types (kv : KV) (key jobId : string).

Lemma getJobStatus_put_other key v ttl kv jobId :
  JS.startsWith key "status:" = false →
  getJobStatus jobId (Kv.put key v ttl kv) = getJobStatus jobId kv.
Proof.
  intros Hpre. unfold getJobStatus, Kv.get, Kv.put.
  rewrite lookup_insert_ne; [done |].
  intros ->. by rewrite statusKey_startsWith in Hpre.
Qed.

Lemma getJobStatus_delete_other key kv jobId :
  JS.startsWith key "status:" = false →
  getJobStatus jobId (Kv.delete key kv) = getJobStatus jobId kv.
Proof.
  intros Hpre. unfold getJobStatus, Kv.get, Kv.delete.
  rewrite lookup_delete_ne; [done |].
  intros ->. by rewrite statusKey_startsWith in Hpre.
Qed.

Lemma startsWith_queue_not_status key :
  JS.startsWith key "queue:" = true → JS.startsWith key "status:" = false.
Proof.
  intros Hq. destruct (JS.startsWith key "status:") eqn:Hs; [| done].
  destruct (startsWith_queue_status _ Hq Hs).
Qed.

Lemma getJobStatus_enqueue_other config now job kv jobId :
  JobConfig.id job ≠ jobId →
  getJobStatus jobId (enqueue config now job kv) = getJobStatus jobId kv.
Proof.
  intros Hne. unfold enqueue.
  rewrite getJobStatus_updateJobStatus_ne by done.
  by apply getJobStatus_put_other.
Qed.

Lemma getJobStatus_enqueue config now job kv :
  getJobStatus (JobConfig.id job) (enqueue config now job kv)
  = Some (initial_status job).
Proof. apply getJobStatus_updateJobStatus. Qed.

(** An operation leaves the record of every job it does not address. *)
Lemma run_op_other config op kv jobId :
  op_target config op kv ≠ Some jobId →
  getJobStatus jobId (run_op config op kv) = getJobStatus jobId kv.
Proof.
  destruct op as [now job | job | now | now jobId' | now jobId' | jobId' status'];
    simpl; intros Htarget.
  - apply getJobStatus_enqueue_other. congruence.
  - by apply getJobStatus_put_other.
  - destruct (dequeue config now kv) as [[job |] kv'] eqn:Hdeq; simpl in *.
    + apply dequeue_Some in Hdeq as (_ & firstKey & rest & Hsort & _ & ->).
      assert (firstKey ∈ Kv.list "queue:" kv) as [Hq _]%elem_of_Kv_list.
      { rewrite <- (sort_Permutation compareKeys), Hsort. apply list_elem_of_here. }
      unfold after_dequeue.
      pose proof (getJobStatus_delete_other firstKey kv jobId
                    (startsWith_queue_not_status _ Hq)) as Hdel.
      unfold Kv.delete in Hdel.
      destruct (getJobStatus (JobConfig.id job) _); [| done].
      rewrite getJobStatus_updateJobStatus_ne; [done | congruence].
    + unfold dequeue, dequeue_with in Hdeq.
      destruct (_ <=? _); [by simplify_eq |].
      by apply dequeue_listed_None in Hdeq as ->.
  - unfold cancelJob. destruct (getJobStatus jobId' kv); [| done]. cbn [snd].
    rewrite getJobStatus_updateJobStatus_ne by congruence.
    case_decide; [| done].
    destruct (find _ _) as [key |] eqn:Hfind; [| done].
    apply find_some in Hfind as [[Hq _]%list_elem_of_In%elem_of_Kv_list _].
    by apply getJobStatus_delete_other, startsWith_queue_not_status.
  - unfold retryJob. destruct (getJobStatus jobId' kv); [| done].
    case_decide; [done |].
    destruct (Kv.as_job _) as [jobData |]; [| done]. cbn [snd].
    apply getJobStatus_enqueue_other. simpl in Htarget. congruence.
  - apply getJobStatus_updateJobStatus_ne. congruence.
Qed.

Lemma retryJob_not_failure config now jobId kv status :
  getJobStatus jobId kv = Some status →
  JobStatus.status status ≠ JobStatus.failure →
  retryJob config now jobId kv = (false, kv).
Proof. intros Hget Hne. unfold retryJob. rewrite Hget. by rewrite decide_True. Qed.

Lemma retryJob_failure config now jobId kv status job :
  getJobStatus jobId kv = Some status →
  JobStatus.status status = JobStatus.failure →
  kv !! jobKey jobId = Some (VJob job) →
  retryJob config now jobId kv = (true, enqueue config now job kv).
Proof.
  intros Hget Hfail Hjob. unfold retryJob, Kv.get. rewrite Hget, Hjob.
  by rewrite decide_False by (by intros []).
Qed.

(** C2, as amended. A status record that has reached a terminal status is
    left as it is by every operation addressed to another job, and by
    [retryJob] unless the status is failure; [retryJob] of a failed job
    whose configuration was retained under its identifier enqueues it
    again, which brings the status back to queued. *)
Theorem terminal_record_frame config kv jobId status
    (Hget : getJobStatus jobId kv = Some status)
    (Hterminal : JobStatus.terminal (JobStatus.status status) = true) :
  (∀ op, op_target config op kv ≠ Some jobId →
         getJobStatus jobId (run_op config op kv) = Some status)
  ∧ (∀ now, JobStatus.status status ≠ JobStatus.failure →
            retryJob config now jobId kv = (false, kv))
  ∧ (∀ now job,
       JobStatus.status status = JobStatus.failure →
       kv !! jobKey jobId = Some (VJob job) →
       JobConfig.id job = jobId →
       (retryJob config now jobId kv).1 = true
       ∧ getJobStatus jobId (retryJob config now jobId kv).2
         = Some (initial_status job)
       ∧ JobStatus.status (initial_status job) = JobStatus.queued).
Proof.
  split; [| split].
  - intros op Htarget. by rewrite run_op_other.
  - intros now. by apply retryJob_not_failure.
  - intros now job Hfail Hjob <-.
    rewrite (retryJob_failure _ _ _ _ _ _ Hget Hfail Hjob). cbn [fst snd].
    by rewrite getJobStatus_enqueue.
Qed.

(** C2 fails as stated: the record of job A is in failure, a terminal
    status, and [retryJob] brings it back to queued; [cancelJob] on the
    same record makes it cancelled. *)
Lemma terminal_status_overwritten :
  JobStatus.status <$> getJobStatus "A" failed_kv = Some JobStatus.failure
  ∧ JobStatus.terminal JobStatus.failure = true
  ∧ JobStatus.status
      <$> getJobStatus "A" (run_op default_config (RetryJob 900 "A") failed_kv)
    = Some JobStatus.queued
  ∧ JobStatus.status
      <$> getJobStatus "A" (run_op default_config (CancelJob 900 "A") failed_kv)
    = Some JobStatus.cancelled.
Proof.
  split; [by vm_compute |]. split; [reflexivity |].
  split; by vm_compute.
Qed.

Lemma terminal_record_frame_witness :
  getJobStatus "A" failed_kv = Some (a_status "A" JobStatus.failure (Some 700))
  ∧ JobStatus.terminal JobStatus.failure = true
  ∧ (∀ op, op_target default_config op failed_kv ≠ Some "A" →
           getJobStatus "A" (run_op default_config op failed_kv)
           = Some (a_status "A" JobStatus.failure (Some 700)))
  ∧ (retryJob default_config 900 "A" failed_kv).1 = true
  ∧ getJobStatus "A" (retryJob default_config 900 "A" failed_kv).2
    = Some (initial_status (a_job "A" 5)).
Proof.
  assert (getJobStatus "A" failed_kv
          = Some (a_status "A" JobStatus.failure (Some 700))) as Hget.
  { by vm_compute. }
  assert (JobStatus.terminal
            (JobStatus.status (a_status "A" JobStatus.failure (Some 700))) = true)
    as Hterminal.
  { reflexivity. }
  destruct (terminal_record_frame default_config failed_kv "A" _ Hget Hterminal)
    as (Hframe & _ & Hretry).
  split; [exact Hget |]. split; [reflexivity |]. split; [exact Hframe |].
  destruct (Hretry 900 (a_job "A" 5)) as (Hdone & Hstatus & _).
  - reflexivity.
  - by vm_compute.
  - reflexivity.
  - split; [exact Hdone | exact Hstatus].
Defined.
End Terminal.

(** ** The stores the operations lead to *)

Section Reachable.
Import JobQueue QueueSpec Fixtures.
Implicit Types (kv : KV) (key jobId : string).

Lemma queue_wf_put key v ttl kv :
  JS.startsWith key "queue:" = false → queue_wf kv → queue_wf (Kv.put key v ttl kv).
Proof.
  intros Hpre Hwf key' v' Hq. unfold Kv.put.
  rewrite lookup_insert_ne; [by apply Hwf | congruence].
Qed.

Lemma queue_wf_delete key kv : queue_wf kv → queue_wf (Kv.delete key kv).
Proof.
  intros Hwf key' v' Hq. unfold Kv.delete.
  intros [_ Hget]%lookup_delete_Some. by apply Hwf.
Qed.

Lemma queue_wf_updateJobStatus jobId status kv :
  queue_wf kv → queue_wf (updateJobStatus jobId status kv).
Proof. by apply queue_wf_put. Qed.

Lemma queue_wf_dequeue config now kv : queue_wf kv → queue_wf (dequeue config now kv).2.
Proof.
  intros Hwf.
  destruct (dequeue config now kv) as [[job |] kv'] eqn:Hdeq; simpl.
  - apply dequeue_Some in Hdeq as (_ & firstKey & rest & _ & _ & ->).
    unfold after_dequeue. destruct (getJobStatus _ _).
    + by apply queue_wf_updateJobStatus, (queue_wf_delete firstKey).
    + by apply (queue_wf_delete firstKey).
  - unfold dequeue, dequeue_with in Hdeq.
    destruct (_ <=? _); [by simplify_eq |].
    by apply dequeue_listed_None in Hdeq as ->.
Qed.

Lemma queue_wf_cancelJob now jobId kv : queue_wf kv → queue_wf (cancelJob now jobId kv).2.
Proof.
  intros Hwf. unfold cancelJob. destruct (getJobStatus jobId kv); [| done].
  cbn [snd]. apply queue_wf_updateJobStatus.
  case_decide; [| done]. case_match; [| done]. by apply queue_wf_delete.
Qed.

Lemma queue_wf_retryJob config now jobId kv :
  queue_wf kv → queue_wf (retryJob config now jobId kv).2.
Proof.
  intros Hwf. unfold retryJob. destruct (getJobStatus jobId kv); [| done].
  case_decide; [done |]. destruct (Kv.as_job _); [| done].
  by apply queue_wf_enqueue.
Qed.

Lemma queue_wf_pruneCompletedJobs now maxAge kv :
  queue_wf kv → queue_wf (pruneCompletedJobs now maxAge kv).2.
Proof.
  intros Hwf. rewrite pruneCompletedJobs_fold. cbn [snd].
  unfold delete_records.
  generalize (filter (λ s, prunable (now - maxAge) s = true) (listJobs None kv)).
  intros statuses. revert kv Hwf.
  induction statuses as [| status statuses IH]; intros kv Hwf; [done |].
  simpl. by apply IH, queue_wf_delete, queue_wf_delete.
Qed.

(** Writing a record that is not running, or over a running one, does
    not add to the running records; nor does deleting or writing under
    other keys. *)
Lemma running_keys_put key v ttl kv key' :
  (∀ status, v = VStatus status →
     JobStatus.status status = JobStatus.running → key ∈ running_keys kv) →
  key' ∈ running_keys (Kv.put key v ttl kv) → key' ∈ running_keys kv.
Proof.
  intros Hv. rewrite !elem_of_running_keys. unfold Kv.put.
  intros [Hpre (status & Hget & Hrun)].
  destruct (decide (key = key')) as [<- | Hne].
  - rewrite lookup_insert_eq in Hget. simplify_eq.
    by apply elem_of_running_keys, (Hv status).
  - rewrite lookup_insert_ne in Hget by done. eauto.
Qed.

Lemma running_keys_delete key kv key' :
  key' ∈ running_keys (Kv.delete key kv) → key' ∈ running_keys kv.
Proof.
  rewrite !elem_of_running_keys. unfold Kv.delete.
  intros [Hpre (status & [_ Hget]%lookup_delete_Some & Hrun)]. eauto.
Qed.

Lemma getRunningJobCount_enqueue config now job kv :
  getRunningJobCount (enqueue config now job kv) ≤ getRunningJobCount kv.
Proof.
  apply getRunningJobCount_le. intros key Hkey. unfold enqueue, updateJobStatus in Hkey.
  apply running_keys_put in Hkey; [| by intros ? [= <-]].
  apply running_keys_put in Hkey; [done | by intros ? [=]].
Qed.

Lemma getRunningJobCount_cancelJob now jobId kv :
  getRunningJobCount (cancelJob now jobId kv).2 ≤ getRunningJobCount kv.
Proof.
  apply getRunningJobCount_le. intros key. unfold cancelJob.
  destruct (getJobStatus jobId kv); [| done]. cbn [snd]. unfold updateJobStatus.
  intros Hkey. apply running_keys_put in Hkey.
  - case_decide; [| done]. case_match; [| done]. by apply running_keys_delete in Hkey.
  - intros ? [= <-] Hrun. exfalso. revert Hrun.
    by destruct (JS.truthy (JobStatus.startedAt _)).
Qed.

Lemma getRunningJobCount_retryJob config now jobId kv :
  getRunningJobCount (retryJob config now jobId kv).2 ≤ getRunningJobCount kv.
Proof.
  unfold retryJob. destruct (getJobStatus jobId kv); [| done].
  case_decide; [done |]. destruct (Kv.as_job _); [| done].
  apply getRunningJobCount_enqueue.
Qed.

Lemma getRunningJobCount_pruneCompletedJobs now maxAge kv :
  getRunningJobCount (pruneCompletedJobs now maxAge kv).2 ≤ getRunningJobCount kv.
Proof.
  apply getRunningJobCount_le. intros key.
  rewrite pruneCompletedJobs_fold. cbn [snd]. unfold delete_records.
  generalize (filter (λ s, prunable (now - maxAge) s = true) (listJobs None kv)).
  intros statuses. revert kv.
  induction statuses as [| status statuses IH]; intros kv; [done |].
  simpl. intros Hkey%IH. by do 2 apply running_keys_delete in Hkey.
Qed.

(** Every reachable store satisfies what the properties of [dequeue] and
    of [pruneCompletedJobs] assume. *)
Lemma reachable_invariants config kv :
  0 ≤ maxConcurrent config → reachable config kv →
  queue_wf kv ∧ status_wf kv ∧ getRunningJobCount kv ≤ maxConcurrent config.
Proof.
  intros Hmax. induction 1 as [| op kv _ (Hq & Hs & Hr) Hok | now maxAge kv _ (Hq & Hs & Hr)].
  - split; [apply queue_wf_empty |]. split; [apply status_wf_empty |]. done.
  - destruct op as [now job | job | now | now jobId | now jobId | jobId status];
      simpl in *.
    + split; [by apply queue_wf_enqueue |]. split; [by apply status_wf_enqueue |].
      pose proof (getRunningJobCount_enqueue config now job kv). lia.
    + split; [by apply queue_wf_put |]. split; [by apply status_wf_storeJobConfig |].
      etrans; [| done]. apply getRunningJobCount_le. intros key Hkey.
      unfold storeJobConfig in Hkey.
      apply running_keys_put in Hkey; [done | by intros ? [=]].
    + split; [by apply queue_wf_dequeue |]. split; [by apply status_wf_dequeue |].
      by apply dequeue_bound.
    + split; [by apply queue_wf_cancelJob |]. split; [by apply status_wf_cancelJob |].
      pose proof (getRunningJobCount_cancelJob now jobId kv). lia.
    + split; [by apply queue_wf_retryJob |]. split; [by apply status_wf_retryJob |].
      pose proof (getRunningJobCount_retryJob config now jobId kv). lia.
    + destruct Hok as (Hid & Hstamp & Hrunning).
      split; [by apply queue_wf_updateJobStatus |].
      split; [by apply status_wf_updateJobStatus |].
      etrans; [| done]. apply getRunningJobCount_le. intros key Hkey.
      unfold updateJobStatus in Hkey. apply running_keys_put in Hkey; [done |].
      intros ? [= <-] (stored & Hstored & Hrun)%Hrunning.
      apply elem_of_running_keys. split; [apply statusKey_startsWith |].
      exists stored. split; [by apply getJobStatus_Some | done].
  - split; [by apply queue_wf_pruneCompletedJobs |].
    split; [by apply status_wf_pruneCompletedJobs |].
    pose proof (getRunningJobCount_pruneCompletedJobs now maxAge kv). lia.
Qed.
End Reachable.

(** ** The ceiling on the running jobs *)

Section Ceiling.
Import JobQueue QueueSpec Fixtures.
Implicit Types (kv : KV) (key jobId : string).

(** The keys [getRunningJobCount] counts are the keys of the entries
    that are status records in running. *)
Lemma running_keys_records kv :
  running_keys kv
  ≡ₚ (map_to_list (filter (λ entry, running_record entry = true) kv)).*1.
Proof.
  apply NoDup_Permutation.
  - apply NoDup_running_keys.
  - apply NoDup_fst_map_to_list.
  - intros key. rewrite elem_of_running_keys, list_elem_of_fmap. split.
    + intros (Hpre & status & Hget & Hrun).
      exists (key, VStatus status). split; [done |].
      apply elem_of_map_to_list, map_lookup_filter_Some. split; [done |].
      unfold running_record. cbn [fst snd]. rewrite Hpre. cbn [andb].
      by apply bool_decide_eq_true.
    + intros ([key' v] & -> & [Hget Hrec]%elem_of_map_to_list%map_lookup_filter_Some).
      cbn [fst]. unfold running_record in Hrec. cbn [fst snd] in Hrec.
      apply andb_true_iff in Hrec as [Hpre Hrun]. split; [done |].
      destruct v as [| status |]; try done.
      exists status. split; [done |]. by apply bool_decide_eq_true in Hrun.
Qed.

(** The count of [getRunningJobCount] is the number of running records
    in the store. *)
Lemma getRunningJobCount_running_records kv :
  getRunningJobCount kv = running_records kv.
Proof.
  rewrite getRunningJobCount_length. unfold running_records. f_equal.
  rewrite (Permutation_length (running_keys_records kv)), length_fmap.
  apply length_map_to_list.
Qed.

(** No operation but [dequeue] adds to the running records, when no
    status write revives one, and [dequeue] adds one below the ceiling
    only. *)
Lemma served_bound config kv :
  0 ≤ maxConcurrent config → served config kv →
  getRunningJobCount kv ≤ maxConcurrent config.
Proof.
  intros Hmax. induction 1 as [| op kv _ IH Hok | now maxAge kv _ IH].
  - done.
  - destruct op as [now job | job | now | now jobId | now jobId | jobId status];
      simpl in *.
    + pose proof (getRunningJobCount_enqueue config now job kv). lia.
    + etrans; [| done]. apply getRunningJobCount_le. intros key Hkey.
      unfold storeJobConfig in Hkey.
      apply running_keys_put in Hkey; [done | by intros ? [=]].
    + by apply dequeue_bound.
    + pose proof (getRunningJobCount_cancelJob now jobId kv). lia.
    + pose proof (getRunningJobCount_retryJob config now jobId kv). lia.
    + etrans; [| done]. apply getRunningJobCount_le. intros key Hkey.
      unfold updateJobStatus in Hkey. apply running_keys_put in Hkey; [done |].
      intros ? [= <-] (stored & Hstored & Hrun)%Hok.
      apply elem_of_running_keys. split; [apply statusKey_startsWith |].
      exists stored. split; [by apply getJobStatus_Some | done].
  - pose proof (getRunningJobCount_pruneCompletedJobs now maxAge kv). lia.
Qed.

Lemma served_dequeue_all config times kv :
  served config kv → served config (dequeue_all config times kv).
Proof.
  revert kv. induction times as [| now times IH]; intros kv Hkv; [done |].
  simpl. apply IH. by apply (served_op config (Dequeue now)).
Qed.

(** C3, as amended. On every store that the operations of the queue and
    the status writes that revive no record lead to from the empty one:
    the count [dequeue] takes first is the number of status records in
    running; that number is at most [maxConcurrent]; at the ceiling
    [dequeue] returns no job and leaves the store as it is; and no
    sequence of [dequeue] calls takes the number above the ceiling. *)
Theorem dequeue_respects_maxConcurrent config kv
    (Hmax : 0 ≤ maxConcurrent config)
    (Hserved : served config kv) :
  getRunningJobCount kv = running_records kv
  ∧ running_records kv ≤ maxConcurrent config
  ∧ (∀ now, maxConcurrent config ≤ running_records kv →
            dequeue config now kv = (None, kv))
  ∧ ∀ times,
      served config (dequeue_all config times kv)
      ∧ running_records (dequeue_all config times kv) ≤ maxConcurrent config.
Proof.
  split; [apply getRunningJobCount_running_records |].
  split; [| split].
  - rewrite <- getRunningJobCount_running_records. by apply served_bound.
  - intros now. rewrite <- getRunningJobCount_running_records.
    apply dequeue_at_capacity.
  - intros times. split; [by apply served_dequeue_all |].
    rewrite <- getRunningJobCount_running_records.
    by apply served_bound, served_dequeue_all.
Qed.

(** C3 fails as stated. One job at a time: A is dequeued and the
    orchestrator reads its status, in running; A is cancelled, and
    [dequeue] admits B in its place, as the count allows. The next
    status write of the loop of [executeJob] for A, from the status
    object it read, puts A back into running: two records are in
    running under a ceiling of one, on the queue's own count as well.
    The loop itself, run on the store where B has replaced A, leaves the
    same two records in running. *)
Lemma stale_status_write_exceeds_maxConcurrent :
  maxConcurrent single_config = 1
  ∧ getJobStatus "A" admitted_kv = Some status_read
  ∧ JobStatus.status status_read = JobStatus.running
  ∧ (JobStatus.status <$> getJobStatus "A" replaced_kv) = Some JobStatus.cancelled
  ∧ (JobStatus.status <$> getJobStatus "B" replaced_kv) = Some JobStatus.running
  ∧ running_records replaced_kv = 1
  ∧ running_records revived_kv = 2
  ∧ getRunningJobCount revived_kv = 2
  ∧ running_records
      (World.queue_kv
         (Orchestrator.step_loop (a_job "A" 5) 0 (JobConfig.steps (a_job "A" 5))
            (status_read, Toy.world (Toy.mk ∅ []) replaced_kv [])).2.2) = 2.
Proof.
  split; [reflexivity |]. split; [vm_compute; reflexivity |].
  split; [reflexivity |]. split; [vm_compute; reflexivity |].
  split; [vm_compute; reflexivity |]. split; [vm_compute; reflexivity |].
  split; [vm_compute; reflexivity |]. split; [vm_compute; reflexivity |].
  vm_compute; reflexivity.
Qed.

Lemma dequeue_respects_maxConcurrent_witness :
  getRunningJobCount replaced_kv = running_records replaced_kv
  ∧ running_records replaced_kv ≤ maxConcurrent single_config
  ∧ (∀ now, maxConcurrent single_config ≤ running_records replaced_kv →
            dequeue single_config now replaced_kv = (None, replaced_kv))
  ∧ ∀ times,
      served single_config (dequeue_all single_config times replaced_kv)
      ∧ running_records (dequeue_all single_config times replaced_kv)
        ≤ maxConcurrent single_config.
Proof.
  apply (dequeue_respects_maxConcurrent single_config replaced_kv).
  - vm_compute. discriminate.
  - unfold replaced_kv, admitted_kv, run_ops. cbn [fold_left].
    repeat (apply served_op; [| exact I]). apply served_empty.
Defined.
End Ceiling.

(** ** Runs in a world: frames, totality, safety *)

Section RunFacts.
Context {S : Type} `{!ISandbox S} `{!Base64}.
Import RunSpec.
Implicit Types (w : World.t S).

Local Open Scope async_scope.

Lemma later_refl w : later w w.
Proof. unfold later. reflexivity. Qed.

Lemma later_trans w1 w2 w3 : later w1 w2 → later w2 w3 → later w1 w3.
Proof. unfold later. intros. by etrans. Qed.

Lemma later_fault_free w w' : later w w' → fault_free w → fault_free w'.
Proof.
  intros [l Hl]. unfold fault_free. rewrite Hl.
  by intros [_ ?]%Forall_app.
Qed.

Lemma later_within budget w w' : later w w' → within budget w → within budget w'.
Proof.
  intros [l Hl]. unfold within. rewrite Hl.
  intros [Hq [_ ?]%Forall_app]%Forall_cons. by constructor.
Qed.

Lemma later_advance ms w : later w (World.advance ms w).
Proof.
  unfold later. simpl. destruct (World.script w); [done |].
  by apply suffix_cons_r.
Qed.

Lemma frame_refl w : frame w w.
Proof. split; [apply later_refl | done]. Qed.

Lemma frame_trans w1 w2 w3 : frame w1 w2 → frame w2 w3 → frame w1 w3.
Proof.
  intros [Hs1 Hq1] [Hs2 Hq2]. split; [by eapply later_trans | congruence].
Qed.

Lemma frame_advance ms w : frame w (World.advance ms w).
Proof. split; [apply later_advance | done]. Qed.

Lemma frame_same w w' :
  World.script w' = World.script w → World.queue_kv w' = World.queue_kv w →
  frame w w'.
Proof. intros Hs Hq. split; [| done]. unfold later. by rewrite Hs. Qed.

Lemma frame_fault_free w w' : frame w w' → fault_free w → fault_free w'.
Proof. intros [? _]. by apply later_fault_free. Qed.

Lemma frame_within budget w w' : frame w w' → within budget w → within budget w'.
Proof. intros [? _]. by apply later_within. Qed.

(** *** Running a sequence *)

Lemma bind_Ok {Σ A B} (m : M Σ A) (k : A → M Σ B) σ a σ' :
  m σ = (Ok a, σ') → Async.bind m k σ = k a σ'.
Proof. intros Hm. unfold Async.bind. by rewrite Hm. Qed.

Lemma bind_Throw {Σ A B} (m : M Σ A) (k : A → M Σ B) σ msg σ' :
  m σ = (Throw msg, σ') → Async.bind m k σ = (Throw msg, σ').
Proof. intros Hm. unfold Async.bind. by rewrite Hm. Qed.

Lemma try_catch_Ok {Σ A} (m : M Σ A) handler σ a σ' :
  m σ = (Ok a, σ') → Async.try_catch m handler σ = (Ok a, σ').
Proof. intros Hm. unfold Async.try_catch. by rewrite Hm. Qed.

Lemma try_catch_Throw {Σ A} (m : M Σ A) handler σ msg σ' :
  m σ = (Throw msg, σ') → Async.try_catch m handler σ = handler msg σ'.
Proof. intros Hm. unfold Async.try_catch. by rewrite Hm. Qed.

Lemma lift_eq {L A} (m : M (World.t S) A) (l : L) w :
  Async.lift m (l, w) = ((m w).1, (l, (m w).2)).
Proof. unfold Async.lift. by destruct (m w). Qed.

Lemma next_tick_fault_free w : fault_free w → Tick.fault (World.next_tick w) = None.
Proof.
  intros Hw. unfold World.next_tick.
  destruct (World.script w) as [| tick script] eqn:Hs; [done |].
  unfold fault_free in Hw. rewrite Hs in Hw. by apply Forall_cons in Hw as [? _].
Qed.

Lemma await_fault_free {A} (call : M (World.t S) A) w :
  fault_free w →
  await call w = call (World.advance (Tick.elapsed (World.next_tick w)) w).
Proof. intros Hw. unfold await. by rewrite next_tick_fault_free. Qed.

(** *** Frames *)

Lemma framed_ret {A} (a : A) : framed (Async.ret (Σ := World.t S) a).
Proof. intros w. apply frame_refl. Qed.

Lemma framed_throw {A} msg : framed (Async.throw (Σ := World.t S) (A := A) msg).
Proof. intros w. apply frame_refl. Qed.

Lemma framed_bind {A B} (m : M (World.t S) A) (k : A → M (World.t S) B) :
  framed m → (∀ a, framed (k a)) → framed (Async.bind m k).
Proof.
  intros Hm Hk w. unfold Async.bind. specialize (Hm w).
  destruct (m w) as [[a | msg] w'] eqn:Hmw; simpl in *; [| done].
  eapply frame_trans; [done | apply Hk].
Qed.

Lemma framed_try_catch {A} (m : M (World.t S) A) handler :
  framed m → (∀ msg, framed (handler msg)) → framed (Async.try_catch m handler).
Proof.
  intros Hm Hh w. unfold Async.try_catch. specialize (Hm w).
  destruct (m w) as [[a | msg] w'] eqn:Hmw; simpl in *; [done |].
  eapply frame_trans; [done | apply Hh].
Qed.

Lemma framed_await {A} (call : M (World.t S) A) : framed call → framed (await call).
Proof.
  intros Hcall w. unfold await.
  destruct (Tick.fault (World.next_tick w)); simpl.
  - apply frame_advance.
  - eapply frame_trans; [apply frame_advance | apply Hcall].
Qed.

Lemma framed_for_each {A} (xs : list A) (body : A → M (World.t S) unit) :
  (∀ x, framed (body x)) → framed (for_each xs body).
Proof.
  intros Hbody. induction xs as [| x xs IH]; simpl.
  - apply framed_ret.
  - by apply framed_bind.
Qed.

Lemma framed_for_fold {A B} (xs : list A) (acc : B) (body : B → A → M (World.t S) B) :
  (∀ acc x, framed (body acc x)) → framed (for_fold xs acc body).
Proof.
  intros Hbody. revert acc. induction xs as [| x xs IH]; intros acc; simpl.
  - apply framed_ret.
  - by apply framed_bind.
Qed.

Lemma framed_Date_now : framed (S := S) Date_now.
Proof. intros w. apply frame_refl. Qed.

Lemma framed_get : framed (Async.get (Σ := World.t S)).
Proof. intros w. apply frame_refl. Qed.

Lemma framed_modify (f : World.t S → World.t S) :
  (∀ w, frame w (f w)) → framed (Async.modify f).
Proof. intros Hf w. apply Hf. Qed.

Lemma framed_sandbox_exec command workingDir : framed (sandbox_exec command workingDir).
Proof.
  apply framed_await. intros w. destruct (exec command workingDir _).
  by apply frame_same.
Qed.

Lemma framed_sandbox_readFile path : framed (sandbox_readFile path).
Proof. apply framed_await. intros w. apply frame_refl. Qed.

Lemma framed_sandbox_writeFile path content : framed (sandbox_writeFile path content).
Proof. apply framed_await. intros w. by apply frame_same. Qed.

Lemma framed_sandbox_exec_race command workingDir budget :
  framed (sandbox_exec_race command workingDir budget).
Proof.
  intros w. unfold sandbox_exec_race. cbv zeta. case_match.
  - apply framed_sandbox_exec.
  - destruct (exec command workingDir _). apply frame_advance.
Qed.

(** *** Computations that never throw *)

Lemma total_ret {Σ A} (a : A) : total (Async.ret (Σ := Σ) a).
Proof. intros σ. by exists a. Qed.

Lemma total_modify {Σ} (f : Σ → Σ) : total (Async.modify f).
Proof. intros σ. by exists tt. Qed.

Lemma total_modify_local {L W} (f : L → L) : total (Async.modify_local (W := W) f).
Proof. intros σ. by exists tt. Qed.

Lemma total_bind {Σ A B} (m : M Σ A) (k : A → M Σ B) :
  total m → (∀ a, total (k a)) → total (Async.bind m k).
Proof.
  intros Hm Hk σ. unfold Async.bind. destruct (Hm σ) as [a Ha].
  destruct (m σ) as [r σ']. simpl in Ha. subst r. apply Hk.
Qed.

Lemma total_try_catch {Σ A} (m : M Σ A) handler :
  (∀ msg, total (handler msg)) → total (Async.try_catch m handler).
Proof.
  intros Hh σ. unfold Async.try_catch.
  destruct (m σ) as [[a | msg] σ']; [by exists a | apply Hh].
Qed.

Lemma total_Date_now : total (Date_now (S := S)).
Proof. intros w. by eexists. Qed.

(** *** Computations that throw only when the environment rejects a call *)

Lemma total_safe {A} (m : M (World.t S) A) : total m → safe m.
Proof. intros Hm w _. apply Hm. Qed.

Lemma safe_bind {A B} (m : M (World.t S) A) (k : A → M (World.t S) B) :
  safe m → framed m → (∀ a, safe (k a)) → safe (Async.bind m k).
Proof.
  intros Hm Hf Hk w Hw. unfold Async.bind.
  destruct (Hm w Hw) as [a Ha]. specialize (Hf w).
  destruct (m w) as [r w']. simpl in *. subst r.
  apply Hk. by eapply frame_fault_free.
Qed.

Lemma safe_await {A} (call : M (World.t S) A) : safe call → safe (await call).
Proof.
  intros Hcall w Hw. rewrite await_fault_free by done.
  apply Hcall. eapply frame_fault_free; [apply frame_advance | done].
Qed.

Lemma safe_for_each {A} (xs : list A) (body : A → M (World.t S) unit) :
  (∀ x, safe (body x)) → (∀ x, framed (body x)) → safe (for_each xs body).
Proof.
  intros Hsafe Hframed. induction xs as [| x xs IH]; simpl.
  - apply total_safe, total_ret.
  - by apply safe_bind.
Qed.

Lemma safe_sandbox_exec command workingDir : safe (sandbox_exec command workingDir).
Proof.
  apply safe_await. intros w _. destruct (exec command workingDir _).
  by eexists.
Qed.

Lemma safe_run {A} (m : M (World.t S) A) w :
  safe m → framed m → fault_free w →
  ∃ a w', m w = (Ok a, w') ∧ frame w w'.
Proof.
  intros Hsafe Hframed Hw. destruct (Hsafe w Hw) as [a Ha]. specialize (Hframed w).
  destruct (m w) as [r w']. simpl in *. subst r. by exists a, w'.
Qed.

Lemma total_run {A} (m : M (World.t S) A) w :
  total m → framed m → ∃ a w', m w = (Ok a, w') ∧ frame w w'.
Proof.
  intros Htotal Hframed. destruct (Htotal w) as [a Ha]. specialize (Hframed w).
  destruct (m w) as [r w']. simpl in *. subst r. by exists a, w'.
Qed.

Lemma next_tick_within budget w :
  within budget w → Tick.elapsed (World.next_tick w) < budget.
Proof.
  unfold within, World.next_tick. intros [Hq Hs]%Forall_cons.
  destruct (World.script w); [done |]. by apply Forall_cons in Hs as [? _].
Qed.

(** The race when the command settles within the budget, and when it
    takes longer than a budget that is positive. *)
Lemma sandbox_exec_race_in_time command workingDir budget w :
  Tick.elapsed (World.next_tick w) < budget →
  sandbox_exec_race command workingDir budget w = sandbox_exec command workingDir w.
Proof.
  intros Hin. unfold sandbox_exec_race. cbv zeta.
  by rewrite (proj2 (Z.ltb_lt _ (Z.max 1 budget))) by lia.
Qed.


Lemma lift_Ok {L A} (m : M (World.t S) A) (l : L) w a w' :
  m w = (Ok a, w') → Async.lift m (l, w) = (Ok a, (l, w')).
Proof. intros Hm. unfold Async.lift. by rewrite Hm. Qed.

Lemma lift_Throw {L A} (m : M (World.t S) A) (l : L) w msg w' :
  m w = (Throw msg, w') → Async.lift m (l, w) = (Throw msg, (l, w')).
Proof. intros Hm. unfold Async.lift. by rewrite Hm. Qed.
End RunFacts.

(** ** The cache manager *)

Section CacheFacts.
Context {S : Type} `{!ISandbox S} `{!Base64}.
Import RunSpec CacheSpec.
Implicit Types (w : World.t S).

Local Open Scope async_scope.

Lemma framed_generateCacheKey repo commit lockfiles with_sandbox :
  framed (CacheManager.generateCacheKey repo commit lockfiles with_sandbox).
Proof.
  unfold CacheManager.generateCacheKey. case_match; [| apply framed_ret].
  apply framed_bind; [| intros; apply framed_ret].
  apply framed_for_fold. intros contents lockfile.
  apply framed_try_catch; [| intros; apply framed_ret].
  apply framed_bind; [apply framed_sandbox_readFile | intros; apply framed_ret].
Qed.

Lemma total_read_manifests lockfiles contents :
  total
    (for_fold lockfiles contents
       (λ contents lockfile,
          Async.try_catch
            (content <- sandbox_readFile lockfile ;;
             Async.ret (contents ++ [content])%list)
            (λ _, Async.ret contents))).
Proof.
  revert contents.
  induction lockfiles as [| lockfile lockfiles IH]; intros contents; simpl.
  - apply total_ret.
  - apply total_bind; [| intros a; apply IH].
    apply total_try_catch. intros; apply total_ret.
Qed.

Lemma total_generateCacheKey repo commit lockfiles with_sandbox :
  total (CacheManager.generateCacheKey repo commit lockfiles with_sandbox).
Proof.
  unfold CacheManager.generateCacheKey. case_match; [| apply total_ret].
  apply total_bind; [apply total_read_manifests | intros; apply total_ret].
Qed.









Lemma framed_restoreCache cacheKey : framed (CacheManager.restoreCache cacheKey).
Proof.
  unfold CacheManager.restoreCache.
  apply framed_bind.
  { apply framed_await, framed_bind; [apply framed_get | intros; apply framed_ret]. }
  intros [object |]; [| apply framed_ret].
  apply framed_bind; [apply framed_await, framed_ret |]. intros archiveBuffer.
  apply framed_bind; [apply framed_sandbox_writeFile |]. intros _.
  apply framed_bind; [apply framed_sandbox_exec |]. intros _.
  apply framed_bind; [apply framed_sandbox_exec |]. intros _.
  apply framed_bind.
  { apply framed_await, framed_bind; [apply framed_get | intros; apply framed_ret]. }
  intros [metadata |]; [| apply framed_ret].
  apply framed_bind; [apply framed_Date_now |]. intros now.
  apply framed_bind; [| intros; apply framed_ret].
  apply framed_await, framed_modify. intros w. by apply frame_same.
Qed.

Lemma framed_saveCache cacheKey paths : framed (CacheManager.saveCache cacheKey paths).
Proof.
  unfold CacheManager.saveCache.
  apply framed_bind; [apply framed_Date_now |]. intros timestamp.
  apply framed_bind.
  { apply framed_for_fold. intros existing path.
    apply framed_bind; [apply framed_sandbox_exec | intros; apply framed_ret]. }
  intros existingPaths. case_decide; [apply framed_throw |].
  apply framed_bind; [apply framed_sandbox_exec |]. intros _.
  apply framed_bind; [apply framed_sandbox_readFile |]. intros archiveContent.
  apply framed_bind; [apply framed_await, framed_modify; intros w; by apply frame_same |].
  intros _.
  apply framed_bind; [apply framed_sandbox_exec |]. intros _.
  apply framed_bind; [apply framed_await, framed_modify; intros w; by apply frame_same |].
  intros _. apply framed_ret.
Qed.

(** C9. When the blob store answers the probe and holds no bundle for the
    key, [restoreCache] returns [false] without throwing and leaves the
    sandbox, the cache metadata and the blob store as they were. *)
Theorem restoreCache_miss cacheKey w
    (Hmiss : World.cache_bucket w !! CacheManager.archiveKey cacheKey = None)
    (Hprobe : Tick.fault (World.next_tick w) = None) :
  ∃ w',
    CacheManager.restoreCache cacheKey w = (Ok false, w')
    ∧ World.sandbox w' = World.sandbox w
    ∧ World.metrics_kv w' = World.metrics_kv w
    ∧ World.cache_bucket w' = World.cache_bucket w.
Proof.
  exists (World.advance (Tick.elapsed (World.next_tick w)) w).
  split; [| done].
  unfold CacheManager.restoreCache, Async.bind, await. rewrite Hprobe.
  unfold Async.get, Async.ret. cbn [World.cache_bucket World.advance].
  by rewrite Hmiss.
Qed.
End CacheFacts.

(** ** The orchestrator *)

Section OrchestratorFacts.
Context {S : Type} `{!ISandbox S} `{!Base64}.
Import RunSpec CacheSpec.
Implicit Types (w : World.t S) (job : JobConfig.t) (step : JobStep.t).

Local Open Scope async_scope.

Lemma framed_exports (env : Env) :
  framed (S := S) (for_each env (λ '(key, value),
    sandbox_exec (Orchestrator.export_command key value) None ;;; Async.ret tt)).
Proof.
  apply framed_for_each. intros [key value].
  apply framed_bind; [apply framed_sandbox_exec | intros; apply framed_ret].
Qed.

Lemma safe_exports (env : Env) :
  safe (S := S) (for_each env (λ '(key, value),
    sandbox_exec (Orchestrator.export_command key value) None ;;; Async.ret tt)).
Proof.
  apply safe_for_each; intros [key value].
  - apply safe_bind; [apply safe_sandbox_exec | apply framed_sandbox_exec |].
    intros. apply total_safe, total_ret.
  - apply framed_bind; [apply framed_sandbox_exec | intros; apply framed_ret].
Qed.

Lemma framed_setupWorkspace job : framed (Orchestrator.setupWorkspace job).
Proof.
  unfold Orchestrator.setupWorkspace.
  do 3 (apply framed_bind; [apply framed_sandbox_exec | intros _]).
  destruct (JobConfig.env job); [apply framed_exports | apply framed_ret].
Qed.

Lemma safe_setupWorkspace job : safe (Orchestrator.setupWorkspace job).
Proof.
  unfold Orchestrator.setupWorkspace.
  do 3 (apply safe_bind; [apply safe_sandbox_exec | apply framed_sandbox_exec | intros _]).
  destruct (JobConfig.env job); [apply safe_exports | apply total_safe, total_ret].
Qed.

Lemma framed_executeStep step job : framed (Orchestrator.executeStep step job).
Proof.
  unfold Orchestrator.executeStep.
  apply framed_bind; [apply framed_Date_now |]. intros startedAt.
  apply framed_bind.
  - apply framed_try_catch; [| intros; apply framed_ret].
    apply framed_bind.
    { destruct (JobStep.env step); [apply framed_exports | apply framed_ret]. }
    intros _. apply framed_bind; [apply framed_sandbox_exec_race |].
    intros. apply framed_ret.
  - intros result. apply framed_bind; [apply framed_Date_now |].
    intros. apply framed_ret.
Qed.

(** [executeStep] catches what its command throws. *)
Lemma total_executeStep step job : total (Orchestrator.executeStep step job).
Proof.
  unfold Orchestrator.executeStep.
  apply total_bind; [apply total_Date_now |]. intros startedAt.
  apply total_bind.
  - apply total_try_catch. intros; apply total_ret.
  - intros result. apply total_bind; [apply total_Date_now |].
    intros. apply total_ret.
Qed.

(** The cache helpers of the orchestrator swallow every exception. *)
Lemma total_restoreCache job : total (Orchestrator.restoreCache job).
Proof.
  unfold Orchestrator.restoreCache. case_match; [apply total_ret |].
  apply total_try_catch. intros; apply total_ret.
Qed.

Lemma framed_restoreCache_job job : framed (Orchestrator.restoreCache job).
Proof.
  unfold Orchestrator.restoreCache. case_match; [apply framed_ret |].
  apply framed_try_catch; [| intros; apply framed_ret].
  apply framed_bind; [apply framed_generateCacheKey |]. intros cacheKey.
  apply framed_bind; [apply framed_restoreCache | intros; apply framed_ret].
Qed.

Lemma total_saveCache job : total (Orchestrator.saveCache job).
Proof.
  unfold Orchestrator.saveCache. case_match; [apply total_ret |].
  apply total_try_catch. intros; apply total_ret.
Qed.

Lemma framed_saveCache_job job : framed (Orchestrator.saveCache job).
Proof.
  unfold Orchestrator.saveCache. case_match; [apply framed_ret |].
  apply framed_try_catch; [| intros; apply framed_ret].
  apply framed_bind; [apply framed_generateCacheKey |]. intros cacheKey.
  apply framed_bind; [apply framed_saveCache | intros; apply framed_ret].
Qed.

Lemma framed_createSnapshot jobId commit paths :
  framed (StateManager.createSnapshot jobId commit paths).
Proof.
  unfold StateManager.createSnapshot.
  apply framed_bind; [apply framed_Date_now |]. intros timestamp.
  apply framed_bind; [apply framed_sandbox_exec |]. intros _.
  apply framed_bind; [apply framed_sandbox_readFile |]. intros archiveContent.
  apply framed_bind; [apply framed_await, framed_modify; intros w; by apply frame_same |].
  intros _.
  apply framed_bind; [apply framed_sandbox_exec |]. intros _. apply framed_ret.
Qed.

(** A step whose command the environment lets complete in time: the
    result records the exit code of the command. *)
Lemma executeStep_outcome step job w :
  fault_free w → within (Orchestrator.step_timeout step * 1000) w →
  ∃ result w' sb,
    Orchestrator.executeStep step job w = (Ok result, w')
    ∧ frame w w'
    ∧ StepResult.name result = JobStep.name step
    ∧ StepResult.status result
      = if decide (ExecResult.exitCode
                     (exec (JobStep.run step)
                           (Some (Orchestrator.step_workingDir step)) sb).1 = 0)
        then StepResult.success else StepResult.failure.
Proof.
  intros Hff Hin. unfold Orchestrator.executeStep.
  rewrite (bind_Ok _ _ w (World.clock w) w) by done.
  set (exports := match JobStep.env step with
                  | Some env => _
                  | None => Async.ret tt
                  end).
  assert (∃ w1, exports w = (Ok tt, w1) ∧ frame w w1) as (w1 & Hexports & Hframe1).
  { destruct (safe_run exports w) as ([] & w1 & ? & ?); [| | done | by exists w1].
    - subst exports. destruct (JobStep.env step);
        [apply safe_exports | apply total_safe, total_ret].
    - subst exports. destruct (JobStep.env step);
        [apply framed_exports | apply framed_ret]. }
  pose proof (frame_fault_free _ _ Hframe1 Hff) as Hff1.
  pose proof (frame_within _ _ _ Hframe1 Hin) as Hin1.
  set (w2 := World.advance (Tick.elapsed (World.next_tick w1)) w1).
  destruct (exec (JobStep.run step) (Some (Orchestrator.step_workingDir step))
                 (World.sandbox w1)) as [execResult sb'] eqn:Hexec.
  assert (sandbox_exec_race (JobStep.run step)
            (Some (Orchestrator.step_workingDir step))
            (Orchestrator.step_timeout step * 1000) w1
          = (Ok execResult, World.set_sandbox sb' w2)) as Hrace.
  { rewrite sandbox_exec_race_in_time by (by apply next_tick_within).
    unfold sandbox_exec. rewrite await_fault_free by done.
    fold w2. change (World.sandbox w2) with (World.sandbox w1). by rewrite Hexec. }
  match goal with
  | |- context [Async.try_catch ?body ?handler] =>
      assert (∃ result,
                Async.try_catch body handler w
                = (Ok result, World.set_sandbox sb' w2)
                ∧ StepResult.name result = JobStep.name step
                ∧ StepResult.status result
                  = if decide (ExecResult.exitCode execResult = 0)
                    then StepResult.success else StepResult.failure)
        as (result & Htry & Hname & Hstatus)
  end.
  { eexists. split; [| split].
    - apply try_catch_Ok.
      rewrite (bind_Ok _ _ _ _ _ Hexports). rewrite (bind_Ok _ _ _ _ _ Hrace).
      reflexivity.
    - done.
    - done. }
  rewrite (bind_Ok _ _ _ _ _ Htry).
  eexists _, (World.set_sandbox sb' w2), (World.sandbox w1).
  split; [reflexivity |]. split; [| split].
  - eapply frame_trans; [done |].
    apply (frame_trans _ w2); [apply frame_advance | by apply frame_same].
  - done.
  - rewrite Hexec. cbn [fst]. rewrite <- Hstatus. done.
Qed.
End OrchestratorFacts.

Section CacheWitnesses.
Import RunSpec CacheSpec Toy.



Lemma restoreCache_miss_witness :
  World.cache_bucket lock_a !! CacheManager.archiveKey "repo-abc123-19df93355040" = None
  ∧ Tick.fault (World.next_tick lock_a) = None
  ∧ ∃ w',
      CacheManager.restoreCache "repo-abc123-19df93355040" lock_a = (Ok false, w')
      ∧ World.sandbox w' = World.sandbox lock_a
      ∧ World.metrics_kv w' = World.metrics_kv lock_a
      ∧ World.cache_bucket w' = World.cache_bucket lock_a.
Proof.
  assert (World.cache_bucket lock_a
            !! CacheManager.archiveKey "repo-abc123-19df93355040" = None) as Hmiss.
  { reflexivity. }
  assert (Tick.fault (World.next_tick lock_a) = None) as Hprobe.
  { reflexivity. }
  split; [exact Hmiss |]. split; [exact Hprobe |].
  exact (restoreCache_miss "repo-abc123-19df93355040" lock_a Hmiss Hprobe).
Defined.
End CacheWitnesses.

(** ** Running a job *)

Section ExecuteJob.
Context {S : Type} `{!ISandbox S} `{!Base64}.
Import RunSpec CacheSpec JobQueue QueueSpec OrchestratorSpec.
Implicit Types (w : World.t S) (job : JobConfig.t) (step : JobStep.t)
  (status : JobStatus.t).

Local Open Scope async_scope.

Lemma jobQueue_updateJobStatus_fault_free jobId status w :
  fault_free w →
  ∃ w',
    jobQueue_updateJobStatus jobId status w = (Ok tt, w')
    ∧ later w w'
    ∧ World.queue_kv w' = updateJobStatus jobId status (World.queue_kv w).
Proof.
  intros Hw. unfold jobQueue_updateJobStatus. rewrite await_fault_free by done.
  eexists. split; [done |]. split; [| done]. apply later_advance.
Qed.

(** One turn of the loop when the environment lets every call through in
    time. *)
Lemma step_loop_turn job i step rest status w :
  fault_free w → within (Orchestrator.step_timeout step * 1000) w →
  ∃ result w' sb,
    later w w'
    ∧ StepResult.name result = JobStep.name step
    ∧ StepResult.status result
      = (if decide (ExecResult.exitCode
                      (exec (JobStep.run step)
                            (Some (Orchestrator.step_workingDir step)) sb).1 = 0)
         then StepResult.success else StepResult.failure)
    ∧ Orchestrator.step_loop job i (step :: rest) (status, w)
      = if stops step result
        then (Ok tt, (record_stop step (record_step i result status), w'))
        else Orchestrator.step_loop job (Datatypes.S i) rest
               (record_step i result status, w').
Proof.
  intros Hff Hin.
  destruct (jobQueue_updateJobStatus_fault_free (JobConfig.id job)
              (JobStatus.set_currentStep (Some (Z.of_nat i)) status) w Hff)
    as (w1 & Hupdate & Hlater1 & _).
  destruct (executeStep_outcome step job w1) as (result & w2 & sb & Hstep & Hframe & Hname & Hstatus).
  { by eapply later_fault_free. }
  { by eapply later_within. }
  exists result, w2, sb.
  split; [eapply later_trans; [done | apply Hframe] |].
  split; [done |]. split; [done |].
  cbn [Orchestrator.step_loop].
  erewrite bind_Ok by reflexivity. erewrite bind_Ok by reflexivity.
  cbn [fst].
  erewrite bind_Ok by (by apply lift_Ok).
  erewrite bind_Ok by (by apply lift_Ok).
  erewrite bind_Ok by reflexivity.
  fold (stops step result). unfold record_stop, record_step.
  destruct (stops step result); reflexivity.
Qed.

Lemma executeJob_body_unfold job :
  Orchestrator.executeJob_body job
  = (Async.lift (Orchestrator.setupWorkspace job) ;;;
     cacheHit <- Async.lift (Orchestrator.restoreCache job) ;;
     Orchestrator.step_loop job 0 (JobConfig.steps job) ;;;
     after_loop job).
Proof. reflexivity. Qed.

(** Up to the step loop, when no call is made to reject. *)
Lemma executeJob_body_fault_free job status w :
  fault_free w →
  ∃ w',
    frame w w'
    ∧ Orchestrator.executeJob_body job (status, w)
      = (Orchestrator.step_loop job 0 (JobConfig.steps job) ;;; after_loop job)
          (status, w').
Proof.
  intros Hff. rewrite executeJob_body_unfold.
  destruct (safe_run (Orchestrator.setupWorkspace job) w)
    as ([] & w1 & Hsetup & Hframe1);
    [apply safe_setupWorkspace | apply framed_setupWorkspace | done |].
  destruct (total_run (Orchestrator.restoreCache job) w1)
    as (cacheHit & w2 & Hrestore & Hframe2);
    [apply total_restoreCache | apply framed_restoreCache_job |].
  exists w2. split; [by eapply frame_trans |].
  erewrite bind_Ok by (by apply lift_Ok).
  by erewrite bind_Ok by (by apply lift_Ok).
Qed.

(** After the loop, a status that is not success and whose steps did not
    all succeed is left alone: nothing is saved and no snapshot taken. *)
Lemma after_loop_unsuccessful job status w :
  Orchestrator.all_steps_succeeded status = false →
  JobStatus.status status ≠ JobStatus.success →
  after_loop job (status, w) = (Ok tt, (status, w)).
Proof.
  intros Hsteps Hstatus. unfold after_loop.
  erewrite bind_Ok by reflexivity. cbn [fst]. rewrite Hsteps.
  erewrite bind_Ok by reflexivity.
  erewrite bind_Ok by reflexivity. cbn [fst].
  rewrite bool_decide_eq_false_2 by done. cbn [andb].
  erewrite bind_Ok by reflexivity.
  erewrite bind_Ok by reflexivity. cbn [fst].
  by rewrite bool_decide_eq_false_2 by done.
Qed.

(** The [finally] clause when its status write goes through. *)
Lemma executeJob_finally_written job status w :
  Tick.fault (World.next_tick w) = None →
  ∃ w',
    Orchestrator.executeJob_finally job (status, w)
    = (Ok tt, (finalize (World.clock w) status, w'))
    ∧ later w w'
    ∧ World.queue_kv w'
      = updateJobStatus (JobConfig.id job) (finalize (World.clock w) status)
          (World.queue_kv w).
Proof.
  intros Hwrite. unfold Orchestrator.executeJob_finally.
  erewrite bind_Ok by (by apply lift_Ok).
  erewrite bind_Ok by reflexivity.
  erewrite bind_Ok by reflexivity.
  erewrite bind_Ok by reflexivity. cbn [fst snd].
  unfold jobQueue_updateJobStatus, Async.lift, await. rewrite Hwrite.
  eexists. split; [reflexivity |]. split; [apply later_advance | done].
Qed.

(** The [finally] clause when its status write is rejected: the
    exception leaves [executeJob]. *)
Lemma executeJob_finally_rejected job status w msg :
  Tick.fault (World.next_tick w) = Some msg →
  (Orchestrator.executeJob_finally job (status, w)).1 = Throw msg.
Proof.
  intros Hwrite. unfold Orchestrator.executeJob_finally.
  erewrite bind_Ok by (by apply lift_Ok).
  erewrite bind_Ok by reflexivity.
  erewrite bind_Ok by reflexivity.
  erewrite bind_Ok by reflexivity. cbn [fst snd].
  unfold jobQueue_updateJobStatus, Async.lift, await. by rewrite Hwrite.
Qed.

(** [executeJob] once the status record has been read. *)
Lemma executeJob_read job status w :
  Tick.fault (World.next_tick w) = None →
  getJobStatus (JobConfig.id job) (World.queue_kv w) = Some status →
  Orchestrator.executeJob job w
  = match (Orchestrator.executeJob_guarded job ;;; Orchestrator.executeJob_finally job)
            (status, World.advance (Tick.elapsed (World.next_tick w)) w) with
    | (Ok _, (status, w)) => (Ok status, w)
    | (Throw error, (_, w)) => (Throw error, w)
    end.
Proof.
  intros Hread Hget. unfold Orchestrator.executeJob.
  rewrite (bind_Ok _ _ w (Some status)
             (World.advance (Tick.elapsed (World.next_tick w)) w)); [done |].
  unfold jobQueue_getJobStatus, await. rewrite Hread.
  cbn [World.queue_kv World.advance]. by rewrite Hget.
Qed.

(** The [try] block with its [catch] clause never throws; what the block
    throws becomes the status failure with the message as error. *)
Lemma executeJob_guarded_catches job status w :
  ∃ status' w',
    Orchestrator.executeJob_guarded job (status, w) = (Ok tt, (status', w'))
    ∧ (∀ result, Orchestrator.executeJob_body job (status, w) = (Ok tt, result) →
                 (status', w') = result)
    ∧ (∀ msg status1 w1,
         Orchestrator.executeJob_body job (status, w) = (Throw msg, (status1, w1)) →
         status' = record_error msg status1 ∧ w' = w1).
Proof.
  unfold Orchestrator.executeJob_guarded, Async.try_catch.
  destruct (Orchestrator.executeJob_body job (status, w))
    as [[[] | msg] [status1 w1]] eqn:Hbody.
  - exists status1, w1. split; [done |]. split; [by intros ? [= <-] | done].
  - exists (record_error msg status1), w1. split; [done |].
    split; [done |]. by intros ? ? ? [= <- <- <-].
Qed.


(** C1, what the code does. Steps [A; B] where the command of A fails
    with [continueOnError] set and that of B succeeds, run from a status
    in running: both steps run, and the status [executeJob] returns and
    persists is still running (with [finishedAt] stamped), not failure. *)
Theorem executeJob_continue_leaves_running job A B status0 w
    (Hsteps : JobConfig.steps job = [A; B])
    (Hsoft : JobStep.continueOnError A = Some true)
    (HA : ∀ dir sb, ExecResult.exitCode (exec (JobStep.run A) dir sb).1 ≠ 0)
    (HB : ∀ dir sb, ExecResult.exitCode (exec (JobStep.run B) dir sb).1 = 0)
    (Hget : getJobStatus (JobConfig.id job) (World.queue_kv w) = Some status0)
    (Hrunning : JobStatus.status status0 = JobStatus.running)
    (Hslots : JobStatus.steps status0 = JobStatus.steps (initial_status job))
    (Hff : fault_free w)
    (HinA : within (Orchestrator.step_timeout A * 1000) w)
    (HinB : within (Orchestrator.step_timeout B * 1000) w) :
  ∃ status w',
    Orchestrator.executeJob job w = (Ok status, w')
    ∧ getJobStatus (JobConfig.id job) (World.queue_kv w') = Some status
    ∧ StepResult.status <$> JobStatus.steps status
      = [StepResult.failure; StepResult.success]
    ∧ JobStatus.status status = JobStatus.running
    ∧ JobStatus.error status = JobStatus.error status0
    ∧ is_Some (JobStatus.finishedAt status).
Proof.
  rewrite (executeJob_read job status0 w (next_tick_fault_free _ Hff) Hget).
  set (w0 := World.advance _ w).
  assert (later w w0) as Hl0 by apply later_advance.
  destruct (executeJob_body_fault_free job status0 w0) as (w1 & [Hl1 _] & Hbody).
  { by eapply later_fault_free. }
  pose proof (later_trans _ _ _ Hl0 Hl1) as Hlw1.
  rewrite Hsteps in Hbody.
  destruct (step_loop_turn job 0 A [B] status0 w1)
    as (rA & w2 & sbA & Hl2 & HnameA & HstatusA & HturnA).
  { by eapply later_fault_free. }
  { by eapply later_within. }
  rewrite decide_False in HstatusA by apply HA.
  assert (stops A rA = false) as HstopA.
  { unfold stops. by rewrite Hsoft, andb_false_r. }
  rewrite HstopA in HturnA.
  pose proof (later_trans _ _ _ Hlw1 Hl2) as Hlw2.
  destruct (step_loop_turn job 1 B [] (record_step 0 rA status0) w2)
    as (rB & w3 & sbB & Hl3 & HnameB & HstatusB & HturnB).
  { by eapply later_fault_free. }
  { by eapply later_within. }
  rewrite decide_True in HstatusB by apply HB.
  assert (stops B rB = false) as HstopB.
  { unfold stops. by rewrite HstatusB. }
  rewrite HstopB in HturnB. cbn [Orchestrator.step_loop] in HturnB.
  pose proof (later_trans _ _ _ Hlw2 Hl3) as Hlw3.
  set (status3 := record_step 1 rB (record_step 0 rA status0)) in *.
  assert (JobStatus.steps status3 = [rA; rB]) as Hsteps3.
  { subst status3. unfold record_step. cbn.
    rewrite Hslots. unfold initial_status. cbn. by rewrite Hsteps. }
  assert (JobStatus.status status3 = JobStatus.running) as Hstatus3 by done.
  assert (JobStatus.error status3 = JobStatus.error status0) as Herror3 by done.
  clearbody status3.
  assert (Orchestrator.executeJob_body job (status0, w0) = (Ok tt, (status3, w3)))
    as Hrun.
  { rewrite Hbody.
    erewrite bind_Ok by (rewrite HturnA; apply HturnB).
    apply after_loop_unsuccessful; [| by rewrite Hstatus3].
    unfold Orchestrator.all_steps_succeeded. rewrite Hsteps3. cbn.
    by rewrite HstatusA. }
  destruct (executeJob_finally_written job status3 w3) as (w4 & Hfin & _ & Hkv).
  { apply next_tick_fault_free. by eapply later_fault_free. }
  exists (finalize (World.clock w3) status3), w4.
  assert (∀ now,
            JobStatus.status (finalize now status3) = JobStatus.status status3
            ∧ JobStatus.error (finalize now status3) = JobStatus.error status3
            ∧ JobStatus.steps (finalize now status3) = JobStatus.steps status3
            ∧ JobStatus.finishedAt (finalize now status3) = Some now)
    as Hfinal.
  { intros now. unfold finalize. by case_match. }
  destruct (Hfinal (World.clock w3)) as (-> & -> & -> & ->).
  split; [| split; [| split; [| split; [| split]]]].
  - erewrite bind_Ok; [by rewrite Hfin |].
    unfold Orchestrator.executeJob_guarded. by apply try_catch_Ok.
  - rewrite Hkv. apply getJobStatus_updateJobStatus.
  - rewrite Hsteps3. cbn. congruence.
  - done.
  - done.
  - by eexists.
Qed.

Lemma executeJob_body_setup_throws job status w msg w' :
  Orchestrator.setupWorkspace job w = (Throw msg, w') →
  Orchestrator.executeJob_body job (status, w) = (Throw msg, (status, w')).
Proof.
  intros Hsetup. rewrite executeJob_body_unfold.
  by erewrite bind_Throw by (by apply lift_Throw).
Qed.

(** What the body of the [try] block throws, the [catch] clause turns
    into the status failure. *)
Lemma executeJob_body_caught job σ msg σ' :
  Orchestrator.executeJob_body job σ = (Throw msg, σ') → caught job σ msg.
Proof.
  destruct σ as [status w], σ' as [status' w']. intros Hbody.
  destruct (executeJob_guarded_catches job status w)
    as (status1 & w1 & Hguarded & _ & Hcaught).
  destruct (Hcaught _ _ _ Hbody) as [-> _]. by exists (record_error msg status'), w1.
Qed.

(** What the loop throws, the body throws. *)
Lemma executeJob_body_loop_throws job status w w1 cacheHit w2 msg σ :
  Orchestrator.setupWorkspace job w = (Ok tt, w1) →
  Orchestrator.restoreCache job w1 = (Ok cacheHit, w2) →
  Orchestrator.step_loop job 0 (JobConfig.steps job) (status, w2) = (Throw msg, σ) →
  Orchestrator.executeJob_body job (status, w) = (Throw msg, σ).
Proof.
  intros Hsetup Hrestore Hloop. rewrite executeJob_body_unfold.
  erewrite bind_Ok by (by apply lift_Ok).
  erewrite bind_Ok by (by apply lift_Ok).
  by erewrite bind_Throw.
Qed.

(** One turn of the loop, whatever the environment does. *)
Lemma step_loop_cons job i step rest status w :
  Orchestrator.step_loop job i (step :: rest) (status, w)
  = let status1 := JobStatus.set_currentStep (Some (Z.of_nat i)) status in
    match jobQueue_updateJobStatus (JobConfig.id job) status1 w with
    | (Throw msg, w1) => (Throw msg, (status1, w1))
    | (Ok _, w1) =>
        match Orchestrator.executeStep step job w1 with
        | (Throw msg, w2) => (Throw msg, (status1, w2))
        | (Ok result, w2) =>
            if stops step result
            then (Ok tt, (record_stop step (record_step i result status), w2))
            else Orchestrator.step_loop job (Datatypes.S i) rest
                   (record_step i result status, w2)
        end
    end.
Proof.
  cbn [Orchestrator.step_loop]. cbv zeta.
  erewrite bind_Ok by reflexivity. erewrite bind_Ok by reflexivity.
  cbn [fst].
  destruct (jobQueue_updateJobStatus _ _ w) as [[[] | msg] w1] eqn:Hwrite.
  - erewrite bind_Ok by (by apply lift_Ok).
    destruct (Orchestrator.executeStep step job w1) as [[result | msg] w2] eqn:Hstep.
    + erewrite bind_Ok by (by apply lift_Ok).
      erewrite bind_Ok by reflexivity.
      fold (stops step result). unfold record_stop, record_step.
      destruct (stops step result); reflexivity.
    + by erewrite bind_Throw by (by apply lift_Throw).
  - by erewrite bind_Throw by (by apply lift_Throw).
Qed.

(** A status write of the loop that is rejected makes the loop throw. *)
Lemma step_loop_write_rejected job i step rest status w msg :
  Tick.fault (World.next_tick w) = Some msg →
  ∃ σ, Orchestrator.step_loop job i (step :: rest) (status, w) = (Throw msg, σ).
Proof.
  intros Hfault. rewrite step_loop_cons. cbv zeta.
  unfold jobQueue_updateJobStatus, await. rewrite Hfault. by eexists.
Qed.

(** The loop over all the steps is, once it has run the first of them
    without a stop, the loop over the others. *)
Lemma step_loop_reaches job steps1 steps2 i σ σ' :
  loop_reaches job i steps1 σ σ' →
  Orchestrator.step_loop job i (steps1 ++ steps2) σ
  = Orchestrator.step_loop job (i + length steps1) steps2 σ'.
Proof.
  revert i σ. induction steps1 as [| step steps1 IH]; intros i [status w] Hreach.
  { cbn in Hreach. subst σ'. cbn [app length]. by rewrite Nat.add_0_r. }
  cbn [loop_reaches fst snd] in Hreach.
  destruct Hreach as (w1 & result & w2 & Hwrite & Hstep & Hgoes & Hreach).
  cbn [app length]. rewrite step_loop_cons. cbv zeta.
  rewrite Hwrite, Hstep, Hgoes, (IH _ _ Hreach). f_equal. lia.
Qed.

(** The [try] block from the end of a loop whose steps have all
    succeeded. *)
Lemma after_loop_succeeded job status w :
  Orchestrator.all_steps_succeeded status = true →
  after_loop job (status, w)
  = (Async.lift (StateManager.createSnapshot (JobConfig.id job)
                   (JobConfig.commit job) StateManager.default_paths) ;;;
     Async.ret tt)
      (JobStatus.set_status JobStatus.success status, snapshot_world job w).
Proof.
  intros Hall. unfold after_loop, snapshot_world.
  erewrite bind_Ok by reflexivity. cbn [fst]. rewrite Hall.
  erewrite bind_Ok by reflexivity.
  erewrite bind_Ok by reflexivity. cbn [fst snd].
  rewrite bool_decide_eq_true_2 by done. cbn [andb].
  destruct (Orchestrator.no_cacheKeys job); cbn [negb].
  - erewrite bind_Ok by reflexivity.
    erewrite bind_Ok by reflexivity. cbn [fst snd].
    by rewrite bool_decide_eq_true_2 by done.
  - destruct (total_saveCache job w) as [[] Hsave].
    erewrite bind_Ok; cycle 1.
    { apply lift_Ok. apply injective_projections; [exact Hsave | reflexivity]. }
    erewrite bind_Ok by reflexivity. cbn [fst snd].
    by rewrite bool_decide_eq_true_2 by done.
Qed.

(** C7, as amended. Once the status record has been read, the [try]
    block of [executeJob] with its [catch] clause never throws, and what
    its body throws is caught and makes the status failure with the
    message as error. The body throws, and the status is failure with
    the message, when the workspace setup throws; when the loop of the
    steps throws, which it does when the status write before a step is
    rejected, the first step or one the loop has reached without a
    stop; and when the creation of the snapshot throws after steps that
    have all succeeded. The cache helpers swallow the
    exceptions of cache restore and cache save. And when the status
    write of the [finally] clause is not rejected, [executeJob] returns
    the status and has persisted it. *)
Theorem executeJob_catch_boundary job status0 w
    (Hread : Tick.fault (World.next_tick w) = None)
    (Hget : getJobStatus (JobConfig.id job) (World.queue_kv w) = Some status0) :
  let w0 := World.advance (Tick.elapsed (World.next_tick w)) w in
  (∃ status1 w1,
     Orchestrator.executeJob_guarded job (status0, w0) = (Ok tt, (status1, w1))
     ∧ (∀ msg status' w',
          Orchestrator.executeJob_body job (status0, w0)
          = (Throw msg, (status', w')) →
          JobStatus.status status1 = JobStatus.failure
          ∧ JobStatus.error status1 = Some msg)
     ∧ (Tick.fault (World.next_tick w1) = None →
        ∃ status w',
          Orchestrator.executeJob job w = (Ok status, w')
          ∧ getJobStatus (JobConfig.id job) (World.queue_kv w') = Some status
          ∧ status = finalize (World.clock w1) status1))
  ∧ (∀ msg w',
       Orchestrator.setupWorkspace job w0 = (Throw msg, w') →
       Orchestrator.executeJob_body job (status0, w0) = (Throw msg, (status0, w'))
       ∧ caught job (status0, w0) msg)
  ∧ (∀ w1 cacheHit w2,
       Orchestrator.setupWorkspace job w0 = (Ok tt, w1) →
       Orchestrator.restoreCache job w1 = (Ok cacheHit, w2) →
       (∀ msg σ,
          Orchestrator.step_loop job 0 (JobConfig.steps job) (status0, w2)
          = (Throw msg, σ) →
          caught job (status0, w0) msg)
       ∧ (∀ steps1 step steps2 status1 w3 msg,
            JobConfig.steps job = (steps1 ++ step :: steps2)%list →
            loop_reaches job 0 steps1 (status0, w2) (status1, w3) →
            Tick.fault (World.next_tick w3) = Some msg →
            caught job (status0, w0) msg)
       ∧ (∀ status1 w3 msg w4,
            Orchestrator.step_loop job 0 (JobConfig.steps job) (status0, w2)
            = (Ok tt, (status1, w3)) →
            Orchestrator.all_steps_succeeded status1 = true →
            StateManager.createSnapshot (JobConfig.id job) (JobConfig.commit job)
              StateManager.default_paths (snapshot_world job w3)
            = (Throw msg, w4) →
            caught job (status0, w0) msg))
  ∧ total (Orchestrator.restoreCache job)
  ∧ total (Orchestrator.saveCache job).
Proof.
  intros w0. split; [| split; [| split; [| split]]].
  - destruct (executeJob_guarded_catches job status0 w0)
      as (status1 & w1 & Hguarded & _ & Hcaught).
    exists status1, w1. split; [done |]. split.
    + intros msg status' w' Hbody.
      by destruct (Hcaught _ _ _ Hbody) as [-> _].
    + intros Hwrite.
      destruct (executeJob_finally_written job status1 w1 Hwrite)
        as (w2 & Hfin & _ & Hkv).
      exists (finalize (World.clock w1) status1), w2.
      split; [| split; [| done]].
      * rewrite (executeJob_read job status0 w Hread Hget). fold w0.
        by rewrite (bind_Ok _ _ _ _ _ Hguarded), Hfin.
      * rewrite Hkv. apply getJobStatus_updateJobStatus.
  - intros msg w' Hsetup.
    pose proof (executeJob_body_setup_throws job status0 w0 msg w' Hsetup) as Hbody.
    split; [done |]. by eapply executeJob_body_caught.
  - intros w1 cacheHit w2 Hsetup Hrestore.
    assert (∀ msg σ,
              Orchestrator.step_loop job 0 (JobConfig.steps job) (status0, w2)
              = (Throw msg, σ) →
              caught job (status0, w0) msg) as Hloop.
    { intros msg σ Hthrow. eapply executeJob_body_caught.
      by eapply executeJob_body_loop_throws. }
    split; [exact Hloop |]. split.
    + intros steps1 step steps2 status1 w3 msg Hsteps Hreach Hfault.
      destruct (step_loop_write_rejected job (0 + length steps1) step steps2
                  status1 w3 msg Hfault) as [σ Hthrow].
      apply (Hloop msg σ). rewrite Hsteps.
      by rewrite (step_loop_reaches job steps1 (step :: steps2) 0 _ _ Hreach).
    + intros status1 w3 msg w4 Hdone Hall Hsnap.
      eapply executeJob_body_caught. rewrite executeJob_body_unfold.
      erewrite bind_Ok by (by apply lift_Ok).
      erewrite bind_Ok by (by apply lift_Ok).
      erewrite bind_Ok by exact Hdone.
      rewrite (after_loop_succeeded job status1 w3 Hall).
      by erewrite bind_Throw by (by apply lift_Throw).
  - apply total_restoreCache.
  - apply total_saveCache.
Qed.
End ExecuteJob.

Section ExecuteJobWitnesses.
Import RunSpec CacheSpec JobQueue QueueSpec OrchestratorSpec.

Lemma fault_free_no_script (sb : Toy.Sandbox) kv : fault_free (Toy.world sb kv []).
Proof. constructor. Qed.

Lemma within_no_script (sb : Toy.Sandbox) kv budget :
  0 < budget → within budget (Toy.world sb kv []).
Proof. intros Hb. by repeat constructor. Qed.


Lemma executeJob_continue_leaves_running_witness :
  ∃ status w',
    Orchestrator.executeJob Toy.continue_job Toy.continue_world = (Ok status, w')
    ∧ getJobStatus "continue" (World.queue_kv w') = Some status
    ∧ StepResult.status <$> JobStatus.steps status
      = [StepResult.failure; StepResult.success]
    ∧ JobStatus.status status = JobStatus.running
    ∧ JobStatus.error status = None
    ∧ is_Some (JobStatus.finishedAt status).
Proof.
  refine (executeJob_continue_leaves_running Toy.continue_job
            (JobStep.mk "Lint" "false # npm run lint" None None (Some true) None)
            (JobStep.mk "Test" "npm test" None None None None)
            (JobStatus.set_startedAt (Some 5)
               (JobStatus.set_status JobStatus.running
                  (initial_status Toy.continue_job)))
            Toy.continue_world eq_refl eq_refl _ _ _ eq_refl eq_refl _ _ _).
  - intros dir sb. discriminate.
  - intros dir sb. reflexivity.
  - by vm_compute.
  - apply fault_free_no_script.
  - by apply within_no_script.
  - by apply within_no_script.
Defined.

(** C7 fails as stated: the probe of the blob store in [restoreCache]
    throws, and the job ends in success with no error recorded. *)
Lemma executeJob_swallows_cache_restore_exception :
  (CacheManager.restoreCache "https://github.com/user/repo-abc123-19df93355040"
     Toy.probe_world).1 = Throw "R2 unavailable"
  ∧ World.script (Orchestrator.executeJob Toy.cached_job Toy.outage_world).2 = []
  ∧ match (Orchestrator.executeJob Toy.cached_job Toy.outage_world).1 with
    | Ok status =>
        JobStatus.status status = JobStatus.success
        ∧ JobStatus.error status = None
    | Throw _ => False
    end.
Proof.
  split; [by vm_compute |]. split; by vm_compute.
Qed.

(** The status write of the [finally] clause is outside the [catch]:
    when it is rejected, [executeJob] throws. *)
Lemma executeJob_final_write_escapes :
  (Orchestrator.executeJob Toy.stop_job Toy.final_write_fails_world).1
  = Throw "KV unavailable".
Proof. by vm_compute. Qed.

(** A status write of the loop that is rejected, here the one before
    the second step, ends the job in failure with the message. *)
Lemma executeJob_status_write_caught :
  match (Orchestrator.executeJob Toy.stop_job Toy.loop_write_fails_world).1 with
  | Ok status =>
      JobStatus.status status = JobStatus.failure
      ∧ JobStatus.error status = Some "KV unavailable"
      ∧ StepResult.status <$> JobStatus.steps status
        = [StepResult.success; StepResult.pending; StepResult.pending]
  | Throw _ => False
  end.
Proof. by vm_compute. Qed.

Lemma executeJob_catch_boundary_witness :
  Tick.fault (World.next_tick Toy.checkout_fails_world) = None
  ∧ getJobStatus "cached" (World.queue_kv Toy.checkout_fails_world)
    = Some (JobStatus.set_startedAt (Some 5)
              (JobStatus.set_status JobStatus.running
                 (initial_status Toy.cached_job)))
  ∧ (∃ status w',
       Orchestrator.executeJob Toy.cached_job Toy.checkout_fails_world
       = (Ok status, w')
       ∧ JobStatus.status status = JobStatus.failure
       ∧ JobStatus.error status = Some "checkout failed")
  ∧ caught Toy.stop_job
      (JobStatus.set_startedAt (Some 5)
         (JobStatus.set_status JobStatus.running (initial_status Toy.stop_job)),
       World.advance 0 Toy.loop_write_fails_world)
      "KV unavailable".
Proof.
  assert (Tick.fault (World.next_tick Toy.checkout_fails_world) = None) as Hread.
  { reflexivity. }
  assert (getJobStatus (JobConfig.id Toy.cached_job)
            (World.queue_kv Toy.checkout_fails_world)
          = Some (JobStatus.set_startedAt (Some 5)
                    (JobStatus.set_status JobStatus.running
                       (initial_status Toy.cached_job)))) as Hget.
  { by vm_compute. }
  split; [exact Hread |]. split; [exact Hget |]. split.
  - destruct (executeJob_catch_boundary Toy.cached_job _ _ Hread Hget)
      as [(status1 & w1 & Hguarded & Hcaught & Hreturn) _].
    assert (Tick.fault (World.next_tick w1) = None) as Hwrite.
    { match type of Hguarded with
      | ?run = _ => replace w1 with (run.2.2) by (by rewrite Hguarded)
      end.
      by vm_compute. }
    destruct (Hreturn Hwrite) as (status & w' & Hrun & _ & ->).
    exists (finalize (World.clock w1) status1), w'. split; [exact Hrun |].
    assert (JobStatus.status status1 = JobStatus.failure
            ∧ JobStatus.error status1 = Some "checkout failed") as [Hs He].
    { apply (Hcaught "checkout failed"
               (JobStatus.set_startedAt (Some 5)
                  (JobStatus.set_status JobStatus.running
                     (initial_status Toy.cached_job)))
               (Orchestrator.setupWorkspace Toy.cached_job
                  (World.advance 0 Toy.checkout_fails_world)).2).
      by vm_compute. }
    clear Hguarded Hcaught Hreturn Hrun Hwrite Hread Hget.
    unfold finalize. cbn zeta.
    destruct (JS.truthy _); destruct status1; cbn in *; by subst.
  - clear Hread Hget.
    assert (getJobStatus (JobConfig.id Toy.stop_job)
              (World.queue_kv Toy.loop_write_fails_world)
            = Some (JobStatus.set_startedAt (Some 5)
                      (JobStatus.set_status JobStatus.running
                         (initial_status Toy.stop_job)))) as Hget.
    { vm_compute; reflexivity. }
    destruct (executeJob_catch_boundary Toy.stop_job _ Toy.loop_write_fails_world
                eq_refl Hget) as (_ & _ & Hloop & _).
    clear Hget.
    destruct (Hloop
                (Orchestrator.setupWorkspace Toy.stop_job
                   (World.advance 0 Toy.loop_write_fails_world)).2
                false
                (Orchestrator.setupWorkspace Toy.stop_job
                   (World.advance 0 Toy.loop_write_fails_world)).2)
      as (_ & Hwrite & _); [vm_compute; reflexivity | vm_compute; reflexivity |].
    clear Hloop.
    refine (Hwrite [JobStep.mk "Install" "npm ci" None None None None]
              (JobStep.mk "Test" "false # npm test" None None (Some false) None)
              [JobStep.mk "Build" "npm run build" None None None None]
              _ _ "KV unavailable" eq_refl _ _); clear Hwrite.
    + cbn [loop_reaches fst snd]. eexists _, _, _.
      split; [vm_compute; reflexivity |].
      split; [vm_compute; reflexivity |].
      split; [vm_compute; reflexivity |]. reflexivity.
    + vm_compute; reflexivity.
Defined.
End ExecuteJobWitnesses.

(** ** The job queue: round trips, edges and what an operation leaves alone *)

Section QueueRoundTrips.
Import JobQueue QueueSpec Fixtures.
Implicit Types (kv : KV) (key jobId : string).

(** A listing without duplicates is settled by its elements. *)
Lemma Kv_list_nil prefix kv :
  (∀ key, JS.startsWith key prefix = true → kv !! key = None) →
  Kv.list prefix kv = [].
Proof.
  intros Hnone. apply elem_of_nil_inv. intros key [Hp [v Hv]]%elem_of_Kv_list.
  by rewrite Hnone in Hv.
Qed.

Lemma Kv_list_singleton prefix kv key0 :
  (∀ key, key ∈ Kv.list prefix kv ↔ key = key0) →
  Kv.list prefix kv = [key0].
Proof.
  intros Hiff. pose proof (NoDup_Kv_list prefix kv) as Hnd.
  destruct (Kv.list prefix kv) as [| a [| b l]].
  - pose proof (proj2 (Hiff key0) eq_refl) as Hin. by apply elem_of_nil in Hin.
  - f_equal. apply Hiff. left.
  - assert (a = key0) as -> by (apply Hiff; left).
    assert (b = key0) as -> by (apply Hiff; right; left).
    apply NoDup_cons in Hnd as [Hnotin _]. destruct Hnotin. left.
Qed.

Lemma Kv_list_nil_inv prefix kv key :
  Kv.list prefix kv = [] → JS.startsWith key prefix = true → kv !! key = None.
Proof.
  intros Hnil Hp. destruct (kv !! key) eqn:Hv; [| done].
  assert (key ∈ Kv.list prefix kv) as Hin by (apply elem_of_Kv_list; eauto).
  rewrite Hnil in Hin. by apply elem_of_nil in Hin.
Qed.

Lemma lookup_enqueue_queue config now job kv key :
  JS.startsWith key "queue:" = true →
  enqueue config now job kv !! key
  = if decide (key = queueKey (default (defaultPriority config) (JobConfig.priority job))
                             now (JobConfig.id job))
    then Some (VJob job) else kv !! key.
Proof.
  intros Hq. unfold enqueue.
  rewrite lookup_updateJobStatus_ne by by apply queue_ne_statusKey.
  unfold Kv.put. rewrite lookup_insert. repeat case_decide; congruence.
Qed.

Lemma lookup_enqueue_other config now job kv key :
  JS.startsWith key "queue:" = false → key ≠ statusKey (JobConfig.id job) →
  enqueue config now job kv !! key = kv !! key.
Proof.
  intros Hq Hne. unfold enqueue. rewrite lookup_updateJobStatus_ne by done.
  unfold Kv.put. rewrite lookup_insert_ne; [done |].
  intros <-. by rewrite queueKey_startsWith in Hq.
Qed.

Lemma sort_singleton {A} (cmp : A → A → option Z) (x : A) : JS.sort cmp [x] = [x].
Proof. reflexivity. Qed.

Lemma enqueue_dequeue config now now' job kv :
  Kv.list "queue:" kv = [] →
  getRunningJobCount kv < maxConcurrent config →
  dequeue config now' (enqueue config now job kv)
  = (Some job,
     updateJobStatus (JobConfig.id job)
       (JobStatus.set_startedAt (Some now')
          (JobStatus.set_status JobStatus.running (initial_status job)))
       (base.delete
          (queueKey (default (defaultPriority config) (JobConfig.priority job))
                    now (JobConfig.id job))
          (enqueue config now job kv))).
Proof.
  intros Hnil Hroom.
  set (qk := queueKey _ now (JobConfig.id job)).
  assert (Kv.list "queue:" (enqueue config now job kv) = [qk]) as Hlist.
  { apply Kv_list_singleton. intros key. rewrite elem_of_Kv_list. split.
    - intros [Hq [v Hv]]. rewrite lookup_enqueue_queue in Hv by done.
      case_decide; [done |]. by rewrite (Kv_list_nil_inv _ _ _ Hnil Hq) in Hv.
    - intros ->. split; [apply queueKey_startsWith |].
      rewrite lookup_enqueue_queue by apply queueKey_startsWith.
      rewrite decide_True by done. by eexists. }
  unfold dequeue, dequeue_with. rewrite Hlist.
  pose proof (getRunningJobCount_enqueue config now job kv).
  destruct (Z.leb_spec (maxConcurrent config)
              (getRunningJobCount (enqueue config now job kv))); [lia |].
  unfold dequeue_listed. rewrite decide_False by done. rewrite sort_singleton.
  unfold Kv.get. rewrite lookup_enqueue_queue by apply queueKey_startsWith.
  rewrite decide_True by done. cbn [Kv.as_job].
  rewrite getJobStatus_delete_other
    by (apply startsWith_queue_not_status, queueKey_startsWith).
  by rewrite getJobStatus_enqueue.
Qed.

(** X1. A job enqueued on a store with nothing pending and room to run
    is what the next [dequeue] returns: its entry leaves the queue, its
    status record becomes running with [startedAt] at the time of the
    call and the step slots [enqueue] prepared, and the status records
    of other jobs are as they were. *)
Theorem enqueue_then_dequeue config now now' job kv
    (Hnone : Kv.list "queue:" kv = [])
    (Hroom : getRunningJobCount kv < maxConcurrent config) :
  ∃ kv',
    dequeue config now' (enqueue config now job kv) = (Some job, kv')
    ∧ Kv.list "queue:" kv' = []
    ∧ getJobStatus (JobConfig.id job) kv'
      = Some (JobStatus.set_startedAt (Some now')
                (JobStatus.set_status JobStatus.running (initial_status job)))
    ∧ ∀ jobId, jobId ≠ JobConfig.id job →
        getJobStatus jobId kv' = getJobStatus jobId kv.
Proof.
  eexists. split; [by apply enqueue_dequeue |]. split; [| split].
  - apply Kv_list_nil. intros key Hq.
    rewrite lookup_updateJobStatus_ne by by apply queue_ne_statusKey.
    destruct (decide (key = queueKey (default (defaultPriority config)
                                        (JobConfig.priority job))
                                     now (JobConfig.id job))) as [-> | Hne].
    + apply lookup_delete_eq.
    + rewrite lookup_delete_ne by done.
      rewrite lookup_enqueue_queue by done. rewrite decide_False by done.
      by apply (Kv_list_nil_inv _ _ _ Hnone).
  - apply getJobStatus_updateJobStatus.
  - intros jobId Hne. rewrite getJobStatus_updateJobStatus_ne by done.
    rewrite getJobStatus_delete_other
      by (apply startsWith_queue_not_status, queueKey_startsWith).
    by apply getJobStatus_enqueue_other.
Qed.

Lemma enqueue_then_dequeue_witness :
  Kv.list "queue:" retention_kv = []
  ∧ getRunningJobCount retention_kv < maxConcurrent default_config
  ∧ ∃ kv',
      dequeue default_config 20 (enqueue default_config 10 (a_job "new" 7) retention_kv)
      = (Some (a_job "new" 7), kv')
      ∧ Kv.list "queue:" kv' = []
      ∧ getJobStatus "new" kv'
        = Some (JobStatus.set_startedAt (Some 20)
                  (JobStatus.set_status JobStatus.running
                     (initial_status (a_job "new" 7))))
      ∧ ∀ jobId, jobId ≠ "new" →
          getJobStatus jobId kv' = getJobStatus jobId retention_kv.
Proof.
  assert (Kv.list "queue:" retention_kv = []) as Hnone by (by vm_compute).
  assert (getRunningJobCount retention_kv < maxConcurrent default_config) as Hroom.
  { by vm_compute. }
  split; [exact Hnone |]. split; [exact Hroom |].
  exact (enqueue_then_dequeue default_config 10 20 (a_job "new" 7) retention_kv
           Hnone Hroom).
Defined.

(** X2. [dequeue] answers no job exactly when the running jobs have
    reached [maxConcurrent], or the listing of the queue is empty, or
    the head of the sorted listing has no job for value, which the
    listing of an eventually consistent store allows; and when it
    answers no job it has changed nothing. When the listing is that of
    the store as it is and [enqueue] wrote its entries, the third case
    does not arise. *)
Theorem dequeue_null_iff config now listing kv :
  ((dequeue_with config now listing kv).1 = None ↔
     maxConcurrent config ≤ getRunningJobCount kv
     ∨ listing = []
     ∨ ∃ firstKey rest,
         JS.sort compareKeys listing = firstKey :: rest
         ∧ Kv.as_job (Kv.get firstKey kv) = None)
  ∧ ((dequeue_with config now listing kv).1 = None →
     (dequeue_with config now listing kv).2 = kv)
  ∧ (queue_wf kv →
     ((dequeue config now kv).1 = None ↔
        maxConcurrent config ≤ getRunningJobCount kv ∨ Kv.list "queue:" kv = [])).
Proof.
  split; [| split].
  - unfold dequeue_with.
    destruct (Z.leb_spec (maxConcurrent config) (getRunningJobCount kv)) as [? | Hroom].
    { split; [by left | done]. }
    unfold dequeue_listed. case_decide as Hlen.
    { apply length_zero_iff_nil in Hlen. split; [by right; left | done]. }
    destruct (JS.sort compareKeys listing) as [| firstKey rest] eqn:Hsort.
    { split; [| done]. intros _. right. left.
      apply (f_equal length) in Hsort.
      rewrite (Permutation_length (sort_Permutation _ _)) in Hsort.
      by apply length_zero_iff_nil. }
    destruct (Kv.as_job (Kv.get firstKey kv)) as [jobData |] eqn:Hjob.
    + split.
      * by destruct (getJobStatus _ _).
      * intros [? | [-> | (firstKey' & rest' & [= <- <-] & Hnone)]];
          [lia | cbn in Hlen; done | congruence].
    + split; [| done]. intros _. right. right. by exists firstKey, rest.
  - destruct (dequeue_with config now listing kv) as [[job |] kv'] eqn:Hdeq; [done |].
    intros _. cbn [snd]. unfold dequeue_with in Hdeq.
    destruct (_ <=? _); [by simplify_eq |].
    by apply dequeue_listed_None in Hdeq.
  - intros Hwf. split.
    + intros Hnull.
      destruct (Z.le_gt_cases (maxConcurrent config) (getRunningJobCount kv))
        as [? | Hroom]; [by left |]. right.
      destruct (Kv.list "queue:" kv) as [| key l] eqn:Hlist; [done |].
      destruct (dequeue_progress config now kv Hwf) as (job & kv' & Hdeq).
      * lia.
      * exists key. rewrite Hlist. left.
      * by rewrite Hdeq in Hnull.
    + intros [Hfull | Hnil].
      * by rewrite dequeue_at_capacity.
      * unfold dequeue, dequeue_with. rewrite Hnil.
        by destruct (_ <=? _).
Qed.

(** X3. A [dequeue] that returns a job writes the status record of that
    job and of no other: the record, when there is one, becomes running
    with [startedAt] at the time of the call and is otherwise kept; no
    record is made up when there is none; retained configurations are
    not touched. *)
Theorem dequeue_marks_running config now kv job kv'
    (Hdeq : dequeue config now kv = (Some job, kv')) :
  (∀ status, getJobStatus (JobConfig.id job) kv = Some status →
     getJobStatus (JobConfig.id job) kv'
     = Some (JobStatus.set_startedAt (Some now)
               (JobStatus.set_status JobStatus.running status)))
  ∧ (getJobStatus (JobConfig.id job) kv = None →
     getJobStatus (JobConfig.id job) kv' = None)
  ∧ (∀ jobId, jobId ≠ JobConfig.id job →
       getJobStatus jobId kv' = getJobStatus jobId kv)
  ∧ ∀ jobId, kv' !! jobKey jobId = kv !! jobKey jobId.
Proof.
  apply dequeue_Some in Hdeq as (_ & firstKey & rest & Hsort & Hjob & ->).
  assert (firstKey ∈ Kv.list "queue:" kv) as [Hq _]%elem_of_Kv_list.
  { rewrite <- (sort_Permutation compareKeys), Hsort. left. }
  pose proof (startsWith_queue_not_status _ Hq) as Hns.
  unfold after_dequeue.
  rewrite (getJobStatus_delete_other firstKey kv) by done.
  destruct (getJobStatus (JobConfig.id job) kv) as [status |] eqn:Hget.
  - split; [| split; [| split]].
    + intros ? [= <-]. apply getJobStatus_updateJobStatus.
    + done.
    + intros jobId Hne. rewrite getJobStatus_updateJobStatus_ne by done.
      by apply getJobStatus_delete_other.
    + intros jobId.
      rewrite lookup_updateJobStatus_ne
        by (intros Heq; by apply (statusKey_ne_jobKey (JobConfig.id job) jobId)).
      apply lookup_delete_ne. intros ->. by apply (queue_ne_jobKey _ jobId) in Hq.
  - split; [| split; [| split]].
    + done.
    + intros _. rewrite getJobStatus_delete_other by done. done.
    + intros jobId _. by apply getJobStatus_delete_other.
    + intros jobId. apply lookup_delete_ne. intros ->.
      by apply (queue_ne_jobKey _ jobId) in Hq.
Qed.

Lemma dequeue_marks_running_witness :
  ∃ kv',
    dequeue default_config 3 scenario_kv = (Some (a_job "B" 8), kv')
    ∧ getJobStatus "B" kv'
      = Some (JobStatus.set_startedAt (Some 3)
                (JobStatus.set_status JobStatus.running
                   (initial_status (a_job "B" 8))))
    ∧ (∀ jobId, jobId ≠ "B" → getJobStatus jobId kv' = getJobStatus jobId scenario_kv).
Proof.
  destruct (dequeue default_config 3 scenario_kv) as [job kv'] eqn:Hdeq.
  assert (job = Some (a_job "B" 8)) as ->.
  { pose proof (f_equal fst Hdeq) as Hjob. cbn [fst] in Hjob.
    rewrite <- Hjob. by vm_compute. }
  exists kv'. split; [done |].
  destruct (dequeue_marks_running default_config 3 scenario_kv (a_job "B" 8) kv' Hdeq)
    as (Hrec & _ & Hothers & _).
  split; [| exact Hothers].
  apply Hrec. by vm_compute.
Defined.
End QueueRoundTrips.

Section QueueCancelRetry.
Import JobQueue QueueSpec QueueSpec2 Fixtures.
Implicit Types (kv : KV) (key jobId : string).

Lemma cancelJob_unfold now jobId kv status :
  getJobStatus jobId kv = Some status →
  ∃ kv1,
    cancelJob now jobId kv
    = (true,
       updateJobStatus jobId
         (let status := JobStatus.set_finishedAt (Some now)
                          (JobStatus.set_status JobStatus.cancelled status) in
          if JS.truthy (JobStatus.startedAt status)
          then JobStatus.set_duration
                 (JS.sub (JobStatus.finishedAt status) (JobStatus.startedAt status))
                 status
          else status) kv1)
    ∧ (kv1 = kv
       ∨ JobStatus.status status = JobStatus.queued
         ∧ ∃ key, find (λ key, JS.endsWith key (":" +:+ jobId)) (Kv.list "queue:" kv)
                  = Some key
                  ∧ kv1 = base.delete key kv).
Proof.
  intros Hget. unfold cancelJob. rewrite Hget.
  case_decide as Hq.
  - destruct (find _ _) as [key |] eqn:Hfind.
    + eexists. split; [done |]. right. split; [done |]. by exists key.
    + eexists. split; [done |]. by left.
  - eexists. split; [done |]. by left.
Qed.

Lemma find_queue_key jobId kv key :
  find (λ key, JS.endsWith key (":" +:+ jobId)) (Kv.list "queue:" kv) = Some key →
  JS.startsWith key "queue:" = true ∧ JS.endsWith key (":" +:+ jobId) = true.
Proof.
  intros [Hin Hends]%find_some. split; [| done].
  apply list_elem_of_In, elem_of_Kv_list in Hin. by destruct Hin.
Qed.

(** X4. [cancelJob] answers [false] and changes nothing when the job has
    no status record. Otherwise it answers [true] whatever the status
    was, and the record becomes cancelled with [finishedAt] at the time
    of the call, with [duration] counted from [startedAt] when the job
    had started, and with its other fields kept; the status records of
    other jobs and the retained configurations are not touched. *)
Theorem cancelJob_record now jobId kv :
  (getJobStatus jobId kv = None → cancelJob now jobId kv = (false, kv))
  ∧ (∀ status, getJobStatus jobId kv = Some status →
       (cancelJob now jobId kv).1 = true
       ∧ ∃ status',
           getJobStatus jobId (cancelJob now jobId kv).2 = Some status'
           ∧ JobStatus.status status' = JobStatus.cancelled
           ∧ JobStatus.finishedAt status' = Some now
           ∧ (∀ t, JobStatus.startedAt status = Some t → t ≠ 0 →
                   JobStatus.duration status' = Some (now - t))
           ∧ (JS.truthy (JobStatus.startedAt status) = false →
              JobStatus.duration status' = JobStatus.duration status)
           ∧ JobStatus.id status' = JobStatus.id status
           ∧ JobStatus.startedAt status' = JobStatus.startedAt status
           ∧ JobStatus.steps status' = JobStatus.steps status
           ∧ JobStatus.currentStep status' = JobStatus.currentStep status
           ∧ JobStatus.error status' = JobStatus.error status)
  ∧ (∀ jobId', jobId' ≠ jobId →
       getJobStatus jobId' (cancelJob now jobId kv).2 = getJobStatus jobId' kv)
  ∧ ∀ jobId', (cancelJob now jobId kv).2 !! jobKey jobId' = kv !! jobKey jobId'.
Proof.
  split; [| split; [| split]].
  - intros Hnone. unfold cancelJob. by rewrite Hnone.
  - intros status Hget.
    destruct (cancelJob_unfold now jobId kv status Hget) as (kv1 & -> & _).
    split; [done |]. cbn [snd]. eexists. split; [apply getJobStatus_updateJobStatus |].
    cbn zeta. cbn [JobStatus.startedAt JobStatus.set_finishedAt JobStatus.set_status].
    destruct (JobStatus.startedAt status) as [t |] eqn:Hstart; cbn [JS.truthy].
    + destruct (Z.eqb_spec t 0) as [-> | Hne]; cbn [negb].
      * repeat split; try done. intros ? [= <-] ?. done.
      * repeat split; try done. by intros ? [= <-] _.
    + repeat split; done.
  - intros jobId' Hne.
    destruct (getJobStatus jobId kv) as [status |] eqn:Hget.
    + destruct (cancelJob_unfold now jobId kv status Hget) as (kv1 & -> & Hkv1).
      cbn [snd]. rewrite getJobStatus_updateJobStatus_ne by done.
      destruct Hkv1 as [-> | (_ & key & [Hq _]%find_queue_key & ->)]; [done |].
      by apply getJobStatus_delete_other, startsWith_queue_not_status.
    + unfold cancelJob. by rewrite Hget.
  - intros jobId'.
    destruct (getJobStatus jobId kv) as [status |] eqn:Hget.
    + destruct (cancelJob_unfold now jobId kv status Hget) as (kv1 & -> & Hkv1).
      cbn [snd].
      rewrite lookup_updateJobStatus_ne
        by (intros Heq; by apply (statusKey_ne_jobKey jobId jobId')).
      destruct Hkv1 as [-> | (_ & key & [Hq _]%find_queue_key & ->)]; [done |].
      apply lookup_delete_ne. intros ->. by apply (queue_ne_jobKey _ jobId') in Hq.
    + unfold cancelJob. by rewrite Hget.
Qed.

(** Reversal of strings, for [endsWith]. *)
Lemma rev_app_app a b c :
  String.rev_app (a +:+ b) c = String.rev_app b (String.rev_app a c).
Proof. revert c. induction a as [| x a IH]; intros c; [done |]. apply IH. Qed.

Lemma rev_app_rev a c : String.rev_app a c = String.rev a +:+ c.
Proof.
  revert c. induction a as [| x a IH]; intros c; [done |].
  unfold String.rev. cbn [String.rev_app]. rewrite (IH (String x c)), (IH (String x "")).
  by rewrite string_app_assoc.
Qed.

Lemma rev_app a b : String.rev (a +:+ b) = String.rev b +:+ String.rev a.
Proof. unfold String.rev at 1. by rewrite rev_app_app, rev_app_rev. Qed.

Lemma rev_involutive a : String.rev (String.rev a) = a.
Proof.
  induction a as [| x a IH]; [done |].
  change (String x a) with (String x "" +:+ a). by rewrite rev_app, rev_app, IH.
Qed.

Lemma free_of_app sep a b :
  free_of sep (a +:+ b) = free_of sep a && free_of sep b.
Proof.
  induction a as [| x a IH]; [done |].
  rewrite string_app_cons. cbn [free_of]. by rewrite IH, andb_assoc.
Qed.

Lemma free_of_rev sep a : free_of sep (String.rev a) = free_of sep a.
Proof.
  induction a as [| x a IH]; [done |].
  change (String x a) with (String x "" +:+ a).
  rewrite rev_app, !free_of_app, IH. apply andb_comm.
Qed.

Lemma startsWith_up_to_sep sep a b rest :
  free_of sep a = true → free_of sep b = true →
  JS.startsWith (a +:+ String sep rest) (b +:+ String sep "") = bool_decide (a = b).
Proof.
  revert a. induction b as [| y b IH]; intros a Ha Hb.
  - change ("" +:+ String sep "") with (String sep "").
    destruct a as [| x a].
    + change ("" +:+ String sep rest) with (String sep rest).
      cbn [JS.startsWith]. by rewrite Ascii.eqb_refl.
    + rewrite string_app_cons. cbn [JS.startsWith].
      cbn [free_of] in Ha. apply andb_true_iff in Ha as [Hx _].
      apply negb_true_iff in Hx. rewrite Ascii.eqb_sym, Hx.
      by rewrite bool_decide_eq_false_2.
  - cbn [free_of] in Hb. apply andb_true_iff in Hb as [Hy Hb].
    rewrite (string_app_cons y b).
    destruct a as [| x a].
    + change ("" +:+ String sep rest) with (String sep rest).
      cbn [JS.startsWith]. apply negb_true_iff in Hy. rewrite Hy.
      by rewrite bool_decide_eq_false_2.
    + cbn [free_of] in Ha. apply andb_true_iff in Ha as [_ Ha].
      rewrite string_app_cons. cbn [JS.startsWith]. rewrite IH by done.
      destruct (Ascii.eqb_spec y x) as [-> | Hne]; cbn [andb].
      * apply bool_decide_ext. naive_solver.
      * rewrite bool_decide_eq_false_2; [done |]. naive_solver.
Qed.

Lemma endsWith_queueKey p t id jobId :
  free_of ":" id = true → free_of ":" jobId = true →
  JS.endsWith (queueKey p t id) (":" +:+ jobId) = bool_decide (id = jobId).
Proof.
  intros Hid Hjob. unfold JS.endsWith, queueKey.
  rewrite !rev_app. rewrite !string_app_assoc.
  change (String.rev ":") with (String ":" "").
  rewrite string_app_cons. change ("" +:+ ?s) with s.
  rewrite startsWith_up_to_sep by by rewrite free_of_rev.
  apply bool_decide_ext. split; [| by intros ->].
  intros Heq. by rewrite <- (rev_involutive id), Heq, rev_involutive.
Qed.

Lemma queueKey_eq_inv p t id p' t' id' :
  queueKey p t id = queueKey p' t' id' → p = p' ∧ t = t' ∧ id = id'.
Proof.
  intros Heq. destruct (queueKey_inj _ _ _ _ _ _ Heq) as [-> ->].
  split; [done |]. split; [done |].
  unfold queueKey in Heq. by do 5 apply String.app_inj in Heq.
Qed.

(** X5. [cancelJob] on a queued job takes its entry off the queue, when
    the identifiers in the queue have no colon in them: no entry of
    another job is touched, and the entry of the job, when it has one
    only, is gone. *)
Theorem cancelJob_withdraws now jobId kv status
    (Hget : getJobStatus jobId kv = Some status)
    (Hqueued : JobStatus.status status = JobStatus.queued)
    (Hid : free_of ":" jobId = true)
    (Hkeys : colon_free_ids kv) :
  (∀ key, JS.startsWith key "queue:" = true →
     (∀ p t, key ≠ queueKey p t jobId) →
     (cancelJob now jobId kv).2 !! key = kv !! key)
  ∧ (∀ p t,
       is_Some (kv !! queueKey p t jobId) →
       (∀ p' t', is_Some (kv !! queueKey p' t' jobId) → p' = p ∧ t' = t) →
       (cancelJob now jobId kv).2 !! queueKey p t jobId = None).
Proof.
  assert (∀ key,
    find (λ key, JS.endsWith key (":" +:+ jobId)) (Kv.list "queue:" kv) = Some key →
    ∃ p t, key = queueKey p t jobId ∧ is_Some (kv !! key)) as Hfound.
  { intros key [Hin Hends]%find_some. apply list_elem_of_In in Hin.
    destruct (Hkeys key Hin) as (p & t & id & -> & Hfree).
    rewrite endsWith_queueKey in Hends by done.
    apply bool_decide_eq_true in Hends as ->.
    exists p, t. split; [done |]. by apply elem_of_Kv_list in Hin as [_ ?]. }
  unfold cancelJob. rewrite Hget. rewrite decide_True by done. cbn [snd].
  split.
  - intros key Hq Hother.
    rewrite lookup_updateJobStatus_ne by by apply queue_ne_statusKey.
    destruct (find _ _) as [key0 |] eqn:Hfind; [| done].
    destruct (Hfound key0 eq_refl) as (p & t & -> & _).
    apply lookup_delete_ne. intros <-. by apply (Hother p t).
  - intros p t Hsome Huniq.
    rewrite lookup_updateJobStatus_ne
      by (apply queue_ne_statusKey, queueKey_startsWith).
    destruct (find _ _) as [key0 |] eqn:Hfind.
    + destruct (Hfound key0 eq_refl) as (p0 & t0 & -> & Hsome0).
      destruct (Huniq p0 t0 Hsome0) as [-> ->]. apply lookup_delete_eq.
    + exfalso.
      assert (queueKey p t jobId ∈ Kv.list "queue:" kv) as Hin.
      { apply elem_of_Kv_list. split; [apply queueKey_startsWith | done]. }
      pose proof (find_none _ _ Hfind _ (proj1 (list_elem_of_In _ _) Hin)) as Hends.
      cbn beta in Hends. rewrite endsWith_queueKey in Hends by done.
      by rewrite bool_decide_eq_true_2 in Hends.
Qed.
Lemma scenario_listing :
  Kv.list "queue:" scenario_kv
  = [queueKey 5 0 "A"; queueKey 5 2 "C"; queueKey 8 1 "B"].
Proof. by vm_compute. Qed.

Lemma colon_free_ids_scenario : colon_free_ids scenario_kv.
Proof.
  intros key. rewrite scenario_listing. rewrite !elem_of_cons, elem_of_nil.
  intros [-> | [-> | [-> | []]]]; by eexists _, _, _.
Qed.

Lemma cancelJob_withdraws_witness :
  getJobStatus "A" scenario_kv = Some (initial_status (a_job "A" 5))
  ∧ (cancelJob 9 "A" scenario_kv).2 !! queueKey 5 0 "A" = None
  ∧ (cancelJob 9 "A" scenario_kv).2 !! queueKey 8 1 "B"
    = scenario_kv !! queueKey 8 1 "B".
Proof.
  assert (getJobStatus "A" scenario_kv = Some (initial_status (a_job "A" 5))) as Hget.
  { by vm_compute. }
  split; [exact Hget |].
  destruct (cancelJob_withdraws 9 "A" scenario_kv (initial_status (a_job "A" 5))
              Hget eq_refl eq_refl colon_free_ids_scenario) as [Hother Hgone].
  split.
  - apply Hgone; [vm_compute; by eexists |]. intros p' t' Hsome.
    assert (queueKey p' t' "A" ∈ Kv.list "queue:" scenario_kv) as Hin.
    { apply elem_of_Kv_list. split; [apply queueKey_startsWith | done]. }
    rewrite scenario_listing in Hin. rewrite !elem_of_cons, elem_of_nil in Hin.
    destruct Hin as [Heq | [Heq | [Heq | []]]];
      apply queueKey_eq_inv in Heq as (? & ? & ?); done.
  - apply Hother; [reflexivity |]. intros p t Heq.
    by apply queueKey_eq_inv in Heq as (_ & _ & ?).
Defined.

(** X6. [retryJob] answers [true] exactly when the status record of the
    job is in failure and its configuration has been retained; when it
    answers [false] it has changed nothing, and when it answers [true]
    the retained configuration is pending again, under the priority it
    asks for and the time of the call. *)
Theorem retryJob_verdict config now jobId kv :
  ((retryJob config now jobId kv).1 = true ↔
     ∃ status job,
       getJobStatus jobId kv = Some status
       ∧ JobStatus.status status = JobStatus.failure
       ∧ kv !! jobKey jobId = Some (VJob job))
  ∧ ((retryJob config now jobId kv).1 = false → (retryJob config now jobId kv).2 = kv)
  ∧ ∀ job,
      (retryJob config now jobId kv).1 = true →
      kv !! jobKey jobId = Some (VJob job) →
      (retryJob config now jobId kv).2
        !! queueKey (default (defaultPriority config) (JobConfig.priority job))
                    now (JobConfig.id job)
      = Some (VJob job)
      ∧ getJobStatus (JobConfig.id job) (retryJob config now jobId kv).2
        = Some (initial_status job).
Proof.
  unfold retryJob, Kv.get.
  destruct (getJobStatus jobId kv) as [status |] eqn:Hget.
  2: { split; [| done]. split; [done |]. by intros (? & ? & ? & _). }
  case_decide as Hfail.
  { split; [| done]. split; [done |]. intros (? & ? & [= <-] & ? & _). done. }
  destruct (kv !! jobKey jobId) as [[job | |] |] eqn:Hjob; cbn [Kv.as_job fst snd].
  - split; [| split; [done |]].
    + split; [| done]. intros _. by exists status, job.
    + intros ? _ [= <-]. split; [| apply getJobStatus_enqueue].
      rewrite lookup_enqueue_queue by apply queueKey_startsWith.
      by rewrite decide_True.
  - split; [| done]. split; [done |]. by intros (? & ? & _ & _ & ?).
  - split; [| done]. split; [done |]. by intros (? & ? & _ & _ & ?).
  - split; [| done]. split; [done |]. by intros (? & ? & _ & _ & ?).
Qed.
End QueueCancelRetry.

Section QueueListing.
Import JobQueue QueueSpec Fixtures.
Implicit Types (kv : KV) (key jobId : string).

Lemma listJobs_filter_omap f kv :
  listJobs (Some f) kv
  = filter (λ status, JobStatus.status status = f)
      (omap (λ key, Kv.as_status (Kv.get key kv)) (Kv.list "status:" kv)).
Proof.
  unfold listJobs.
  assert (∀ l acc,
    fold_left
      (λ jobs key,
         match Kv.as_status (Kv.get key kv) with
         | Some status =>
             if decide (JobStatus.status status = f)
             then (jobs ++ [status])%list else jobs
         | None => jobs
         end) l acc
    = (acc ++ filter (λ status, JobStatus.status status = f)
                (omap (λ key, Kv.as_status (Kv.get key kv)) l))%list) as Hfold.
  { induction l as [| key l IH]; intros acc; simpl; [by rewrite app_nil_r |].
    rewrite IH. destruct (Kv.as_status (Kv.get key kv)) as [status |]; [| done].
    rewrite filter_cons. case_decide; [| done]. by rewrite <- app_assoc. }
  by rewrite Hfold.
Qed.

(** X7. [listJobs] with a status filter returns, in the order of the
    unfiltered listing, the records of that status and no other; the
    unfiltered listing holds exactly the stored status records; and the
    count [dequeue] compares with [maxConcurrent] is the length of the
    listing filtered by running. *)
Theorem listJobs_filter kv :
  (∀ f, listJobs (Some f) kv
        = filter (λ status, JobStatus.status status = f) (listJobs None kv))
  ∧ (∀ status, status ∈ listJobs None kv ↔
               ∃ jobId, kv !! statusKey jobId = Some (VStatus status))
  ∧ getRunningJobCount kv
    = Z.of_nat (length (listJobs (Some JobStatus.running) kv)).
Proof.
  split; [| split].
  - intros f. by rewrite listJobs_filter_omap, listJobs_omap.
  - intros status. apply elem_of_listJobs.
  - rewrite getRunningJobCount_length, listJobs_filter_omap. f_equal.
    unfold running_keys, is_running.
    induction (Kv.list "status:" kv) as [| key l IH]; [done |].
    rewrite filter_cons. cbn [omap list_omap].
    destruct (Kv.as_status (Kv.get key kv)) as [status |].
    + rewrite filter_cons.
      destruct (decide (JobStatus.status status = JobStatus.running)) as [Hr | Hr].
      * rewrite bool_decide_eq_true_2 by done. rewrite decide_True by done.
        cbn [length]. by rewrite IH.
      * rewrite bool_decide_eq_false_2 by done. by rewrite decide_False by done.
    + by rewrite decide_False by done.
Qed.

Lemma prunable_mono cutoff cutoff' status :
  cutoff' ≤ cutoff → prunable cutoff' status = true → prunable cutoff status = true.
Proof.
  unfold prunable. intros Hle.
  intros [[Hf Hlt%bool_decide_eq_true]%andb_true_iff Hs]%andb_true_iff.
  rewrite Hf, Hs. rewrite bool_decide_eq_true_2 by lia. done.
Qed.

Lemma lookup_delete_records_Some statuses kv key v :
  delete_records statuses kv !! key = Some v → kv !! key = Some v.
Proof.
  unfold delete_records. revert kv.
  induction statuses as [| status statuses IH]; intros kv; [done |].
  simpl. intros Hv%IH. unfold Kv.delete in Hv.
  apply lookup_delete_Some in Hv as [_ Hv]. by apply lookup_delete_Some in Hv as [_ Hv].
Qed.

(** X8. After [pruneCompletedJobs] nothing is left for it to delete: a
    second call at the same cutoff, or at an earlier one, deletes no
    record and answers [0]. *)
Theorem pruneCompletedJobs_settles now maxAge now' maxAge' kv
    (Hwf : status_wf kv)
    (Hcutoff : now' - maxAge' ≤ now - maxAge) :
  pruneCompletedJobs now' maxAge' (pruneCompletedJobs now maxAge kv).2
  = (0, (pruneCompletedJobs now maxAge kv).2).
Proof.
  rewrite (pruneCompletedJobs_fold now maxAge kv). cbn [snd].
  set (gone := filter (λ s, prunable (now - maxAge) s = true) (listJobs None kv)).
  rewrite pruneCompletedJobs_fold.
  assert (filter (λ s, prunable (now' - maxAge') s = true)
            (listJobs None (delete_records gone kv)) = []) as ->; [| done].
  apply elem_of_nil_inv. intros status [Hp Hin]%list_elem_of_filter.
  apply elem_of_listJobs in Hin as [jobId Hstored].
  pose proof (lookup_delete_records_Some _ _ _ _ Hstored) as Hkv.
  destruct (Hwf _ _ Hkv) as [Hid _].
  rewrite (lookup_delete_records_None gone kv (statusKey jobId) status) in Hstored;
    [done | | left; by rewrite Hid].
  apply list_elem_of_filter. split.
  - by apply (prunable_mono _ (now' - maxAge')).
  - apply elem_of_listJobs. by exists jobId.
Qed.

Lemma pruneCompletedJobs_settles_witness :
  status_wf retention_kv
  ∧ (pruneCompletedJobs 10000 5000 retention_kv).1 = 1
  ∧ pruneCompletedJobs 10000 5000 (pruneCompletedJobs 10000 5000 retention_kv).2
    = (0, (pruneCompletedJobs 10000 5000 retention_kv).2).
Proof.
  split; [apply status_wf_retention_kv |]. split; [by vm_compute |].
  apply pruneCompletedJobs_settles; [apply status_wf_retention_kv | lia].
Defined.
End QueueListing.

(** ** What a computation leaves alone, and what a run that returned went through *)

Section Keeps.
Context {S : Type} `{!ISandbox S} `{!Base64}.
Import RunSpec RunSpec2.
Implicit Types (w : World.t S).

Local Open Scope async_scope.

Lemma bind_inv_Ok {Σ A B} (m : M Σ A) (k : A → M Σ B) σ b σ' :
  Async.bind m k σ = (Ok b, σ') →
  ∃ a σ1, m σ = (Ok a, σ1) ∧ k a σ1 = (Ok b, σ').
Proof.
  unfold Async.bind. destruct (m σ) as [[a | msg] σ1]; [| done].
  intros Hk. by exists a, σ1.
Qed.

Lemma await_inv_Ok {A} (call : M (World.t S) A) w a w' :
  await call w = (Ok a, w') →
  Tick.fault (World.next_tick w) = None
  ∧ call (World.advance (Tick.elapsed (World.next_tick w)) w) = (Ok a, w').
Proof. unfold await. by destruct (Tick.fault (World.next_tick w)). Qed.

Lemma fault_free_advance ms w : fault_free w → fault_free (World.advance ms w).
Proof. apply later_fault_free, later_advance. Qed.

Lemma fault_free_script w w' :
  World.script w' = World.script w → fault_free w → fault_free w'.
Proof. unfold fault_free. by intros ->. Qed.

Section Part.
Context {X : Type} (π : World.t S → X).
Context (Hsteady : steady π).

Lemma keeps_ret {A} (a : A) : keeps π (Async.ret a).
Proof. by intros w. Qed.

Lemma keeps_throw {A} msg : keeps π (Async.throw (A := A) msg).
Proof. by intros w. Qed.

Lemma keeps_get : keeps π Async.get.
Proof. by intros w. Qed.

Lemma keeps_Date_now : keeps π Date_now.
Proof. by intros w. Qed.

Lemma keeps_bind {A B} (m : M (World.t S) A) (k : A → M (World.t S) B) :
  keeps π m → (∀ a, keeps π (k a)) → keeps π (Async.bind m k).
Proof.
  intros Hm Hk w. unfold Async.bind. specialize (Hm w).
  destruct (m w) as [[a | msg] w1]; cbn [snd] in *; [| done].
  by rewrite Hk.
Qed.

Lemma keeps_try_catch {A} (m : M (World.t S) A) handler :
  keeps π m → (∀ msg, keeps π (handler msg)) → keeps π (Async.try_catch m handler).
Proof.
  intros Hm Hh w. unfold Async.try_catch. specialize (Hm w).
  destruct (m w) as [[a | msg] w1]; cbn [snd] in *; [done |].
  by rewrite Hh.
Qed.

Lemma keeps_await {A} (call : M (World.t S) A) : keeps π call → keeps π (await call).
Proof.
  intros Hcall w. unfold await.
  destruct (Tick.fault (World.next_tick w)); cbn [snd]; [apply Hsteady |].
  by rewrite Hcall.
Qed.

Lemma keeps_modify (f : World.t S → World.t S) :
  (∀ w, π (f w) = π w) → keeps π (Async.modify f).
Proof. intros Hf w. apply Hf. Qed.

Lemma keeps_for_fold {A B} (xs : list A) (acc : B) (body : B → A → M (World.t S) B) :
  (∀ acc x, keeps π (body acc x)) → keeps π (for_fold xs acc body).
Proof.
  intros Hbody. revert acc. induction xs as [| x xs IH]; intros acc; simpl.
  - apply keeps_ret.
  - by apply keeps_bind.
Qed.

Lemma keeps_for_each {A} (xs : list A) (body : A → M (World.t S) unit) :
  (∀ x, keeps π (body x)) → keeps π (for_each xs body).
Proof.
  intros Hbody. induction xs as [| x xs IH]; simpl.
  - apply keeps_ret.
  - by apply keeps_bind.
Qed.

Lemma keeps_sandbox_readFile path : keeps π (sandbox_readFile path).
Proof. by apply keeps_await. Qed.

Context (Happart : apart_from_sandbox π).

Lemma keeps_sandbox_exec command workingDir :
  keeps π (sandbox_exec command workingDir).
Proof.
  apply keeps_await. intros w. destruct (exec command workingDir _).
  apply Happart.
Qed.

Lemma keeps_sandbox_writeFile path content :
  keeps π (sandbox_writeFile path content).
Proof. apply keeps_await. intros w. apply Happart. Qed.

Lemma keeps_sandbox_exec_race command workingDir budget :
  keeps π (sandbox_exec_race command workingDir budget).
Proof.
  intros w. unfold sandbox_exec_race. cbv zeta. case_match.
  - apply keeps_sandbox_exec.
  - destruct (exec command workingDir _). cbn [snd].
    by rewrite Happart, Hsteady.
Qed.
End Part.

Lemma keeps_run {X A} (π : World.t S → X) (m : M (World.t S) A) w r w' :
  keeps π m → m w = (r, w') → π w' = π w.
Proof. intros Hm Hrun. specialize (Hm w). by rewrite Hrun in Hm. Qed.

Lemma steady_cache_bucket : steady (World.cache_bucket (S := S)).
Proof. done. Qed.
Lemma steady_metrics_kv : steady (World.metrics_kv (S := S)).
Proof. done. Qed.
Lemma steady_queue_kv : steady (World.queue_kv (S := S)).
Proof. done. Qed.
Lemma steady_sandbox : steady (World.sandbox (S := S)).
Proof. done. Qed.

Lemma apart_cache_bucket : apart_from_sandbox (World.cache_bucket (S := S)).
Proof. done. Qed.
Lemma apart_metrics_kv : apart_from_sandbox (World.metrics_kv (S := S)).
Proof. done. Qed.
Lemma apart_queue_kv : apart_from_sandbox (World.queue_kv (S := S)).
Proof. done. Qed.
End Keeps.

(** ** The cache manager: saving, restoring, listing and pruning *)

Section RunsWithoutFaults.
Context {S : Type} `{!ISandbox S} `{!Base64}.
Import RunSpec RunSpec2.
Implicit Types (w : World.t S).

Local Open Scope async_scope.

Lemma fault_free_set_sandbox sb w : fault_free w → fault_free (World.set_sandbox sb w).
Proof. done. Qed.
Lemma fault_free_set_cache_bucket v w :
  fault_free w → fault_free (World.set_cache_bucket v w).
Proof. done. Qed.
Lemma fault_free_set_metrics_kv v w :
  fault_free w → fault_free (World.set_metrics_kv v w).
Proof. done. Qed.
Lemma fault_free_set_state_bucket v w :
  fault_free w → fault_free (World.set_state_bucket v w).
Proof. done. Qed.
Lemma fault_free_set_queue_kv v w :
  fault_free w → fault_free (World.set_queue_kv v w).
Proof. done. Qed.

Lemma sandbox_exec_fault_free command workingDir w :
  fault_free w →
  sandbox_exec command workingDir w
  = (Ok (exec command workingDir (World.sandbox w)).1,
     World.set_sandbox (exec command workingDir (World.sandbox w)).2
       (World.advance (Tick.elapsed (World.next_tick w)) w)).
Proof.
  intros Hw. unfold sandbox_exec. rewrite await_fault_free by done.
  cbn [World.sandbox World.advance]. by destruct (exec command workingDir _).
Qed.

Lemma sandbox_readFile_fault_free path w :
  fault_free w →
  sandbox_readFile path w
  = (readFile path (World.sandbox w),
     World.advance (Tick.elapsed (World.next_tick w)) w).
Proof. intros Hw. unfold sandbox_readFile. by rewrite await_fault_free. Qed.

Lemma sandbox_writeFile_fault_free path content w :
  fault_free w →
  sandbox_writeFile path content w
  = (Ok tt,
     World.set_sandbox (writeFile path content (World.sandbox w))
       (World.advance (Tick.elapsed (World.next_tick w)) w)).
Proof. intros Hw. unfold sandbox_writeFile. by rewrite await_fault_free. Qed.
End RunsWithoutFaults.

Ltac fault_free :=
  repeat first
    [ assumption
    | apply fault_free_advance
    | apply fault_free_set_sandbox
    | apply fault_free_set_cache_bucket
    | apply fault_free_set_metrics_kv
    | apply fault_free_set_state_bucket
    | apply fault_free_set_queue_kv ].

Section SaveCache.
Context {S : Type} `{!ISandbox S} `{!Base64}.
Import RunSpec RunSpec2 BlobSpec.
Implicit Types (w : World.t S).

Local Open Scope async_scope.

Lemma keeps_probe_loop {X} (π : World.t S → X) paths existing :
  steady π → apart_from_sandbox π → keeps π (probe_loop paths existing).
Proof.
  intros Hs Ha. apply keeps_for_fold. intros acc path.
  apply keeps_bind; [by apply keeps_sandbox_exec | intros; apply keeps_ret].
Qed.

Lemma probe_loop_fault_free paths existing w :
  fault_free w →
  ∃ w',
    probe_loop paths existing w
    = (Ok (existing ++ (probed paths (World.sandbox w)).1)%list, w')
    ∧ World.sandbox w' = (probed paths (World.sandbox w)).2
    ∧ fault_free w'.
Proof.
  revert existing w.
  induction paths as [| path paths IH]; intros existing w Hw.
  { exists w. cbn. by rewrite app_nil_r. }
  unfold probe_loop. cbn [for_fold probed].
  rewrite (bind_Ok _ _ _ _ _
             (bind_Ok _ _ _ _ _ (sandbox_exec_fault_free (probe path) None w Hw))).
  destruct (exec (probe path) None (World.sandbox w)) as [result sb1] eqn:Hexec.
  cbn [fst snd].
  set (w1 := World.set_sandbox sb1 _).
  destruct (IH (if decide (JS.trim (ExecResult.stdout result) = "exists")
                then (existing ++ [path])%list else existing) w1)
    as (w' & Hrun & Hsb & Hff); [subst w1; fault_free |].
  exists w'. unfold probe_loop in Hrun. rewrite Hrun.
  change (World.sandbox w1) with sb1 in *.
  destruct (probed paths sb1) as [found sb2]. cbn [fst snd] in *.
  split; [| done]. do 2 f_equal. case_decide; [| done].
  by rewrite <- app_assoc.
Qed.

Lemma saveCache_unfold cacheKey paths :
  CacheManager.saveCache cacheKey paths
  = (timestamp <- Date_now ;;
     existingPaths <- probe_loop paths [] ;;
     if decide (length existingPaths = 0%nat)
     then Async.throw "No cache directories found to archive"
     else
       sandbox_exec ("tar -czf /tmp/cache.tar.gz " +:+ JS.join " " existingPaths) None ;;;
       archiveContent <- sandbox_readFile "/tmp/cache.tar.gz" ;;
       await (Async.modify (λ w,
         World.set_cache_bucket
           (<[CacheManager.archiveKey cacheKey :=
                R2Object.mk (base64_decode archiveContent)
                  (bundle_metadata cacheKey paths timestamp
                     (Z.of_nat (String.length (base64_decode archiveContent))))]>
              (World.cache_bucket w)) w)) ;;;
       sandbox_exec "rm /tmp/cache.tar.gz" None ;;;
       await (Async.modify (λ w,
         World.set_metrics_kv
           (Kv.put (CacheManager.metadataKey cacheKey)
              (VCache (CacheKey.mk cacheKey paths timestamp
                         (Some (Z.of_nat (String.length
                                            (base64_decode archiveContent))))))
              (30 * 24 * 60 * 60) (World.metrics_kv w)) w)) ;;;
       Async.ret (CacheKey.mk cacheKey paths timestamp
                    (Some (Z.of_nat (String.length (base64_decode archiveContent)))))).
Proof. reflexivity. Qed.

(** X9. When no path given to [saveCache] is a directory of the sandbox
    (none given, for one), it throws that there is nothing to archive,
    and has written neither to the blob store nor to the cache
    metadata. *)
Theorem saveCache_nothing_to_archive cacheKey paths w
    (Hff : fault_free w)
    (Hnone : (probed paths (World.sandbox w)).1 = []) :
  ∃ w',
    CacheManager.saveCache cacheKey paths w
    = (Throw "No cache directories found to archive", w')
    ∧ World.cache_bucket w' = World.cache_bucket w
    ∧ World.metrics_kv w' = World.metrics_kv w.
Proof.
  destruct (probe_loop_fault_free paths [] w Hff) as (w' & Hrun & _ & _).
  rewrite Hnone in Hrun. exists w'.
  split.
  - rewrite saveCache_unfold. unfold Date_now at 1.
    unfold Async.bind at 1. by rewrite (bind_Ok _ _ _ _ _ Hrun).
  - pose proof (keeps_probe_loop World.cache_bucket paths [] steady_cache_bucket
                  apart_cache_bucket w) as Hb.
    pose proof (keeps_probe_loop World.metrics_kv paths [] steady_metrics_kv
                  apart_metrics_kv w) as Hk.
    rewrite Hrun in Hb, Hk. done.
Qed.
(** What a run of [saveCache] that returned has written. *)
Lemma saveCache_Ok_inv cacheKey paths w meta w1 :
  CacheManager.saveCache cacheKey paths w = (Ok meta, w1) →
  ∃ content,
    meta = CacheKey.mk cacheKey paths (World.clock w)
             (Some (Z.of_nat (String.length (base64_decode content))))
    ∧ World.cache_bucket w1
      = <[CacheManager.archiveKey cacheKey :=
            R2Object.mk (base64_decode content)
              (bundle_metadata cacheKey paths (World.clock w)
                 (Z.of_nat (String.length (base64_decode content))))]>
          (World.cache_bucket w)
    ∧ World.metrics_kv w1
      = <[CacheManager.metadataKey cacheKey := VCache meta]> (World.metrics_kv w).
Proof.
  rewrite saveCache_unfold. unfold Date_now at 1. unfold Async.bind at 1.
  intros (existing & wa & Hloop & Hrest)%bind_inv_Ok.
  pose proof (keeps_run _ _ _ _ _
                (keeps_probe_loop World.cache_bucket paths [] steady_cache_bucket
                   apart_cache_bucket) Hloop) as Hba.
  pose proof (keeps_run _ _ _ _ _
                (keeps_probe_loop World.metrics_kv paths [] steady_metrics_kv
                   apart_metrics_kv) Hloop) as Hka.
  case_decide; [done |].
  apply bind_inv_Ok in Hrest as (r1 & wb & Htar & Hrest).
  pose proof (keeps_run _ _ _ _ _
                (keeps_sandbox_exec World.cache_bucket steady_cache_bucket
                   apart_cache_bucket _ _) Htar) as Hbb.
  pose proof (keeps_run _ _ _ _ _
                (keeps_sandbox_exec World.metrics_kv steady_metrics_kv
                   apart_metrics_kv _ _) Htar) as Hkb.
  apply bind_inv_Ok in Hrest as (content & wc & Hread & Hrest).
  pose proof (keeps_run _ _ _ _ _
                (keeps_sandbox_readFile World.cache_bucket steady_cache_bucket _)
                Hread) as Hbc.
  pose proof (keeps_run _ _ _ _ _
                (keeps_sandbox_readFile World.metrics_kv steady_metrics_kv _)
                Hread) as Hkc.
  apply bind_inv_Ok in Hrest as ([] & wd & Hput & Hrest).
  apply await_inv_Ok in Hput as [_ [= <-]].
  apply bind_inv_Ok in Hrest as (r2 & we & Hrm & Hrest).
  pose proof (keeps_run _ _ _ _ _
                (keeps_sandbox_exec World.cache_bucket steady_cache_bucket
                   apart_cache_bucket _ _) Hrm) as Hbe.
  pose proof (keeps_run _ _ _ _ _
                (keeps_sandbox_exec World.metrics_kv steady_metrics_kv
                   apart_metrics_kv _ _) Hrm) as Hke.
  apply bind_inv_Ok in Hrest as ([] & wf & Hkv & [= <- <-]).
  apply await_inv_Ok in Hkv as [_ [= <-]].
  exists content. split; [done |].
  cbn [World.cache_bucket World.metrics_kv World.set_metrics_kv
       World.set_cache_bucket World.advance] in *.
  unfold Kv.put. split; congruence.
Qed.
End SaveCache.

Section RestoreCache.
Context {S : Type} `{!ISandbox S} `{!Base64}.
Import RunSpec RunSpec2 BlobSpec.
Implicit Types (w : World.t S).

Local Open Scope async_scope.

Lemma keeps_restoreCache_bucket cacheKey :
  keeps World.cache_bucket (CacheManager.restoreCache cacheKey).
Proof.
  unfold CacheManager.restoreCache.
  apply keeps_bind.
  { apply keeps_await; [done |].
    apply keeps_bind; [apply keeps_get | intros; apply keeps_ret]. }
  intros [object |]; [| apply keeps_ret].
  apply keeps_bind; [apply keeps_await; [done | apply keeps_ret] |].
  intros archiveBuffer.
  apply keeps_bind; [by apply keeps_sandbox_writeFile |]. intros _.
  apply keeps_bind; [by apply keeps_sandbox_exec |]. intros _.
  apply keeps_bind; [by apply keeps_sandbox_exec |]. intros _.
  apply keeps_bind.
  { apply keeps_await; [done |].
    apply keeps_bind; [apply keeps_get | intros; apply keeps_ret]. }
  intros [metadata |]; [| apply keeps_ret].
  apply keeps_bind; [apply keeps_Date_now |]. intros now.
  apply keeps_bind; [| intros; apply keeps_ret].
  apply keeps_await; [done |]. by apply keeps_modify.
Qed.

(** The clock after some awaited calls, one at a time. *)
Lemma clock_after_0 w : clock_after 0 w = World.clock w.
Proof. unfold clock_after. rewrite take_0. cbn [fmap list_fmap foldr]. lia. Qed.

Lemma clock_after_S n w :
  clock_after (Datatypes.S n) w
  = clock_after n (World.advance (Tick.elapsed (World.next_tick w)) w).
Proof.
  unfold clock_after, World.next_tick. cbn [World.clock World.script World.advance].
  destruct (World.script w) as [| tick script].
  - cbn [hd tail Tick.elapsed Tick.quiet]. rewrite !take_nil.
    cbn [fmap list_fmap foldr]. lia.
  - rewrite firstn_cons. cbn [fmap list_fmap foldr hd tail]. lia.
Qed.

Lemma clock_after_set_sandbox n sb w :
  clock_after n (World.set_sandbox sb w) = clock_after n w.
Proof. done. Qed.

(** A hit, call by call. *)
Lemma restoreCache_hit_run cacheKey object w :
  fault_free w →
  World.cache_bucket w !! CacheManager.archiveKey cacheKey = Some object →
  ∃ w',
    CacheManager.restoreCache cacheKey w = (Ok true, w')
    ∧ fault_free w'
    ∧ World.sandbox w'
      = (exec "rm /tmp/cache.tar.gz" None
           (exec "tar -xzf /tmp/cache.tar.gz -C /" None
              (writeFile "/tmp/cache.tar.gz" (base64_encode (R2Object.body object))
                 (World.sandbox w))).2).2
    ∧ World.metrics_kv w'
      = match Kv.as_cache (World.metrics_kv w !! CacheManager.metadataKey cacheKey) with
        | Some metadata =>
            <[CacheManager.metadataKey cacheKey :=
                VCache (CacheKey.set_lastUsed (clock_after 6 w) metadata)]>
              (World.metrics_kv w)
        | None => World.metrics_kv w
        end.
Proof.
  intros Hw Hobject. unfold CacheManager.restoreCache.
  rewrite !clock_after_S, clock_after_0.
  unfold Async.bind at 1. rewrite await_fault_free by done.
  unfold Async.bind at 1. unfold Async.get at 1, Async.ret at 1.
  cbn [World.cache_bucket World.advance]. rewrite Hobject.
  set (w1 := World.advance _ w).
  assert (fault_free w1) as Hw1 by (subst w1; fault_free).
  unfold Async.bind at 1. rewrite await_fault_free by done.
  unfold Async.ret at 1.
  set (w2 := World.advance _ w1).
  assert (fault_free w2) as Hw2 by (subst w2; fault_free).
  rewrite (bind_Ok _ _ _ _ _ (sandbox_writeFile_fault_free _ _ w2 Hw2)).
  set (w3 := World.set_sandbox _ _).
  assert (fault_free w3) as Hw3 by (subst w3; fault_free).
  rewrite (bind_Ok _ _ _ _ _ (sandbox_exec_fault_free _ _ w3 Hw3)).
  set (w4 := World.set_sandbox _ _).
  assert (fault_free w4) as Hw4 by (subst w4; fault_free).
  rewrite (bind_Ok _ _ _ _ _ (sandbox_exec_fault_free _ _ w4 Hw4)).
  set (w5 := World.set_sandbox _ _).
  assert (fault_free w5) as Hw5 by (subst w5; fault_free).
  unfold Async.bind at 1. rewrite await_fault_free by done.
  unfold Async.bind at 1. unfold Async.get at 1, Async.ret at 1.
  set (w6 := World.advance _ w5).
  assert (fault_free w6) as Hw6 by (subst w6; fault_free).
  change (World.metrics_kv w6) with (World.metrics_kv w).
  unfold Kv.get.
  destruct (Kv.as_cache (World.metrics_kv w !! CacheManager.metadataKey cacheKey))
    as [metadata |].
  - unfold Date_now at 1. unfold Async.bind at 1.
    unfold Async.bind at 1. rewrite await_fault_free by done.
    eexists. split; [reflexivity |].
    split; [fault_free |]. split; reflexivity.
  - exists w6. split; [reflexivity |]. split; [done |]. split; reflexivity.
Qed.

(** X10. When the blob store holds a bundle for the key and no call is
    made to reject, [restoreCache] returns [true]: it has written the
    bundle to the sandbox, unpacked it and removed it; in the metadata
    record of the key it has set [lastUsed] to the time of its seventh
    awaited call and nothing else, and it has made up no record when
    there was none; and on a hit as on a miss or a rejected call it
    leaves the blob store as it was. *)
Theorem restoreCache_hit cacheKey object w
    (Hff : fault_free w)
    (Hobject : World.cache_bucket w !! CacheManager.archiveKey cacheKey = Some object) :
  (∃ w',
     CacheManager.restoreCache cacheKey w = (Ok true, w')
     ∧ World.sandbox w'
       = (exec "rm /tmp/cache.tar.gz" None
            (exec "tar -xzf /tmp/cache.tar.gz -C /" None
               (writeFile "/tmp/cache.tar.gz" (base64_encode (R2Object.body object))
                  (World.sandbox w))).2).2
     ∧ (∀ metadata,
          World.metrics_kv w !! CacheManager.metadataKey cacheKey
          = Some (VCache metadata) →
          World.metrics_kv w'
          = <[CacheManager.metadataKey cacheKey :=
                VCache (CacheKey.mk (CacheKey.key metadata) (CacheKey.paths metadata)
                          (clock_after 6 w) (CacheKey.size metadata))]>
              (World.metrics_kv w))
     ∧ (World.metrics_kv w !! CacheManager.metadataKey cacheKey = None →
        World.metrics_kv w' = World.metrics_kv w))
  ∧ ∀ cacheKey' w0,
      World.cache_bucket (CacheManager.restoreCache cacheKey' w0).2
      = World.cache_bucket w0.
Proof.
  split; [| intros; apply keeps_restoreCache_bucket].
  destruct (restoreCache_hit_run cacheKey object w Hff Hobject)
    as (w' & Hrun & _ & Hsb & Hkv).
  exists w'. split; [done |]. split; [done |]. split.
  - intros metadata Hmeta. by rewrite Hmeta in Hkv.
  - intros Hnone. by rewrite Hnone in Hkv.
Qed.
End RestoreCache.

Section CacheRoundTrips.
Context {S : Type} `{!ISandbox S} `{!Base64}.
Import RunSpec RunSpec2 BlobSpec.
Implicit Types (w : World.t S).

Local Open Scope async_scope.


(** X12. With no call made to reject, [cacheExists] and [restoreCache]
    agree on every key: both answer whether the blob store holds a
    bundle under it; and [cacheExists] changes neither the stores nor
    the sandbox. *)
Theorem cacheExists_agrees cacheKey w (Hff : fault_free w) :
  ∃ w1 w2,
    CacheManager.cacheExists cacheKey w
    = (Ok (bool_decide
             (is_Some (World.cache_bucket w !! CacheManager.archiveKey cacheKey))), w1)
    ∧ CacheManager.restoreCache cacheKey w
      = (Ok (bool_decide
               (is_Some (World.cache_bucket w !! CacheManager.archiveKey cacheKey))), w2)
    ∧ World.sandbox w1 = World.sandbox w
    ∧ World.cache_bucket w1 = World.cache_bucket w
    ∧ World.metrics_kv w1 = World.metrics_kv w.
Proof.
  exists (World.advance (Tick.elapsed (World.next_tick w)) w).
  destruct (World.cache_bucket w !! CacheManager.archiveKey cacheKey)
    as [object |] eqn:Hobject.
  - destruct (restoreCache_hit_run cacheKey object w Hff Hobject) as (w2 & Hrun & _).
    exists w2. split; [| by split].
    unfold CacheManager.cacheExists, Async.bind. rewrite await_fault_free by done.
    unfold Async.get, Async.ret. cbn [World.cache_bucket World.advance].
    by rewrite Hobject.
  - exists (World.advance (Tick.elapsed (World.next_tick w)) w).
    split; [| split; [| done]].
    + unfold CacheManager.cacheExists, Async.bind. rewrite await_fault_free by done.
      unfold Async.get, Async.ret. cbn [World.cache_bucket World.advance].
      by rewrite Hobject.
    + unfold CacheManager.restoreCache, Async.bind. rewrite await_fault_free by done.
      unfold Async.get, Async.ret. cbn [World.cache_bucket World.advance].
      by rewrite Hobject.
Qed.
End CacheRoundTrips.

Section CacheWitnesses2.
Import RunSpec RunSpec2 BlobSpec ToyCache.

Lemma saveCache_nothing_to_archive_witness :
  fault_free bare
  ∧ (probed node_paths (World.sandbox bare)).1 = []
  ∧ ∃ w',
      CacheManager.saveCache "repo-abc123" node_paths bare
      = (Throw "No cache directories found to archive", w')
      ∧ World.cache_bucket w' = World.cache_bucket bare
      ∧ World.metrics_kv w' = World.metrics_kv bare.
Proof.
  assert (fault_free bare) as Hff by constructor.
  assert ((probed node_paths (World.sandbox bare)).1 = []) as Hnone.
  { by vm_compute. }
  split; [exact Hff |]. split; [exact Hnone |].
  exact (saveCache_nothing_to_archive "repo-abc123" node_paths bare Hff Hnone).
Defined.

Lemma saved_bundle :
  World.cache_bucket saved !! CacheManager.archiveKey "repo-abc123" = Some bundle.
Proof. by vm_compute. Qed.

Lemma restoreCache_hit_witness :
  fault_free saved
  ∧ World.cache_bucket saved !! CacheManager.archiveKey "repo-abc123" = Some bundle
  ∧ ∃ w',
      CacheManager.restoreCache "repo-abc123" saved = (Ok true, w')
      ∧ Toy.files (World.sandbox w') = ∅
      ∧ World.metrics_kv w' !! CacheManager.metadataKey "repo-abc123"
        = Some (VCache (CacheKey.mk "repo-abc123" node_paths 1000 (Some 20))).
Proof.
  assert (fault_free saved) as Hff by constructor.
  split; [exact Hff |]. split; [exact saved_bundle |].
  destruct (restoreCache_hit "repo-abc123" bundle saved Hff saved_bundle)
    as [(w' & Hrun & Hsb & Hmeta & _) _].
  exists w'. split; [exact Hrun |]. split.
  - rewrite Hsb. by vm_compute.
  - rewrite (Hmeta (CacheKey.mk "repo-abc123" node_paths 1000 (Some 20)));
      [| by vm_compute].
    rewrite lookup_insert_eq. by vm_compute.
Defined.


Lemma cacheExists_agrees_witness :
  fault_free saved
  ∧ (CacheManager.cacheExists "repo-abc123" saved).1 = Ok true
  ∧ (CacheManager.restoreCache "repo-abc123" saved).1 = Ok true
  ∧ (CacheManager.cacheExists "other" saved).1 = Ok false
  ∧ (CacheManager.restoreCache "other" saved).1 = Ok false.
Proof.
  assert (fault_free saved) as Hff by constructor.
  split; [exact Hff |].
  destruct (cacheExists_agrees "repo-abc123" saved Hff) as (w1 & w2 & -> & -> & _).
  destruct (cacheExists_agrees "other" saved Hff) as (w3 & w4 & -> & -> & _).
  cbn [fst]. rewrite saved_bundle.
  split; [done |]. split; [done |]. split; by vm_compute.
Defined.
End CacheWitnesses2.

(** ** Listings of the blob store *)

Section BlobListing.
Import BlobSpec ListingSpec.
Implicit Types (bucket : R2) (key prefix : string) (obj : R2Object.t).

Lemma elem_of_R2Bucket_list prefix bucket key obj :
  (key, obj) ∈ R2Bucket.list prefix bucket
  ↔ JS.startsWith key prefix = true ∧ bucket !! key = Some obj.
Proof.
  unfold R2Bucket.list. rewrite list_elem_of_omap. split.
  - intros (key' & Hin & Hsome).
    rewrite merge_sort_Permutation, list_elem_of_filter in Hin.
    destruct Hin as [Hp _].
    destruct (bucket !! key') as [obj' |] eqn:Hget; [| done].
    cbn in Hsome. by simplify_eq.
  - intros [Hp Hget]. exists key. split.
    + rewrite merge_sort_Permutation, list_elem_of_filter, elem_of_elements.
      split; [done |]. apply elem_of_dom. by eexists.
    + by rewrite Hget.
Qed.

Lemma R2Bucket_list_keys prefix bucket :
  (R2Bucket.list prefix bucket).*1
  = merge_sort String.le
      (filter (λ key, JS.startsWith key prefix = true) (elements (dom bucket))).
Proof.
  unfold R2Bucket.list.
  assert (Forall (λ key, is_Some (bucket !! key))
            (merge_sort String.le
               (filter (λ key, JS.startsWith key prefix = true)
                  (elements (dom bucket))))) as Hall.
  { apply Forall_forall. intros key.
    rewrite merge_sort_Permutation, list_elem_of_filter, elem_of_elements.
    intros [_ ?]. by apply elem_of_dom. }
  induction Hall as [| key keys [obj Hget] _ IH]; [done |].
  cbn [omap list_omap]. rewrite Hget. cbn. by rewrite IH.
Qed.

Lemma NoDup_R2Bucket_list prefix bucket : NoDup (R2Bucket.list prefix bucket).*1.
Proof.
  rewrite R2Bucket_list_keys, merge_sort_Permutation.
  apply NoDup_filter, NoDup_elements.
Qed.

(** The first entry of a listing has the least key. *)
Lemma R2Bucket_list_head prefix bucket key obj rest :
  R2Bucket.list prefix bucket = (key, obj) :: rest →
  ∀ key' obj', JS.startsWith key' prefix = true → bucket !! key' = Some obj' →
  String.le key key'.
Proof.
  intros Hlist key' obj' Hp Hget.
  assert ((key', obj') ∈ R2Bucket.list prefix bucket) as Hin.
  { by apply elem_of_R2Bucket_list. }
  pose proof (R2Bucket_list_keys prefix bucket) as Hkeys.
  assert (StronglySorted String.le (R2Bucket.list prefix bucket).*1) as Hsorted.
  { rewrite Hkeys. apply Sorted_StronglySorted; [apply _ |].
    apply Sorted_merge_sort. apply _. }
  rewrite Hlist in Hsorted, Hin. cbn in Hsorted.
  apply StronglySorted_inv in Hsorted as [_ Hleast].
  apply elem_of_cons in Hin as [[= -> ->] | Hin]; [done |].
  rewrite Forall_forall in Hleast. apply Hleast.
  apply list_elem_of_fmap. by exists (key', obj').
Qed.
End BlobListing.

(** ** Strings that go through the custom metadata and come back *)

Section MetadataRoundTrip.
Import ListingSpec.

Lemma split_free sep s : free_of sep s = true → JS.split sep s = [s].
Proof.
  induction s as [| c s IH]; [done |].
  cbn [free_of JS.split]. intros [Hc Hs]%andb_true_iff.
  apply negb_true_iff in Hc. rewrite Hc, IH by done. done.
Qed.

Lemma split_join sep paths :
  paths ≠ [] → Forall (λ path, free_of sep path = true) paths →
  JS.split sep (JS.join (String sep "") paths) = paths.
Proof.
  intros Hne Hall. induction Hall as [| path rest Hfree Hall IH]; [done |].
  destruct rest as [| path' rest].
  - cbn [JS.join]. by apply split_free.
  - change (JS.join (String sep "") (path :: path' :: rest))
      with (path +:+ String sep "" +:+ JS.join (String sep "") (path' :: rest)).
    change (String sep "" +:+ ?s) with (String sep s).
    rewrite split_app by done. by rewrite IH.
Qed.

Lemma filter_Boolean_plain paths :
  Forall (λ path, plain_path path = true) paths → JS.filter_Boolean paths = paths.
Proof.
  unfold JS.filter_Boolean. induction 1 as [| path paths Hp _ IH]; [done |].
  rewrite filter_cons, IH. rewrite decide_True; [done |].
  unfold plain_path in Hp. apply andb_true_iff in Hp as [Hne _].
  apply negb_true_iff in Hne. by apply bool_decide_eq_false in Hne.
Qed.

Lemma paths_round_trip paths :
  Forall (λ path, plain_path path = true) paths →
  JS.filter_Boolean (JS.split "," (JS.or_else (Some (JS.join "," paths)) "")) = paths.
Proof.
  intros Hall.
  assert (JS.or_else (Some (JS.join "," paths)) "" = JS.join "," paths) as ->.
  { unfold JS.or_else. by case_decide. }
  destruct (decide (paths = [])) as [-> | Hne]; [done |].
  rewrite (split_join "," paths); [by apply filter_Boolean_plain | done |].
  eapply Forall_impl; [done |]. intros path Hp. unfold plain_path in Hp.
  by apply andb_true_iff in Hp as [_ ?].
Qed.

Lemma timestamp_round_trip (t : Z) :
  JS.parseInt (JS.or_else (Some (pretty t)) "0") = Some t.
Proof.
  unfold JS.or_else. case_decide as Hempty; [| apply parseInt_pretty].
  pose proof (parseInt_pretty t) as Hparse. by rewrite Hempty in Hparse.
Qed.
End MetadataRoundTrip.

(** ** Listing and pruning the caches *)

Section ListCaches.
Context {S : Type} `{!ISandbox S} `{!Base64}.
Import RunSpec RunSpec2 BlobSpec ListingSpec.
Implicit Types (w : World.t S).

Local Open Scope async_scope.

Lemma listCaches_fault_free w :
  fault_free w →
  CacheManager.listCaches w
  = (Ok (CacheManager.listed_cache <$> R2Bucket.list "cache/" (World.cache_bucket w)),
     World.advance (Tick.elapsed (World.next_tick w)) w).
Proof.
  intros Hw. unfold CacheManager.listCaches, Async.bind.
  by rewrite await_fault_free.
Qed.

Lemma listed_bundle cacheKey paths timestamp body :
  cacheKey ≠ "" → Forall (λ path, plain_path path = true) paths →
  CacheManager.listed_cache
    (CacheManager.archiveKey cacheKey,
     R2Object.mk body
       (bundle_metadata cacheKey paths timestamp (Z.of_nat (String.length body))))
  = CacheListing.mk cacheKey paths (Some timestamp) (Z.of_nat (String.length body)).
Proof.
  intros Hkey Hpaths. unfold CacheManager.listed_cache, bundle_metadata, R2Bucket.meta.
  cbn [R2Object.customMetadata find fst snd String.eqb Ascii.eqb Bool.eqb fmap
       option_fmap option_map].
  f_equal.
  - unfold JS.or_else. by rewrite decide_False.
  - by apply paths_round_trip.
  - apply timestamp_round_trip.
Qed.

(** X13. A cache that [saveCache] has saved appears in [listCaches] as
    the record [saveCache] returned, key, paths, time and size, when
    the key is not empty and no path is empty or has a comma in it;
    the metadata travel as strings and are read back. *)
Theorem listCaches_lists_saved cacheKey paths w meta w1 w2
    (Hsave : CacheManager.saveCache cacheKey paths w = (Ok meta, w1))
    (Hbucket : World.cache_bucket w2 = World.cache_bucket w1)
    (Hff : fault_free w2)
    (Hkey : cacheKey ≠ "")
    (Hpaths : Forall (λ path, plain_path path = true) paths) :
  ∃ caches w3 size,
    CacheManager.listCaches w2 = (Ok caches, w3)
    ∧ CacheKey.size meta = Some size
    ∧ CacheListing.mk (CacheKey.key meta) (CacheKey.paths meta)
        (Some (CacheKey.lastUsed meta)) size ∈ caches.
Proof.
  destruct (saveCache_Ok_inv _ _ _ _ _ Hsave) as (content & -> & Hb & _).
  rewrite listCaches_fault_free by done.
  eexists _, _, _. split; [reflexivity |]. split; [reflexivity |].
  cbn [CacheKey.key CacheKey.paths CacheKey.lastUsed].
  apply list_elem_of_fmap.
  eexists (CacheManager.archiveKey cacheKey, _). split.
  - symmetry. by apply listed_bundle.
  - apply elem_of_R2Bucket_list. split; [reflexivity |].
    rewrite Hbucket, Hb. apply lookup_insert_eq.
Qed.
End ListCaches.

Section Pruning.
Import BlobSpec ListingSpec.
Implicit Types (bucket : R2) (key prefix : string) (obj : R2Object.t).

(** The condition of the pruning loops. *)
Lemma stale_eq cutoff obj :
  JS.lt (Some 0) (stamp obj) && JS.lt (stamp obj) (Some cutoff) = stale cutoff obj.
Proof.
  unfold stale, JS.lt. destruct (stamp obj) as [t |]; [| done].
  destruct (Z.ltb_spec 0 t), (Z.ltb_spec t cutoff); cbn [andb];
    by rewrite ?bool_decide_eq_true_2, ?bool_decide_eq_false_2 by lia.
Qed.

(** A bucket after the stale entries of a list have been deleted. *)
Lemma swept_cons cutoff entry (l : list (string * R2Object.t)) bucket :
  swept cutoff (entry :: l) bucket
  = swept cutoff l
      (if stale cutoff entry.2 then base.delete entry.1 bucket else bucket).
Proof. reflexivity. Qed.

Lemma swept_metadata_cons cutoff entry (l : list (string * R2Object.t)) kv :
  swept_metadata cutoff (entry :: l) kv
  = swept_metadata cutoff l
      (if stale cutoff entry.2 then
         match R2Bucket.meta "cacheKey" entry.2 with
         | Some cacheKey =>
             if decide (cacheKey = "") then kv
             else Kv.delete (CacheManager.metadataKey cacheKey) kv
         | None => kv
         end
       else kv).
Proof. reflexivity. Qed.

Lemma lookup_swept_absent cutoff (l : list (string * R2Object.t)) bucket key :
  bucket !! key = None →
  swept cutoff l bucket !! key = None.
Proof.
  revert bucket. induction l as [| [k o] l IH]; intros b Hb; [done |].
  rewrite swept_cons. cbn [fst snd]. apply IH. destruct (stale cutoff o); [| done].
  rewrite lookup_delete. by case_decide.
Qed.

Lemma lookup_swept_None cutoff (l : list (string * R2Object.t)) bucket key obj :
  (key, obj) ∈ l → stale cutoff obj = true →
  swept cutoff l bucket !! key = None.
Proof.
  revert bucket. induction l as [| [key' obj'] l IH]; intros bucket Hin Hstale.
  { by apply elem_of_nil in Hin. }
  rewrite swept_cons. cbn [fst snd].
  apply elem_of_cons in Hin as [[= <- <-] | ?]; [| by apply IH].
  rewrite Hstale. apply lookup_swept_absent, lookup_delete_eq.
Qed.

Lemma lookup_swept_other cutoff (l : list (string * R2Object.t)) bucket key :
  (∀ obj, (key, obj) ∈ l → stale cutoff obj = false) →
  swept cutoff l bucket !! key = bucket !! key.
Proof.
  revert bucket. induction l as [| [key' obj'] l IH]; intros bucket Hother; [done |].
  rewrite swept_cons. cbn [fst snd]. rewrite IH.
  - destruct (stale cutoff obj') eqn:Hstale; [| done].
    apply lookup_delete_ne. intros ->.
    rewrite (Hother obj') in Hstale; [done | left].
  - intros obj Hin. apply Hother. by right.
Qed.

Lemma swept_filter cutoff prefix bucket :
  swept cutoff (R2Bucket.list prefix bucket) bucket
  = filter (λ entry, pruned prefix cutoff entry = false) bucket.
Proof.
  apply map_eq. intros key. rewrite map_lookup_filter.
  destruct (bucket !! key) as [obj |] eqn:Hget; cbn.
  - destruct (pruned prefix cutoff (key, obj)) eqn:Hp.
    + unfold pruned in Hp. cbn [fst snd] in Hp. apply andb_true_iff in Hp as [Hpre Hst].
      rewrite option_guard_False by done.
      apply (lookup_swept_None _ _ _ _ obj); [| done].
      by apply elem_of_R2Bucket_list.
    + rewrite option_guard_True by done. rewrite lookup_swept_other; [done |].
      intros obj' [Hpre Hget']%elem_of_R2Bucket_list. simplify_eq.
      unfold pruned in Hp. cbn [fst snd] in Hp. by rewrite Hpre in Hp.
  - rewrite lookup_swept_other; [done |].
    intros obj' [_ Hget']%elem_of_R2Bucket_list. by simplify_eq.
Qed.

Lemma swept_count cutoff prefix bucket :
  length (filter (λ entry, stale cutoff entry.2 = true) (R2Bucket.list prefix bucket))
  = size (filter (λ entry, pruned prefix cutoff entry = true) bucket).
Proof.
  rewrite <- length_map_to_list.
  apply Permutation_length, NoDup_Permutation.
  - apply NoDup_filter. eapply NoDup_fmap_1, NoDup_R2Bucket_list.
  - apply NoDup_map_to_list.
  - intros [key obj]. rewrite list_elem_of_filter, elem_of_R2Bucket_list.
    rewrite elem_of_map_to_list, map_lookup_filter_Some.
    unfold pruned. cbn [fst snd]. rewrite andb_true_iff. tauto.
Qed.
End Pruning.

Section SweptMetadata.
Import BlobSpec ListingSpec.

Lemma lookup_swept_metadata_absent cutoff (l : list (string * R2Object.t)) (kv : KV) key :
  kv !! key = None → swept_metadata cutoff l kv !! key = None.
Proof.
  revert kv. induction l as [| [name obj] l IH]; intros kv Hkv; [done |].
  rewrite swept_metadata_cons. cbn [fst snd]. apply IH.
  destruct (stale cutoff obj); [| done].
  destruct (R2Bucket.meta "cacheKey" obj) as [cacheKey |]; [| done].
  case_decide; [done |]. unfold Kv.delete. rewrite lookup_delete. by case_decide.
Qed.

Lemma lookup_swept_metadata_None cutoff (l : list (string * R2Object.t)) (kv : KV)
    name obj cacheKey :
  (name, obj) ∈ l → stale cutoff obj = true →
  R2Bucket.meta "cacheKey" obj = Some cacheKey → cacheKey ≠ "" →
  swept_metadata cutoff l kv !! CacheManager.metadataKey cacheKey = None.
Proof.
  revert kv. induction l as [| [name' obj'] l IH]; intros kv Hin Hstale Hmeta Hne.
  { by apply elem_of_nil in Hin. }
  rewrite swept_metadata_cons. cbn [fst snd].
  apply elem_of_cons in Hin as [[= <- <-] | ?]; [| by apply IH].
  rewrite Hstale, Hmeta. rewrite decide_False by done.
  apply lookup_swept_metadata_absent. apply lookup_delete_eq.
Qed.

Lemma lookup_swept_metadata_other cutoff (l : list (string * R2Object.t)) (kv : KV) key :
  (∀ name obj cacheKey,
     (name, obj) ∈ l → stale cutoff obj = true →
     R2Bucket.meta "cacheKey" obj = Some cacheKey → cacheKey ≠ "" →
     key ≠ CacheManager.metadataKey cacheKey) →
  swept_metadata cutoff l kv !! key = kv !! key.
Proof.
  revert kv. induction l as [| [name obj] l IH]; intros kv Hother; [done |].
  rewrite swept_metadata_cons. cbn [fst snd]. rewrite IH.
  - destruct (stale cutoff obj) eqn:Hstale; [| done].
    destruct (R2Bucket.meta "cacheKey" obj) as [cacheKey |] eqn:Hmeta; [| done].
    case_decide as Hne; [done |].
    apply lookup_delete_ne. intros Heq.
    apply (Hother name obj cacheKey); [left | done ..].
  - intros name' obj' cacheKey Hin. apply (Hother name'). by right.
Qed.

Lemma stale_stamped cutoff obj t :
  R2Bucket.meta "timestamp" obj = Some (pretty t) →
  stale cutoff obj = bool_decide (0 < t < cutoff).
Proof. intros Hmeta. unfold stale, stamp. by rewrite Hmeta, timestamp_round_trip. Qed.

Lemma stale_unstamped cutoff obj :
  R2Bucket.meta "timestamp" obj = None → stale cutoff obj = false.
Proof. intros Hmeta. unfold stale, stamp. rewrite Hmeta. by vm_compute. Qed.
End SweptMetadata.

Section PruneCaches.
Context {S : Type} `{!ISandbox S} `{!Base64}.
Import RunSpec RunSpec2 BlobSpec ListingSpec.
Implicit Types (w : World.t S).

Local Open Scope async_scope.

Lemma pruneCaches_run maxAge w :
  fault_free w →
  ∃ w',
    CacheManager.pruneCaches maxAge w
    = (Ok (Z.of_nat
             (length (filter (λ entry, stale (World.clock w - maxAge) entry.2 = true)
                        (R2Bucket.list "cache/" (World.cache_bucket w))))), w')
    ∧ World.cache_bucket w'
      = swept (World.clock w - maxAge)
          (R2Bucket.list "cache/" (World.cache_bucket w)) (World.cache_bucket w)
    ∧ World.metrics_kv w'
      = swept_metadata (World.clock w - maxAge)
          (R2Bucket.list "cache/" (World.cache_bucket w)) (World.metrics_kv w)
    ∧ World.sandbox w' = World.sandbox w
    ∧ World.state_bucket w' = World.state_bucket w.
Proof.
  intros Hw. unfold CacheManager.pruneCaches.
  unfold Date_now at 1. unfold Async.bind at 1.
  unfold Async.bind at 1. rewrite await_fault_free by done.
  unfold Async.bind at 1. unfold Async.get at 1, Async.ret at 1.
  cbn [World.cache_bucket World.advance].
  set (w1 := World.advance _ w).
  assert (fault_free w1) as Hw1 by (subst w1; fault_free).
  set (cutoff := World.clock w - maxAge).
  match goal with
  | |- context [for_fold _ _ ?body] =>
      assert (∀ l d w1, fault_free w1 →
        ∃ w',
          for_fold l d body w1
          = (Ok (d + Z.of_nat
                       (length (filter (λ entry, stale cutoff entry.2 = true) l))), w')
          ∧ World.cache_bucket w' = swept cutoff l (World.cache_bucket w1)
          ∧ World.metrics_kv w' = swept_metadata cutoff l (World.metrics_kv w1)
          ∧ World.sandbox w' = World.sandbox w1
          ∧ World.state_bucket w' = World.state_bucket w1) as Hloop
  end.
  { clearbody cutoff. clear. induction l as [| [key obj] l IH]; intros d w1 Hw1.
    { exists w1. cbn. rewrite Z.add_0_r. done. }
    cbn [for_fold]. unfold Async.bind at 1.
    change (JS.parseInt (JS.or_else (R2Bucket.meta "timestamp" obj) "0"))
      with (stamp obj).
    rewrite stale_eq. rewrite filter_cons, swept_cons, swept_metadata_cons.
    cbn [fst snd].
    destruct (stale cutoff obj) eqn:Hstale.
    - rewrite decide_True by done.
      unfold Async.bind at 1. rewrite await_fault_free by done.
      unfold Async.modify at 1.
      set (w2 := World.set_cache_bucket _ _).
      assert (fault_free w2) as Hw2 by (subst w2; fault_free).
      destruct (R2Bucket.meta "cacheKey" obj) as [cacheKey |] eqn:Hmeta.
      + destruct (decide (cacheKey = "")) as [Hempty | Hne].
        * unfold Async.bind at 1. unfold Async.ret at 1 2.
          destruct (IH (d + 1) w2 Hw2) as (w' & Hrun & Hb & Hk & Hs & Hst).
          exists w'. rewrite Hrun. cbn [length].
          split; [f_equal; f_equal; lia | done].
        * unfold Async.bind at 1. rewrite await_fault_free by done.
          unfold Async.modify at 1. unfold Async.ret at 1.
          set (w3 := World.set_metrics_kv _ _).
          assert (fault_free w3) as Hw3 by (subst w3; fault_free).
          destruct (IH (d + 1) w3 Hw3) as (w' & Hrun & Hb & Hk & Hs & Hst).
          exists w'. rewrite Hrun. cbn [length].
          split; [f_equal; f_equal; lia | done].
      + unfold Async.bind at 1. unfold Async.ret at 1 2.
        destruct (IH (d + 1) w2 Hw2) as (w' & Hrun & Hb & Hk & Hs & Hst).
        exists w'. rewrite Hrun. cbn [length].
        split; [f_equal; f_equal; lia | done].
    - rewrite decide_False by done. unfold Async.ret at 1.
      by apply IH. }
  destruct (Hloop (R2Bucket.list "cache/" (World.cache_bucket w)) 0 w1 Hw1)
    as (w' & Hrun & Hrest).
  exists w'. by rewrite Hrun, Z.add_0_l.
Qed.
(** X14. With no call made to reject, [pruneCaches] deletes from the
    blob store exactly the bundles under [cache/] stamped with a positive
    time before [now - maxAge], and answers their number. A bundle
    stamped by [saveCache] at time [t] goes exactly when
    [0 < t < now - maxAge]; an object without a time stamp stays. Of
    the cache metadata exactly the records named by the deleted bundles
    go. The time stamp is the time of saving: [lastUsed], which
    [restoreCache] refreshes, is not looked at. *)
Theorem pruneCaches_deletes_stale maxAge w (Hff : fault_free w) :
  let cutoff := World.clock w - maxAge in
  ∃ w',
    CacheManager.pruneCaches maxAge w
    = (Ok (Z.of_nat (size (filter (λ entry, pruned "cache/" cutoff entry = true)
                             (World.cache_bucket w)))), w')
    ∧ World.cache_bucket w'
      = filter (λ entry, pruned "cache/" cutoff entry = false) (World.cache_bucket w)
    ∧ (∀ key obj t,
         World.cache_bucket w !! key = Some obj →
         JS.startsWith key "cache/" = true →
         R2Bucket.meta "timestamp" obj = Some (pretty t) →
         World.cache_bucket w' !! key
         = if bool_decide (0 < t < cutoff) then None else Some obj)
    ∧ (∀ key obj,
         World.cache_bucket w !! key = Some obj →
         R2Bucket.meta "timestamp" obj = None →
         World.cache_bucket w' !! key = Some obj)
    ∧ (∀ key, pruned_metadata cutoff (World.cache_bucket w) key →
              World.metrics_kv w' !! key = None)
    ∧ (∀ key, ¬ pruned_metadata cutoff (World.cache_bucket w) key →
              World.metrics_kv w' !! key = World.metrics_kv w !! key).
Proof.
  intros cutoff.
  destruct (pruneCaches_run maxAge w Hff) as (w' & Hrun & Hb & Hk & _ & _).
  fold cutoff in Hrun, Hb, Hk.
  rewrite swept_count in Hrun. rewrite swept_filter in Hb.
  exists w'. split; [done |]. split; [done |]. split; [| split; [| split]].
  - intros key obj t Hget Hpre Hmeta. rewrite Hb, map_lookup_filter, Hget. cbn.
    unfold pruned. cbn [fst snd]. rewrite Hpre, (stale_stamped _ _ t) by done.
    cbn [andb]. case_bool_decide.
    + by rewrite option_guard_False.
    + by rewrite option_guard_True.
  - intros key obj Hget Hmeta. rewrite Hb, map_lookup_filter, Hget. cbn.
    rewrite option_guard_True; [done |].
    unfold pruned. cbn [fst snd]. rewrite stale_unstamped by done.
    apply andb_false_r.
  - intros key (name & obj & cacheKey & Hget & Hp & Hmeta & Hne & ->).
    rewrite Hk. unfold pruned in Hp. cbn [fst snd] in Hp.
    apply andb_true_iff in Hp as [Hpre Hstale].
    apply (lookup_swept_metadata_None _ _ _ name obj); [| done ..].
    by apply elem_of_R2Bucket_list.
  - intros key Hnot. rewrite Hk. apply lookup_swept_metadata_other.
    intros name obj cacheKey [Hpre Hget]%elem_of_R2Bucket_list Hstale Hmeta Hne ->.
    apply Hnot. exists name, obj, cacheKey. split; [done |].
    split; [| done]. unfold pruned. cbn [fst snd]. by rewrite Hpre, Hstale.
Qed.
End PruneCaches.

Section CacheWitnesses3.
Import RunSpec RunSpec2 BlobSpec ListingSpec ToyCache ToyCache2.

Lemma saved_run :
  CacheManager.saveCache "repo-abc123" node_paths installed
  = (Ok (CacheKey.mk "repo-abc123" node_paths 1000 (Some 20)), saved).
Proof. by vm_compute. Qed.

Lemma listCaches_lists_saved_witness :
  fault_free saved
  ∧ Forall (λ path, plain_path path = true) node_paths
  ∧ ∃ caches w3,
      CacheManager.listCaches saved = (Ok caches, w3)
      ∧ CacheListing.mk "repo-abc123" node_paths (Some 1000) 20 ∈ caches.
Proof.
  assert (fault_free saved) as Hff by constructor.
  assert (Forall (λ path, plain_path path = true) node_paths) as Hpaths.
  { by repeat constructor. }
  split; [exact Hff |]. split; [exact Hpaths |].
  destruct (listCaches_lists_saved "repo-abc123" node_paths installed _ saved saved
              saved_run eq_refl Hff) as (caches & w3 & size & Hrun & Hsize & Hin);
    [done | exact Hpaths |].
  exists caches, w3. split; [exact Hrun |].
  cbn in Hsize. by injection Hsize as <-.
Defined.

Lemma pruneCaches_deletes_stale_witness :
  fault_free forty_days_on
  ∧ ∃ w',
      CacheManager.pruneCaches CacheManager.default_maxAge forty_days_on = (Ok 1, w')
      ∧ World.cache_bucket w' !! CacheManager.archiveKey "repo-abc123" = None
      ∧ World.metrics_kv w' !! CacheManager.metadataKey "repo-abc123" = None.
Proof.
  assert (fault_free forty_days_on) as Hff by constructor.
  split; [exact Hff |].
  destruct (pruneCaches_deletes_stale CacheManager.default_maxAge forty_days_on Hff)
    as (w' & Hrun & _ & Hstamped & _ & Hgone & _).
  exists w'. split; [| split].
  - rewrite Hrun. by vm_compute.
  - rewrite (Hstamped _ bundle 1000); by vm_compute.
  - apply Hgone. clear.
    exists (CacheManager.archiveKey "repo-abc123"), bundle, "repo-abc123".
    split; [vm_compute; reflexivity |]. split; [vm_compute; reflexivity |].
    split; [reflexivity |]. split; [discriminate | reflexivity].
Defined.
End CacheWitnesses3.

(** ** The state manager: snapshots taken, restored, looked up and pruned *)

Section Snapshots.
Context {S : Type} `{!ISandbox S} `{!Base64}.
Import RunSpec RunSpec2 BlobSpec ListingSpec.
Implicit Types (w : World.t S).

Local Open Scope async_scope.


Lemma restoreSnapshot_found_run snapshotKey object w :
  fault_free w →
  World.state_bucket w !! snapshotKey = Some object →
  ∃ w',
    StateManager.restoreSnapshot snapshotKey w = (Ok tt, w')
    ∧ World.sandbox w'
      = (exec "rm /tmp/restore.tar.gz" None
           (exec "tar -xzf /tmp/restore.tar.gz -C /" None
              (writeFile "/tmp/restore.tar.gz" (base64_encode (R2Object.body object))
                 (World.sandbox w))).2).2
    ∧ World.state_bucket w' = World.state_bucket w.
Proof.
  intros Hw Hobject. unfold StateManager.restoreSnapshot.
  unfold Async.bind at 1. rewrite await_fault_free by done.
  unfold Async.bind at 1. unfold Async.get at 1, Async.ret at 1.
  cbn [World.state_bucket World.advance]. rewrite Hobject.
  set (w1 := World.advance _ w).
  assert (fault_free w1) as Hw1 by (subst w1; fault_free).
  unfold Async.bind at 1. rewrite await_fault_free by done.
  unfold Async.ret at 1.
  set (w2 := World.advance _ w1).
  assert (fault_free w2) as Hw2 by (subst w2; fault_free).
  rewrite (bind_Ok _ _ _ _ _ (sandbox_writeFile_fault_free _ _ w2 Hw2)).
  set (w3 := World.set_sandbox _ _).
  assert (fault_free w3) as Hw3 by (subst w3; fault_free).
  rewrite (bind_Ok _ _ _ _ _ (sandbox_exec_fault_free _ _ w3 Hw3)).
  set (w4 := World.set_sandbox _ _).
  assert (fault_free w4) as Hw4 by (subst w4; fault_free).
  rewrite (bind_Ok _ _ _ _ _ (sandbox_exec_fault_free _ _ w4 Hw4)).
  eexists. split; [reflexivity |]. split; reflexivity.
Qed.

(** X15. With no call made to reject, [restoreSnapshot] returns exactly
    when the blob store holds an object under the key, and has then
    written the object to the sandbox, unpacked it and removed it; for
    a key the blob store does not hold it throws that the snapshot was
    not found, naming the key, and has not touched the sandbox. *)
Theorem restoreSnapshot_found_iff snapshotKey w (Hff : fault_free w) :
  (∀ object, World.state_bucket w !! snapshotKey = Some object →
     ∃ w',
       StateManager.restoreSnapshot snapshotKey w = (Ok tt, w')
       ∧ World.sandbox w'
         = (exec "rm /tmp/restore.tar.gz" None
              (exec "tar -xzf /tmp/restore.tar.gz -C /" None
                 (writeFile "/tmp/restore.tar.gz"
                    (base64_encode (R2Object.body object)) (World.sandbox w))).2).2)
  ∧ (World.state_bucket w !! snapshotKey = None →
     ∃ w',
       StateManager.restoreSnapshot snapshotKey w
       = (Throw ("Snapshot not found: " +:+ snapshotKey), w')
       ∧ World.sandbox w' = World.sandbox w).
Proof.
  split.
  - intros object Hobject.
    destruct (restoreSnapshot_found_run snapshotKey object w Hff Hobject)
      as (w' & Hrun & Hsb & _).
    by exists w'.
  - intros Hnone. exists (World.advance (Tick.elapsed (World.next_tick w)) w).
    split; [| done].
    unfold StateManager.restoreSnapshot, Async.bind. rewrite await_fault_free by done.
    unfold Async.get, Async.ret. cbn [World.state_bucket World.advance].
    by rewrite Hnone.
Qed.


Lemma getLatestSnapshot_fault_free jobId commit w :
  fault_free w →
  StateManager.getLatestSnapshot jobId commit w
  = (Ok match R2Bucket.list ("snapshots/" +:+ jobId +:+ "/" +:+ commit +:+ "/")
                (World.state_bucket w) with
        | [] => None
        | (key, obj) :: _ =>
            Some (SnapshotListing.mk
                    (JS.or_else (R2Bucket.meta "jobId" obj) jobId)
                    (JS.or_else (R2Bucket.meta "sandboxId" obj) "unknown")
                    (JS.or_else (R2Bucket.meta "commit" obj) commit)
                    (stamp obj) key (R2Bucket.size obj))
        end,
     World.advance (Tick.elapsed (World.next_tick w)) w).
Proof.
  intros Hw. unfold StateManager.getLatestSnapshot.
  unfold Async.bind at 1. rewrite await_fault_free by done.
  unfold Async.bind at 1. unfold Async.get at 1, Async.ret at 1.
  cbn [World.state_bucket World.advance].
  by destruct (R2Bucket.list _ _) as [| [key obj] rest].
Qed.

(** X17. With no call made to reject, [getLatestSnapshot] answers none
    exactly when the blob store holds no object under the prefix of
    the job and the commit; otherwise it answers the object whose key
    is the least of those under the prefix, in the lexicographic order
    of the keys, with the size of that object and the time stamp of its
    metadata. *)
Theorem getLatestSnapshot_least_key jobId commit w (Hff : fault_free w) :
  let prefix := "snapshots/" +:+ jobId +:+ "/" +:+ commit +:+ "/" in
  ∃ found w',
    StateManager.getLatestSnapshot jobId commit w = (Ok found, w')
    ∧ (found = None ↔
       ∀ key, JS.startsWith key prefix = true → World.state_bucket w !! key = None)
    ∧ ∀ snapshot, found = Some snapshot →
        ∃ obj,
          World.state_bucket w !! SnapshotListing.archivePath snapshot = Some obj
          ∧ JS.startsWith (SnapshotListing.archivePath snapshot) prefix = true
          ∧ SnapshotListing.size snapshot = R2Bucket.size obj
          ∧ SnapshotListing.timestamp snapshot = stamp obj
          ∧ ∀ key obj', JS.startsWith key prefix = true →
              World.state_bucket w !! key = Some obj' →
              String.le (SnapshotListing.archivePath snapshot) key.
Proof.
  intros prefix. rewrite getLatestSnapshot_fault_free by done. fold prefix.
  eexists _, _. split; [reflexivity |].
  destruct (R2Bucket.list prefix (World.state_bucket w)) as [| [key obj] rest] eqn:Hlist.
  - split; [| done]. split; [| done]. intros _ key Hpre.
    destruct (World.state_bucket w !! key) as [obj |] eqn:Hget; [| done].
    assert ((key, obj) ∈ R2Bucket.list prefix (World.state_bucket w)) as Hin.
    { by apply elem_of_R2Bucket_list. }
    rewrite Hlist in Hin. by apply elem_of_nil in Hin.
  - assert ((key, obj) ∈ R2Bucket.list prefix (World.state_bucket w)) as Hin.
    { rewrite Hlist. left. }
    apply elem_of_R2Bucket_list in Hin as [Hpre Hget].
    split.
    + split; [done |]. intros Hnone. by rewrite (Hnone key Hpre) in Hget.
    + intros snapshot [= <-]. exists obj. cbn [SnapshotListing.archivePath
        SnapshotListing.size SnapshotListing.timestamp].
      split; [done |]. split; [done |]. split; [done |]. split; [done |].
      by apply (R2Bucket_list_head _ _ _ _ _ Hlist).
Qed.
Lemma pruneSnapshots_run maxAge w :
  fault_free w →
  ∃ w',
    StateManager.pruneSnapshots maxAge w
    = (Ok (Z.of_nat
             (length (filter (λ entry, stale (World.clock w - maxAge) entry.2 = true)
                        (R2Bucket.list "snapshots/" (World.state_bucket w))))), w')
    ∧ World.state_bucket w'
      = swept (World.clock w - maxAge)
          (R2Bucket.list "snapshots/" (World.state_bucket w)) (World.state_bucket w)
    ∧ World.cache_bucket w' = World.cache_bucket w
    ∧ World.metrics_kv w' = World.metrics_kv w
    ∧ World.sandbox w' = World.sandbox w.
Proof.
  intros Hw. unfold StateManager.pruneSnapshots.
  unfold Date_now at 1. unfold Async.bind at 1.
  unfold Async.bind at 1. rewrite await_fault_free by done.
  unfold Async.bind at 1. unfold Async.get at 1, Async.ret at 1.
  cbn [World.state_bucket World.advance].
  set (w1 := World.advance _ w).
  assert (fault_free w1) as Hw1 by (subst w1; fault_free).
  set (cutoff := World.clock w - maxAge).
  match goal with
  | |- context [for_fold _ _ ?body] =>
      assert (∀ l d w1, fault_free w1 →
        ∃ w',
          for_fold l d body w1
          = (Ok (d + Z.of_nat
                       (length (filter (λ entry, stale cutoff entry.2 = true) l))), w')
          ∧ World.state_bucket w' = swept cutoff l (World.state_bucket w1)
          ∧ World.cache_bucket w' = World.cache_bucket w1
          ∧ World.metrics_kv w' = World.metrics_kv w1
          ∧ World.sandbox w' = World.sandbox w1) as Hloop
  end.
  { clearbody cutoff. clear. induction l as [| [key obj] l IH]; intros d w1 Hw1.
    { exists w1. cbn. rewrite Z.add_0_r. done. }
    cbn [for_fold]. unfold Async.bind at 1.
    change (JS.parseInt (JS.or_else (R2Bucket.meta "timestamp" obj) "0"))
      with (stamp obj).
    rewrite stale_eq. rewrite filter_cons, swept_cons. cbn [fst snd].
    destruct (stale cutoff obj) eqn:Hstale.
    - rewrite decide_True by done.
      unfold Async.bind at 1. rewrite await_fault_free by done.
      unfold Async.modify at 1. unfold Async.ret at 1.
      set (w2 := World.set_state_bucket _ _).
      assert (fault_free w2) as Hw2 by (subst w2; fault_free).
      destruct (IH (d + 1) w2 Hw2) as (w' & Hrun & Hb & Hc & Hk & Hs).
      exists w'. rewrite Hrun. cbn [length].
      split; [f_equal; f_equal; lia | done].
    - rewrite decide_False by done. unfold Async.ret at 1.
      by apply IH. }
  destruct (Hloop (R2Bucket.list "snapshots/" (World.state_bucket w)) 0 w1 Hw1)
    as (w' & Hrun & Hrest).
  exists w'. by rewrite Hrun, Z.add_0_l.
Qed.

(** X18. With no call made to reject, [pruneSnapshots] deletes from the
    blob store exactly the objects under [snapshots/] stamped with a
    positive time before [now - maxAge], and answers their number: a
    snapshot stamped by [createSnapshot] at time [t] goes exactly when
    [0 < t < now - maxAge], an object without a time stamp stays, and
    the caches and their metadata are not touched. *)
Theorem pruneSnapshots_deletes_stale maxAge w (Hff : fault_free w) :
  let cutoff := World.clock w - maxAge in
  ∃ w',
    StateManager.pruneSnapshots maxAge w
    = (Ok (Z.of_nat (size (filter (λ entry, pruned "snapshots/" cutoff entry = true)
                             (World.state_bucket w)))), w')
    ∧ World.state_bucket w'
      = filter (λ entry, pruned "snapshots/" cutoff entry = false)
          (World.state_bucket w)
    ∧ (∀ key obj t,
         World.state_bucket w !! key = Some obj →
         JS.startsWith key "snapshots/" = true →
         R2Bucket.meta "timestamp" obj = Some (pretty t) →
         World.state_bucket w' !! key
         = if bool_decide (0 < t < cutoff) then None else Some obj)
    ∧ (∀ key obj,
         World.state_bucket w !! key = Some obj →
         R2Bucket.meta "timestamp" obj = None →
         World.state_bucket w' !! key = Some obj)
    ∧ World.cache_bucket w' = World.cache_bucket w
    ∧ World.metrics_kv w' = World.metrics_kv w.
Proof.
  intros cutoff.
  destruct (pruneSnapshots_run maxAge w Hff) as (w' & Hrun & Hb & Hc & Hk & _).
  fold cutoff in Hrun, Hb.
  rewrite swept_count in Hrun. rewrite swept_filter in Hb.
  exists w'. split; [done |]. split; [done |]. split; [| split; [| done]].
  - intros key obj t Hget Hpre Hmeta. rewrite Hb, map_lookup_filter, Hget. cbn.
    unfold pruned. cbn [fst snd]. rewrite Hpre, (stale_stamped _ _ t) by done.
    cbn [andb]. case_bool_decide.
    + by rewrite option_guard_False.
    + by rewrite option_guard_True.
  - intros key obj Hget Hmeta. rewrite Hb, map_lookup_filter, Hget. cbn.
    rewrite option_guard_True; [done |].
    unfold pruned. cbn [fst snd]. rewrite stale_unstamped by done.
    apply andb_false_r.
Qed.
End Snapshots.

Section SnapshotWitnesses.
Import RunSpec RunSpec2 BlobSpec ListingSpec ToySnapshots.


Lemma restoreSnapshot_found_iff_witness :
  fault_free once
  ∧ (∃ w',
       StateManager.restoreSnapshot "snapshots/build/abc123/1000.tar.gz" once
       = (Ok tt, w'))
  ∧ ∃ w',
      StateManager.restoreSnapshot "snapshots/build/abc123/2000.tar.gz" once
      = (Throw "Snapshot not found: snapshots/build/abc123/2000.tar.gz", w').
Proof.
  assert (fault_free once) as Hff by constructor.
  split; [exact Hff |]. split.
  - destruct (restoreSnapshot_found_iff "snapshots/build/abc123/1000.tar.gz" once Hff)
      as [Hfound _].
    destruct (Hfound (R2Object.mk "archive of the workspace"
                        [("jobId", "build"); ("commit", "abc123");
                         ("timestamp", "1000"); ("paths", "/workspace")]))
      as (w' & Hrun & _); [vm_compute; reflexivity |].
    by exists w'.
  - destruct (restoreSnapshot_found_iff "snapshots/build/abc123/2000.tar.gz" once Hff)
      as [_ Hmissing].
    destruct Hmissing as (w' & Hrun & _); [vm_compute; reflexivity |].
    by exists w'.
Defined.


(** Of two snapshots of one job and commit, taken at 1000 and at 2000,
    the one [getLatestSnapshot] answers is that taken at 1000. *)
Lemma getLatestSnapshot_least_key_witness :
  fault_free twice
  ∧ is_Some (World.state_bucket twice !! "snapshots/build/abc123/1000.tar.gz")
  ∧ is_Some (World.state_bucket twice !! "snapshots/build/abc123/2000.tar.gz")
  ∧ ∃ snapshot w',
      StateManager.getLatestSnapshot "build" "abc123" twice = (Ok (Some snapshot), w')
      ∧ SnapshotListing.timestamp snapshot = Some 1000
      ∧ String.le (SnapshotListing.archivePath snapshot)
          "snapshots/build/abc123/2000.tar.gz".
Proof.
  assert (fault_free twice) as Hff by constructor.
  split; [exact Hff |].
  split; [vm_compute; by eexists |]. split; [vm_compute; by eexists |].
  destruct (getLatestSnapshot_least_key "build" "abc123" twice Hff)
    as (found & w' & Hrun & _ & Hsome).
  assert (found = Some (SnapshotListing.mk "build" "unknown" "abc123" (Some 1000)
                          "snapshots/build/abc123/1000.tar.gz" 24)) as ->.
  { pose proof (f_equal fst Hrun) as Hfound. cbn [fst] in Hfound.
    assert (Ok found = Ok (Some (SnapshotListing.mk "build" "unknown" "abc123"
                                   (Some 1000)
                                   "snapshots/build/abc123/1000.tar.gz" 24)))
      as Heq; [| by injection Heq].
    rewrite <- Hfound. clear. vm_compute. reflexivity. }
  eexists _, w'. split; [exact Hrun |]. split; [reflexivity |].
  destruct (Hsome _ eq_refl) as (obj & _ & _ & _ & _ & Hleast).
  clear Hrun Hsome.
  apply (Hleast "snapshots/build/abc123/2000.tar.gz"
           (R2Object.mk "archive of the workspace"
              [("jobId", "build"); ("commit", "abc123");
               ("timestamp", "2000"); ("paths", "/workspace")])).
  - reflexivity.
  - vm_compute. reflexivity.
Defined.

Lemma pruneSnapshots_deletes_stale_witness :
  fault_free ten_days_on
  ∧ ∃ w',
      StateManager.pruneSnapshots StateManager.default_maxAge ten_days_on = (Ok 1, w')
      ∧ World.state_bucket w' !! "snapshots/build/abc123/1000.tar.gz" = None.
Proof.
  assert (fault_free ten_days_on) as Hff by constructor.
  split; [exact Hff |].
  destruct (pruneSnapshots_deletes_stale StateManager.default_maxAge ten_days_on Hff)
    as (w' & Hrun & _ & Hstamped & _).
  exists w'. split.
  - rewrite Hrun. clear. vm_compute. reflexivity.
  - rewrite (Hstamped _ (R2Object.mk "archive of the workspace"
                           [("jobId", "build"); ("commit", "abc123");
                            ("timestamp", "1000"); ("paths", "/workspace")]) 1000).
    + clear. vm_compute. reflexivity.
    + clear. vm_compute. reflexivity.
    + reflexivity.
    + reflexivity.
Defined.
End SnapshotWitnesses.

(** ** The orchestrator: jobs that pass, steps that fail, records left alone *)

Section PassingJobs.
Context {S : Type} `{!ISandbox S} `{!Base64}.
Import RunSpec RunSpec2 CacheSpec JobQueue QueueSpec OrchestratorSpec OrchestratorSpec2.
Implicit Types (w : World.t S) (job : JobConfig.t) (step : JobStep.t)
  (status : JobStatus.t).

Local Open Scope async_scope.

Lemma later_tail w w' : World.script w' = tail (World.script w) → later w w'.
Proof.
  unfold later. intros ->. destruct (World.script w); [done |].
  by apply suffix_cons_r.
Qed.

Lemma passes_later w w' step : later w w' → passes w step → passes w' step.
Proof. intros Hl [Hin Hexit]. split; [by eapply later_within | done]. Qed.

Lemma record_step_steps i result status :
  (i < length (JobStatus.steps status))%nat →
  JobStatus.steps (record_step i result status)
  = <[i := result]> (JobStatus.steps status).
Proof.
  intros Hi. unfold record_step, Orchestrator.array_set.
  cbn [JobStatus.steps JobStatus.set_steps JobStatus.set_currentStep].
  by rewrite decide_True.
Qed.

(** The loop over steps that all pass. *)
Lemma step_loop_all_pass job steps i status w :
  fault_free w → Forall (passes w) steps →
  (i + length steps ≤ length (JobStatus.steps status))%nat →
  ∃ status' w',
    Orchestrator.step_loop job i steps (status, w) = (Ok tt, (status', w'))
    ∧ later w w'
    ∧ JobStatus.status status' = JobStatus.status status
    ∧ JobStatus.error status' = JobStatus.error status
    ∧ JobStatus.startedAt status' = JobStatus.startedAt status
    ∧ JobStatus.id status' = JobStatus.id status
    ∧ length (JobStatus.steps status') = length (JobStatus.steps status)
    ∧ take i (JobStatus.steps status') = take i (JobStatus.steps status)
    ∧ Forall2 (λ step result,
                 StepResult.name result = JobStep.name step
                 ∧ StepResult.status result = StepResult.success)
        steps (take (length steps) (drop i (JobStatus.steps status'))).
Proof.
  revert i status w.
  induction steps as [| step rest IH]; intros i status w Hff Hall Hlen.
  { exists status, w. cbn [Orchestrator.step_loop length take].
    split; [done |]. split; [apply later_refl |]. repeat split; try done. }
  apply Forall_cons in Hall as [[Hin Hexit] Hrest]. cbn [length] in Hlen.
  destruct (step_loop_turn job i step rest status w Hff Hin)
    as (result & w1 & sb & Hl1 & Hname & Hstatus & Hturn).
  rewrite decide_True in Hstatus by apply Hexit.
  assert (stops step result = false) as Hstop.
  { unfold stops. by rewrite Hstatus. }
  rewrite Hstop in Hturn.
  assert (i < length (JobStatus.steps status))%nat as Hi by lia.
  pose proof (record_step_steps i result status Hi) as Hrec.
  destruct (IH (Datatypes.S i) (record_step i result status) w1)
    as (status' & w' & Hrun & Hl & Hs & He & Hst & Hid & Hlen' & Htake & Hresults).
  { by eapply later_fault_free. }
  { eapply Forall_impl; [done |]. intros ?. by apply passes_later. }
  { rewrite Hrec, length_insert. lia. }
  rewrite Hrec, ?length_insert in *.
  exists status', w'. split; [by rewrite Hturn |].
  split; [by eapply later_trans |].
  assert (JobStatus.steps status' !! i = Some result) as Hlookup.
  { rewrite <- (lookup_take_lt _ (Datatypes.S i)) by lia. rewrite Htake.
    rewrite lookup_take_lt by lia. by apply list_lookup_insert_eq. }
  repeat split; try done.
  - assert (∀ l : list StepResult.t, take i l = take i (take (Datatypes.S i) l))
      as Hshort.
    { intros l. rewrite take_take. f_equal. lia. }
    rewrite (Hshort (JobStatus.steps status')), Htake, <- Hshort.
    by apply take_insert_ge.
  - rewrite (drop_S _ _ _ Hlookup). cbn [length take].
    constructor; [done | done].
Qed.
Lemma all_steps_succeeded_Forall status :
  Forall (λ result, StepResult.status result = StepResult.success)
    (JobStatus.steps status) →
  Orchestrator.all_steps_succeeded status = true.
Proof.
  intros Hall. unfold Orchestrator.all_steps_succeeded.
  apply forallb_forall. intros result Hin%list_elem_of_In.
  rewrite Forall_forall in Hall. by rewrite bool_decide_eq_true_2 by by apply Hall.
Qed.

(** [createSnapshot] when no call is made to reject: it goes as the
    read of the archive goes. *)
Lemma createSnapshot_read_Ok jobId commit paths w content :
  fault_free w →
  readFile "/tmp/snapshot.tar.gz"
    (exec (snapshot_command paths) None (World.sandbox w)).2 = Ok content →
  ∃ snapshot w',
    StateManager.createSnapshot jobId commit paths w = (Ok snapshot, w')
    ∧ later w w' ∧ World.queue_kv w' = World.queue_kv w
    ∧ is_Some (World.state_bucket w' !! snapshot_key jobId commit (World.clock w)).
Proof.
  intros Hw Hread. unfold StateManager.createSnapshot.
  unfold Date_now at 1. unfold Async.bind at 1.
  fold (snapshot_command paths).
  rewrite (bind_Ok _ _ _ _ _ (sandbox_exec_fault_free _ _ w Hw)).
  set (w1 := World.set_sandbox _ _).
  assert (fault_free w1) as Hw1 by (subst w1; fault_free).
  unfold Async.bind at 1. rewrite sandbox_readFile_fault_free by done.
  change (World.sandbox w1)
    with (exec (snapshot_command paths) None (World.sandbox w)).2.
  rewrite Hread.
  set (w2 := World.advance _ w1).
  assert (fault_free w2) as Hw2 by (subst w2; fault_free).
  unfold Async.bind at 1. rewrite await_fault_free by done.
  unfold Async.modify at 1.
  set (w3 := World.set_state_bucket _ _).
  assert (fault_free w3) as Hw3 by (subst w3; fault_free).
  rewrite (bind_Ok _ _ _ _ _ (sandbox_exec_fault_free _ _ w3 Hw3)).
  eexists _, _. split; [reflexivity |]. split; [| split].
  - apply (later_trans _ w1); [by apply later_tail |].
    apply (later_trans _ w2); [apply later_advance |].
    apply (later_trans _ w3); by apply later_tail.
  - reflexivity.
  - cbn [World.state_bucket World.set_sandbox World.advance]. subst w3.
    cbn [World.state_bucket World.set_state_bucket].
    unfold snapshot_key. rewrite lookup_insert_eq. by eexists.
Qed.

Lemma createSnapshot_read_Throw jobId commit paths w msg :
  fault_free w →
  readFile "/tmp/snapshot.tar.gz"
    (exec (snapshot_command paths) None (World.sandbox w)).2 = Throw msg →
  ∃ w',
    StateManager.createSnapshot jobId commit paths w = (Throw msg, w')
    ∧ later w w' ∧ World.queue_kv w' = World.queue_kv w.
Proof.
  intros Hw Hread. unfold StateManager.createSnapshot.
  unfold Date_now at 1. unfold Async.bind at 1.
  fold (snapshot_command paths).
  rewrite (bind_Ok _ _ _ _ _ (sandbox_exec_fault_free _ _ w Hw)).
  set (w1 := World.set_sandbox _ _).
  assert (fault_free w1) as Hw1 by (subst w1; fault_free).
  unfold Async.bind at 1. rewrite sandbox_readFile_fault_free by done.
  change (World.sandbox w1)
    with (exec (snapshot_command paths) None (World.sandbox w)).2.
  rewrite Hread.
  eexists. split; [reflexivity |]. split; [| reflexivity].
  apply (later_trans _ w1); [by apply later_tail | apply later_advance].
Qed.

(** The [try] block after the loop, up to the snapshot, for a status
    whose steps have all succeeded. *)
Lemma after_loop_to_snapshot job status w :
  fault_free w →
  Orchestrator.all_steps_succeeded status = true →
  ∃ w1,
    frame w w1
    ∧ after_loop job (status, w)
      = (Async.lift (StateManager.createSnapshot (JobConfig.id job)
                       (JobConfig.commit job) StateManager.default_paths) ;;;
         Async.ret tt)
          (JobStatus.set_status JobStatus.success status, w1).
Proof.
  intros Hw Hall. unfold after_loop.
  erewrite bind_Ok by reflexivity. cbn [fst]. rewrite Hall.
  erewrite bind_Ok by reflexivity.
  erewrite bind_Ok by reflexivity. cbn [fst snd].
  rewrite bool_decide_eq_true_2 by done. cbn [andb].
  assert (∃ w1,
    (if negb (Orchestrator.no_cacheKeys job)
     then Async.lift (Orchestrator.saveCache job) else Async.ret tt)
      (JobStatus.set_status JobStatus.success status, w)
    = (Ok tt, (JobStatus.set_status JobStatus.success status, w1))
    ∧ frame w w1) as (w1 & Hsave & Hframe1).
  { destruct (negb (Orchestrator.no_cacheKeys job)).
    - destruct (total_run (Orchestrator.saveCache job) w) as ([] & w1 & Hrun & Hframe);
        [apply total_saveCache | apply framed_saveCache_job |].
      exists w1. split; [by apply lift_Ok | done].
    - exists w. split; [done | apply frame_refl]. }
  rewrite (bind_Ok _ _ _ _ _ Hsave).
  erewrite bind_Ok by reflexivity. cbn [fst snd].
  rewrite bool_decide_eq_true_2 by done.
  by exists w1.
Qed.

Lemma finalize_fields now status :
  JobStatus.status (finalize now status) = JobStatus.status status
  ∧ JobStatus.error (finalize now status) = JobStatus.error status
  ∧ JobStatus.steps (finalize now status) = JobStatus.steps status
  ∧ JobStatus.finishedAt (finalize now status) = Some now.
Proof. unfold finalize. cbn zeta. by destruct (JS.truthy _). Qed.

(** A job whose steps all pass, up to the snapshot. *)
Lemma executeJob_passing_run job status0 w :
  getJobStatus (JobConfig.id job) (World.queue_kv w) = Some status0 →
  JobStatus.steps status0 = JobStatus.steps (initial_status job) →
  fault_free w →
  Forall (passes w) (JobConfig.steps job) →
  ∃ status1 w0 w1,
    Orchestrator.executeJob job w
    = match (Orchestrator.executeJob_guarded job ;;; Orchestrator.executeJob_finally job)
              (status0, w0) with
      | (Ok _, (status, w)) => (Ok status, w)
      | (Throw error, (_, w)) => (Throw error, w)
      end
    ∧ later w w1
    ∧ JobStatus.error status1 = JobStatus.error status0
    ∧ StepResult.name <$> JobStatus.steps status1
      = JobStep.name <$> JobConfig.steps job
    ∧ Forall (λ result, StepResult.status result = StepResult.success)
        (JobStatus.steps status1)
    ∧ Orchestrator.executeJob_body job (status0, w0)
      = (Async.lift (StateManager.createSnapshot (JobConfig.id job)
                       (JobConfig.commit job) StateManager.default_paths) ;;;
         Async.ret tt)
          (JobStatus.set_status JobStatus.success status1, w1).
Proof.
  intros Hget Hslots Hff Hpass.
  rewrite (executeJob_read job status0 w (next_tick_fault_free _ Hff) Hget).
  set (w0 := World.advance _ w).
  assert (later w w0) as Hl0 by apply later_advance.
  destruct (executeJob_body_fault_free job status0 w0) as (wa & [Hla _] & Hbody).
  { by eapply later_fault_free. }
  pose proof (later_trans _ _ _ Hl0 Hla) as Hlwa.
  assert (length (JobStatus.steps status0) = length (JobConfig.steps job)) as Hlen.
  { rewrite Hslots. unfold initial_status. cbn. by rewrite length_map. }
  destruct (step_loop_all_pass job (JobConfig.steps job) 0 status0 wa)
    as (status1 & wb & Hloop & Hlb & _ & Herror & _ & _ & Hlen1 & _ & Hresults).
  { by eapply later_fault_free. }
  { eapply Forall_impl; [done |]. intros ?. by apply passes_later. }
  { lia. }
  rewrite drop_0, <- Hlen, <- Hlen1, firstn_all in Hresults.
  assert (Forall (λ result, StepResult.status result = StepResult.success)
            (JobStatus.steps status1)) as Hall.
  { clear -Hresults. induction Hresults as [| ? ? ? ? [_ ?]]; by constructor. }
  assert (StepResult.name <$> JobStatus.steps status1
          = JobStep.name <$> JobConfig.steps job) as Hnames.
  { clear -Hresults. induction Hresults as [| ? ? ? ? [? _]]; [done |].
    cbn. by f_equal. }
  pose proof (later_trans _ _ _ Hlwa Hlb) as Hlwb.
  destruct (after_loop_to_snapshot job status1 wb) as (w1 & [Hl1 _] & Hafter).
  { by eapply later_fault_free. }
  { by apply all_steps_succeeded_Forall. }
  exists status1, w0, w1.
  split; [done |]. split; [by eapply later_trans |].
  split; [done |]. split; [done |]. split; [done |].
  by rewrite Hbody, (bind_Ok _ _ _ _ _ Hloop).
Qed.

Lemma executeJob_finally_state_bucket job status w :
  Tick.fault (World.next_tick w) = None →
  World.state_bucket (Orchestrator.executeJob_finally job (status, w)).2.2
  = World.state_bucket w.
Proof.
  intros Hwrite. unfold Orchestrator.executeJob_finally.
  erewrite bind_Ok by (by apply lift_Ok).
  erewrite bind_Ok by reflexivity.
  erewrite bind_Ok by reflexivity.
  erewrite bind_Ok by reflexivity. cbn [fst snd].
  unfold jobQueue_updateJobStatus, Async.lift, await. by rewrite Hwrite.
Qed.

(** X19. A job whose steps all pass, the job without steps for one:
    when no call is made to reject and the archive of the workspace
    can be read, [executeJob] returns and persists the status success,
    with one result in success for each step under the name of the
    step, [finishedAt] stamped and the error as it was, and a snapshot
    of the workspace is in the blob store under the job and the
    commit. *)
Theorem executeJob_passes job status0 w
    (Hget : getJobStatus (JobConfig.id job) (World.queue_kv w) = Some status0)
    (Hslots : JobStatus.steps status0 = JobStatus.steps (initial_status job))
    (Hff : fault_free w)
    (Hpass : Forall (passes w) (JobConfig.steps job))
    (Hsnap : ∀ sb, ∃ content,
       readFile "/tmp/snapshot.tar.gz"
         (exec (snapshot_command StateManager.default_paths) None sb).2
       = Ok content) :
  ∃ status w' t,
    Orchestrator.executeJob job w = (Ok status, w')
    ∧ getJobStatus (JobConfig.id job) (World.queue_kv w') = Some status
    ∧ JobStatus.status status = JobStatus.success
    ∧ JobStatus.error status = JobStatus.error status0
    ∧ StepResult.name <$> JobStatus.steps status = JobStep.name <$> JobConfig.steps job
    ∧ Forall (λ result, StepResult.status result = StepResult.success)
        (JobStatus.steps status)
    ∧ is_Some (JobStatus.finishedAt status)
    ∧ is_Some (World.state_bucket w'
                 !! snapshot_key (JobConfig.id job) (JobConfig.commit job) t).
Proof.
  destruct (executeJob_passing_run job status0 w Hget Hslots Hff Hpass)
    as (status1 & w0 & w1 & Hrun & Hl1 & Herror & Hnames & Hall & Hbody).
  destruct (Hsnap (World.sandbox w1)) as [content Hread].
  destruct (createSnapshot_read_Ok (JobConfig.id job) (JobConfig.commit job)
              StateManager.default_paths w1 content)
    as (snapshot & w2 & Hcreate & Hl2 & _ & Hstored);
    [by eapply later_fault_free | done |].
  rewrite (bind_Ok _ _ _ _ _ (lift_Ok _ _ _ _ _ Hcreate)) in Hbody.
  unfold Async.ret in Hbody.
  assert (Tick.fault (World.next_tick w2) = None) as Hwrite.
  { apply next_tick_fault_free. eapply later_fault_free; [| done].
    by eapply later_trans. }
  pose proof (executeJob_finally_state_bucket job
                (JobStatus.set_status JobStatus.success status1) w2 Hwrite) as Hblobs.
  destruct (executeJob_finally_written job
              (JobStatus.set_status JobStatus.success status1) w2 Hwrite)
    as (w3 & Hfin & _ & Hkv).
  rewrite Hfin in Hblobs. cbn [snd] in Hblobs.
  destruct (finalize_fields (World.clock w2)
              (JobStatus.set_status JobStatus.success status1))
    as (Hs & He & Hst & Hf).
  exists (finalize (World.clock w2) (JobStatus.set_status JobStatus.success status1)),
    w3, (World.clock w1).
  split; [| split; [| split; [| split; [| split; [| split; [| split]]]]]].
  - rewrite Hrun. erewrite bind_Ok; [by rewrite Hfin |].
    unfold Orchestrator.executeJob_guarded. by apply try_catch_Ok.
  - rewrite Hkv. apply getJobStatus_updateJobStatus.
  - by rewrite Hs.
  - by rewrite He.
  - by rewrite Hst.
  - by rewrite Hst.
  - rewrite Hf. by eexists.
  - by rewrite Hblobs.
Qed.

(** X20. A job whose steps all pass but whose archive of the workspace
    cannot be read: the exception of the read is caught, and
    [executeJob] returns and persists the status failure with the
    message of the exception for error, although every step is in
    success. *)
Theorem executeJob_snapshot_failure job status0 w msg
    (Hget : getJobStatus (JobConfig.id job) (World.queue_kv w) = Some status0)
    (Hslots : JobStatus.steps status0 = JobStatus.steps (initial_status job))
    (Hff : fault_free w)
    (Hpass : Forall (passes w) (JobConfig.steps job))
    (Hsnap : ∀ sb,
       readFile "/tmp/snapshot.tar.gz"
         (exec (snapshot_command StateManager.default_paths) None sb).2
       = Throw msg) :
  ∃ status w',
    Orchestrator.executeJob job w = (Ok status, w')
    ∧ getJobStatus (JobConfig.id job) (World.queue_kv w') = Some status
    ∧ JobStatus.status status = JobStatus.failure
    ∧ JobStatus.error status = Some msg
    ∧ Forall (λ result, StepResult.status result = StepResult.success)
        (JobStatus.steps status)
    ∧ is_Some (JobStatus.finishedAt status).
Proof.
  destruct (executeJob_passing_run job status0 w Hget Hslots Hff Hpass)
    as (status1 & w0 & w1 & Hrun & Hl1 & Herror & Hnames & Hall & Hbody).
  destruct (createSnapshot_read_Throw (JobConfig.id job) (JobConfig.commit job)
              StateManager.default_paths w1 msg)
    as (w2 & Hcreate & Hl2 & _);
    [by eapply later_fault_free | done |].
  rewrite (bind_Throw _ _ _ _ _ (lift_Throw _ _ _ _ _ Hcreate)) in Hbody.
  assert (Tick.fault (World.next_tick w2) = None) as Hwrite.
  { apply next_tick_fault_free. eapply later_fault_free; [| done].
    by eapply later_trans. }
  set (status2 := JobStatus.set_error (Some msg)
                    (JobStatus.set_status JobStatus.failure
                       (JobStatus.set_status JobStatus.success status1))).
  destruct (executeJob_finally_written job status2 w2 Hwrite)
    as (w3 & Hfin & _ & Hkv).
  destruct (finalize_fields (World.clock w2) status2) as (Hs & He & Hst & Hf).
  exists (finalize (World.clock w2) status2), w3.
  split; [| split; [| split; [| split; [| split]]]].
  - rewrite Hrun. erewrite bind_Ok; [by rewrite Hfin |].
    unfold Orchestrator.executeJob_guarded.
    by rewrite (try_catch_Throw _ _ _ _ _ Hbody).
  - rewrite Hkv. apply getJobStatus_updateJobStatus.
  - by rewrite Hs.
  - by rewrite He.
  - by rewrite Hst.
  - rewrite Hf. by eexists.
Qed.
End PassingJobs.

Section PassingJobWitnesses.
Import RunSpec CacheSpec JobQueue QueueSpec OrchestratorSpec OrchestratorSpec2.

Lemma executeJob_passes_witness :
  ∃ status w' t,
    Orchestrator.executeJob ToyJobs.green_job ToyJobs.green_world = (Ok status, w')
    ∧ getJobStatus "green" (World.queue_kv w') = Some status
    ∧ JobStatus.status status = JobStatus.success
    ∧ JobStatus.error status = None
    ∧ StepResult.name <$> JobStatus.steps status = ["Install"; "Test"]
    ∧ Forall (λ result, StepResult.status result = StepResult.success)
        (JobStatus.steps status)
    ∧ is_Some (JobStatus.finishedAt status)
    ∧ is_Some (World.state_bucket w' !! snapshot_key "green" "abc123" t).
Proof.
  refine (executeJob_passes ToyJobs.green_job
            (JobStatus.set_startedAt (Some 5)
               (JobStatus.set_status JobStatus.running
                  (initial_status ToyJobs.green_job)))
            ToyJobs.green_world _ eq_refl _ _ _).
  - vm_compute; reflexivity.
  - apply fault_free_no_script.
  - repeat constructor.
  - intros sb. exists "archive of the workspace".
    change (exec (snapshot_command StateManager.default_paths) None sb)
      with (ExecResult.mk "" "" 0,
            Toy.set_files
              (<["/tmp/snapshot.tar.gz" := "archive of the workspace"]> (Toy.files sb))
              sb).
    cbn [snd readFile Toy.sandbox Toy.set_files Toy.files].
    by rewrite lookup_insert_eq.
Defined.

Lemma executeJob_snapshot_failure_witness :
  ∃ status w',
    Orchestrator.executeJob ToyJobs.green_job ToyJobs.sealed_world = (Ok status, w')
    ∧ getJobStatus "green" (World.queue_kv w') = Some status
    ∧ JobStatus.status status = JobStatus.failure
    ∧ JobStatus.error status = Some (Sealed.denied "/tmp/snapshot.tar.gz")
    ∧ Forall (λ result, StepResult.status result = StepResult.success)
        (JobStatus.steps status)
    ∧ is_Some (JobStatus.finishedAt status).
Proof.
  refine (executeJob_snapshot_failure ToyJobs.green_job
            (JobStatus.set_startedAt (Some 5)
               (JobStatus.set_status JobStatus.running
                  (initial_status ToyJobs.green_job)))
            ToyJobs.sealed_world _ _ eq_refl _ _ _).
  - vm_compute; reflexivity.
  - constructor.
  - repeat constructor.
  - intros sb. reflexivity.
Defined.
End PassingJobWitnesses.

Section Steps.
Context {S : Type} `{!ISandbox S} `{!Base64}.
Import RunSpec RunSpec2 CacheSpec JobQueue QueueSpec OrchestratorSpec OrchestratorSpec2.
Implicit Types (w : World.t S) (job : JobConfig.t) (step : JobStep.t)
  (status : JobStatus.t).

Local Open Scope async_scope.

(** [executeStep] from what its [try] block with its [catch] clause
    gives. *)
Lemma executeStep_unfold step job w :
  ∃ guarded : M (World.t S) StepResult.t,
    (∀ w0 result w1,
       guarded w0 = (Ok result, w1) →
       StepResult.name result = JobStep.name step
       ∧ (StepResult.status result = StepResult.success
          ↔ StepResult.exitCode result = Some 0)
       ∧ (StepResult.status result ≠ StepResult.success →
          StepResult.status result = StepResult.failure)
       ∧ is_Some (StepResult.output result)
       ∧ StepResult.startedAt result = Some (World.clock w))
    ∧ total guarded
    ∧ Orchestrator.executeStep step job w
      = (result <- guarded ;;
         finishedAt <- Date_now ;;
         let result := StepResult.set_finishedAt (Some finishedAt) result in
         Async.ret
           (StepResult.set_duration
              (JS.sub (StepResult.finishedAt result) (StepResult.startedAt result))
              result)) w.
Proof.
  unfold Orchestrator.executeStep.
  rewrite (bind_Ok _ _ w (World.clock w) w) by done.
  match goal with
  | |- context [Async.try_catch ?body ?handler] =>
      exists (Async.try_catch body handler)
  end.
  split; [| split; [| reflexivity]].
  - intros w0 result w1. unfold Async.try_catch.
    match goal with
    | |- context [Async.bind ?exports ?rest w0] =>
        destruct (Async.bind exports rest w0) as [[result' | msg] w2] eqn:Hbody
    end.
    + apply bind_inv_Ok in Hbody as ([] & w3 & _ & Hbody).
      apply bind_inv_Ok in Hbody as (execResult & w4 & _ & Hbody).
      unfold Async.ret in Hbody. intros Heq.
      assert (result = result') as -> by congruence.
      assert (result'
              = StepResult.set_status
                  (if decide (ExecResult.exitCode execResult = 0)
                   then StepResult.success else StepResult.failure)
                  (StepResult.set_exitCode (Some (ExecResult.exitCode execResult))
                     (StepResult.set_output
                        (Some (Orchestrator.captured_output execResult))
                        (StepResult.mk (JobStep.name step) StepResult.running
                           None None None (Some (World.clock w)) None)))) as ->
        by congruence.
      clear. cbn. split; [done |]. split; [| split; [| split; [by eexists | done]]].
      * destruct (decide _) as [-> | Hne]; [done |].
        split; [done |]. intros ?. destruct Hne. congruence.
      * by destruct (decide _).
    + unfold Async.ret. intros Heq.
      assert (result
              = StepResult.set_exitCode (Some 1)
                  (StepResult.set_output (Some msg)
                     (StepResult.set_status StepResult.failure
                        (StepResult.mk (JobStep.name step) StepResult.running
                           None None None (Some (World.clock w)) None)))) as ->
        by congruence.
      clear. cbn. split; [done |]. split; [| split; [| split; [by eexists | done]]].
      * split; [done |]. intros ?. congruence.
      * done.
  - apply total_try_catch. intros; apply total_ret.
Qed.

(** X21. [executeStep] never throws, whatever the environment does to
    its calls: it returns a result under the name of the step, in
    success exactly when the exit code recorded is [0] and in failure
    otherwise, with an output, the times of start and of end and the
    time between the two; and it writes nothing to the job queue's
    namespace. *)
Theorem executeStep_never_throws step job w :
  ∃ result w',
    Orchestrator.executeStep step job w = (Ok result, w')
    ∧ StepResult.name result = JobStep.name step
    ∧ (StepResult.status result = StepResult.success
       ↔ StepResult.exitCode result = Some 0)
    ∧ (StepResult.status result ≠ StepResult.success →
       StepResult.status result = StepResult.failure)
    ∧ is_Some (StepResult.output result)
    ∧ StepResult.startedAt result = Some (World.clock w)
    ∧ StepResult.finishedAt result = Some (World.clock w')
    ∧ StepResult.duration result = Some (World.clock w' - World.clock w)
    ∧ World.queue_kv w' = World.queue_kv w.
Proof.
  destruct (executeStep_unfold step job w) as (guarded & Hresult & Htotal & Hrun).
  destruct (Htotal w) as [result Hok].
  destruct (guarded w) as [res w1] eqn:Hguarded. cbn [fst] in Hok. subst res.
  destruct (Hresult _ _ _ Hguarded) as (Hname & Hexit & Hstatus & Hout & Hstart).
  pose proof (framed_executeStep step job w) as [_ Hkv].
  rewrite (bind_Ok _ _ _ _ _ Hguarded) in Hrun.
  unfold Date_now at 1, Async.bind at 1, Async.ret in Hrun.
  rewrite Hrun in Hkv |- *. cbn [snd] in Hkv.
  eexists _, w1. split; [reflexivity |].
  destruct result; cbn in *. subst. by repeat split; try apply Hexit.
Qed.

(** [executeStep] when the step exports nothing and its command is
    thrown out of the race or rejected. *)
Lemma executeStep_caught step job w msg w1 :
  JobStep.env step = None →
  sandbox_exec_race (JobStep.run step) (Some (Orchestrator.step_workingDir step))
    (Orchestrator.step_timeout step * 1000) w = (Throw msg, w1) →
  Orchestrator.executeStep step job w
  = (Ok (StepResult.mk (JobStep.name step) StepResult.failure (Some msg) (Some 1)
           (Some (World.clock w1 - World.clock w)) (Some (World.clock w))
           (Some (World.clock w1))), w1).
Proof.
  intros Henv Hrace. unfold Orchestrator.executeStep.
  rewrite (bind_Ok _ _ w (World.clock w) w) by done.
  rewrite Henv.
  erewrite bind_Ok; cycle 1.
  { erewrite try_catch_Throw; [reflexivity |].
    rewrite (bind_Ok _ _ w tt w) by done.
    by rewrite (bind_Throw _ _ _ _ _ Hrace). }
  reflexivity.
Qed.


(** X23. A step that exports nothing and whose command the environment
    rejects before the time allowed is over: [executeStep] returns a
    result in failure with the message of the rejection for output and
    the exit code [1]. *)
Theorem executeStep_rejected step job w msg
    (Henv : JobStep.env step = None)
    (Hfast : Tick.elapsed (World.next_tick w)
             < Orchestrator.step_timeout step * 1000)
    (Hfault : Tick.fault (World.next_tick w) = Some msg) :
  ∃ result w',
    Orchestrator.executeStep step job w = (Ok result, w')
    ∧ StepResult.status result = StepResult.failure
    ∧ StepResult.output result = Some msg
    ∧ StepResult.exitCode result = Some 1.
Proof.
  eexists _, _. split.
  - apply executeStep_caught; [done |].
    rewrite sandbox_exec_race_in_time by done.
    unfold sandbox_exec, await. by rewrite Hfault.
  - by cbn.
Qed.
End Steps.

Section StepWitnesses.
Import RunSpec CacheSpec JobQueue QueueSpec OrchestratorSpec OrchestratorSpec2.


Lemma executeStep_rejected_witness :
  ∃ result w',
    Orchestrator.executeStep (JobStep.mk "Test" "npm test" None None None (Some 60))
      ToyJobs.green_job
      (Toy.world (Toy.mk ∅ []) ∅ [Tick.mk 10 (Some "sandbox unreachable")])
    = (Ok result, w')
    ∧ StepResult.status result = StepResult.failure
    ∧ StepResult.output result = Some "sandbox unreachable"
    ∧ StepResult.exitCode result = Some 1.
Proof.
  apply (executeStep_rejected (JobStep.mk "Test" "npm test" None None None (Some 60))
           ToyJobs.green_job
           (Toy.world (Toy.mk ∅ []) ∅ [Tick.mk 10 (Some "sandbox unreachable")])
           "sandbox unreachable" eq_refl); [| reflexivity].
  vm_compute. reflexivity.
Defined.
End StepWitnesses.

Section OwnRecord.
Context {S : Type} `{!ISandbox S} `{!Base64}.
Import RunSpec RunSpec2 CacheSpec JobQueue QueueSpec OrchestratorSpec OrchestratorSpec2.
Implicit Types (w : World.t S) (job : JobConfig.t) (step : JobStep.t)
  (status : JobStatus.t).

Local Open Scope async_scope.

Lemma elsewhere_refl jobId kv : elsewhere jobId kv kv.
Proof. by intros key _. Qed.

Lemma elsewhere_trans jobId kv1 kv2 kv3 :
  elsewhere jobId kv1 kv2 → elsewhere jobId kv2 kv3 → elsewhere jobId kv1 kv3.
Proof. intros H12 H23 key Hkey. by rewrite H23, H12. Qed.

Lemma minds_own_ret {L A} jobId (a : A) :
  minds_own (S := S) (L := L) jobId (Async.ret a).
Proof. intros l w. apply elsewhere_refl. Qed.

Lemma minds_own_local {L} jobId : minds_own (S := S) (L := L) jobId Async.local.
Proof. intros l w. apply elsewhere_refl. Qed.

Lemma minds_own_modify_local {L} jobId (f : L → L) :
  minds_own (S := S) jobId (Async.modify_local f).
Proof. intros l w. apply elsewhere_refl. Qed.

Lemma minds_own_bind {L A B} jobId (m : M (L * World.t S) A)
    (k : A → M (L * World.t S) B) :
  minds_own jobId m → (∀ a, minds_own jobId (k a)) → minds_own jobId (Async.bind m k).
Proof.
  intros Hm Hk l w. unfold Async.bind.
  pose proof (Hm l w) as H1.
  destruct (m (l, w)) as [[a | msg] [l1 w1]]; [| done].
  eapply elsewhere_trans; [done | apply Hk].
Qed.

Lemma minds_own_try_catch {L A} jobId (m : M (L * World.t S) A) handler :
  minds_own jobId m → (∀ msg, minds_own jobId (handler msg)) →
  minds_own jobId (Async.try_catch m handler).
Proof.
  intros Hm Hh l w. unfold Async.try_catch.
  pose proof (Hm l w) as H1.
  destruct (m (l, w)) as [[a | msg] [l1 w1]]; [done |].
  eapply elsewhere_trans; [done | apply Hh].
Qed.

Lemma minds_own_lift {L A} jobId (m : M (World.t S) A) :
  framed m → minds_own (L := L) jobId (Async.lift m).
Proof.
  intros Hm l w key _. rewrite lift_eq. cbn [snd].
  destruct (Hm w) as [_ Hkv]. by rewrite Hkv.
Qed.

Lemma minds_own_updateJobStatus {L} jobId status :
  minds_own (S := S) (L := L) jobId
    (Async.lift (jobQueue_updateJobStatus jobId status)).
Proof.
  intros l w key Hkey. rewrite lift_eq. cbn [snd].
  unfold jobQueue_updateJobStatus, await.
  destruct (Tick.fault (World.next_tick w)); [done |].
  cbn. by apply lookup_updateJobStatus_ne.
Qed.

Lemma minds_own_step_loop job i steps :
  minds_own (S := S) (JobConfig.id job) (Orchestrator.step_loop job i steps).
Proof.
  revert i. induction steps as [| step rest IH]; intros i; cbn [Orchestrator.step_loop].
  { apply minds_own_ret. }
  apply minds_own_bind; [apply minds_own_modify_local |]. intros _.
  apply minds_own_bind; [apply minds_own_local |]. intros status.
  apply minds_own_bind; [apply minds_own_updateJobStatus |]. intros _.
  apply minds_own_bind; [apply minds_own_lift, framed_executeStep |]. intros result.
  apply minds_own_bind; [apply minds_own_modify_local |]. intros _.
  destruct (_ && _); [| apply IH].
  apply minds_own_bind; [apply minds_own_modify_local |]. intros _.
  apply minds_own_modify_local.
Qed.

Lemma minds_own_executeJob_body job :
  minds_own (S := S) (JobConfig.id job) (Orchestrator.executeJob_body job).
Proof.
  unfold Orchestrator.executeJob_body.
  apply minds_own_bind; [apply minds_own_lift, framed_setupWorkspace |]. intros _.
  apply minds_own_bind; [apply minds_own_lift, framed_restoreCache_job |]. intros _.
  apply minds_own_bind; [apply minds_own_step_loop |]. intros _.
  apply minds_own_bind; [apply minds_own_local |]. intros status1.
  apply minds_own_bind.
  { destruct (Orchestrator.all_steps_succeeded _);
      [apply minds_own_modify_local | apply minds_own_ret]. }
  intros _.
  apply minds_own_bind; [apply minds_own_local |]. intros status2.
  apply minds_own_bind.
  { destruct (_ && _); [apply minds_own_lift, framed_saveCache_job | apply minds_own_ret]. }
  intros _.
  apply minds_own_bind; [apply minds_own_local |]. intros status3.
  destruct (bool_decide _); [| apply minds_own_ret].
  apply minds_own_bind; [apply minds_own_lift, framed_createSnapshot |]. intros _.
  apply minds_own_ret.
Qed.

Lemma minds_own_executeJob_finally job :
  minds_own (S := S) (JobConfig.id job) (Orchestrator.executeJob_finally job).
Proof.
  unfold Orchestrator.executeJob_finally.
  apply minds_own_bind; [apply minds_own_lift, framed_Date_now |]. intros now.
  apply minds_own_bind; [apply minds_own_modify_local |]. intros _.
  apply minds_own_bind; [apply minds_own_modify_local |]. intros _.
  apply minds_own_bind; [apply minds_own_local |]. intros status.
  apply minds_own_updateJobStatus.
Qed.

(** X24. Whatever the environment does to its calls and whether it
    returns or throws, [executeJob] writes to the job queue's namespace
    nothing but the status record of its job: the queue entries, the
    job configurations and the status records of the other jobs are in
    the end what they were. *)
Theorem executeJob_minds_own_record job w key
    (Hkey : key ≠ statusKey (JobConfig.id job)) :
  World.queue_kv (Orchestrator.executeJob job w).2 !! key = World.queue_kv w !! key.
Proof.
  unfold Orchestrator.executeJob, Async.bind at 1.
  unfold jobQueue_getJobStatus at 1, await.
  destruct (Tick.fault (World.next_tick w)); [done |].
  set (w0 := World.advance _ w).
  change (World.queue_kv w !! key) with (World.queue_kv w0 !! key).
  destruct (getJobStatus _ _) as [status0 |]; [| done].
  assert (minds_own (S := S) (JobConfig.id job)
            (Orchestrator.executeJob_guarded job ;;; Orchestrator.executeJob_finally job))
    as Hown.
  { apply minds_own_bind; [| intros _; apply minds_own_executeJob_finally].
    apply minds_own_try_catch; [apply minds_own_executeJob_body |]. intros msg.
    apply minds_own_bind; [apply minds_own_modify_local |]. intros _.
    apply minds_own_modify_local. }
  specialize (Hown status0 w0 key Hkey).
  by destruct ((_ ;;; _) (status0, w0)) as [[[] | msg] [status w']].
Qed.

(** X25. A job without a status record: when the read of the record is
    not rejected, [executeJob] throws [Job status not found] with the
    id of the job, having run no command and written nothing. *)
Theorem executeJob_status_not_found job w
    (Hread : Tick.fault (World.next_tick w) = None)
    (Hget : getJobStatus (JobConfig.id job) (World.queue_kv w) = None) :
  ∃ w',
    Orchestrator.executeJob job w
    = (Throw ("Job status not found: " +:+ JobConfig.id job), w')
    ∧ World.queue_kv w' = World.queue_kv w
    ∧ World.sandbox w' = World.sandbox w
    ∧ World.cache_bucket w' = World.cache_bucket w
    ∧ World.state_bucket w' = World.state_bucket w.
Proof.
  exists (World.advance (Tick.elapsed (World.next_tick w)) w). split; [| done].
  unfold Orchestrator.executeJob, Async.bind at 1.
  unfold jobQueue_getJobStatus at 1, await. rewrite Hread.
  change (World.queue_kv (World.advance _ w)) with (World.queue_kv w).
  by rewrite Hget.
Qed.

End OwnRecord.

Section LogStreams.
Context {S : Type}.
Import RunSpec JobQueue QueueSpec OrchestratorSpec OrchestratorSpec2.
Implicit Types (w : World.t S) (status : JobStatus.t) (stream : LogStream.t).

Local Open Scope async_scope.

Lemma seqZ_nil (m len : Z) : len ≤ 0 → seqZ m len = [].
Proof. intros Hlen. unfold seqZ. by replace (Z.to_nat len) with 0%nat by lia. Qed.

(** The loop of one poll over the indices [xs]. *)
Lemma poll_loop status (xs : list Z) stream w :
  for_each xs
    (λ i, match Orchestrator.step_at status i with
          | Some step =>
              match Orchestrator.log_chunk step with
              | Some chunk => Async.modify_local (LogStream.enqueue chunk)
              | None => Async.ret tt
              end
          | None => Async.ret tt
          end) (stream, w)
  = (Ok tt,
     (LogStream.mk (LogStream.lastStep stream)
        (LogStream.chunks stream ++ omap (chunk_at status) xs)
        (LogStream.closed stream), w)).
Proof.
  revert stream. induction xs as [| i xs IH]; intros stream.
  { cbn. rewrite app_nil_r. by destruct stream. }
  cbn [for_each omap list_omap]. unfold chunk_at at 1.
  destruct (Orchestrator.step_at status i) as [step |]; cbn [mbind option_bind].
  - destruct (Orchestrator.log_chunk step) as [chunk |].
    + unfold Async.bind at 1, Async.modify_local at 1. cbn [fst snd].
      rewrite IH. cbn. by rewrite <- app_assoc.
    + unfold Async.bind at 1, Async.ret at 1. by rewrite IH.
  - unfold Async.bind at 1, Async.ret at 1. by rewrite IH.
Qed.

(** One poll that finds the status record: the chunks of the steps
    after [lastStep] up to [currentStep] are appended, in order. *)
Lemma streamJobLogs_poll_found jobId stream w status :
  Tick.fault (World.next_tick w) = None →
  getJobStatus jobId (World.queue_kv w) = Some status →
  let c := default (LogStream.lastStep stream) (JobStatus.currentStep status) in
  Orchestrator.streamJobLogs_poll jobId (stream, w)
  = (Ok tt,
     (LogStream.mk (Z.max (LogStream.lastStep stream) c)
        (LogStream.chunks stream
         ++ omap (chunk_at status)
              (seqZ (LogStream.lastStep stream + 1) (c - LogStream.lastStep stream)))
        (LogStream.closed stream || bool_decide (finished status)),
      World.advance (Tick.elapsed (World.next_tick w)) w)).
Proof.
  intros Hread Hget c. unfold Orchestrator.streamJobLogs_poll.
  erewrite bind_Ok; cycle 1.
  { apply lift_Ok. unfold jobQueue_getJobStatus, await. rewrite Hread.
    change (World.queue_kv (World.advance _ w)) with (World.queue_kv w).
    by rewrite Hget. }
  set (w1 := World.advance _ w). cbv beta iota.
  erewrite bind_Ok by reflexivity. cbn [fst].
  set (close := if bool_decide _ then _ else _).
  assert (∀ stream1, (close (stream1, w1) : Res unit * (LogStream.t * World.t S))
                     = (Ok tt, (LogStream.mk (LogStream.lastStep stream1)
                                  (LogStream.chunks stream1)
                                  (LogStream.closed stream1
                                   || bool_decide (finished status)), w1)))
    as Hclose.
  { intros stream1. subst close. unfold finished. destruct (bool_decide _).
    - cbn. by rewrite orb_true_r.
    - cbn. rewrite orb_false_r. by destruct stream1. }
  subst c. destruct (JobStatus.currentStep status) as [c |]; cbn [default from_option];
    unfold id.
  - destruct (LogStream.lastStep stream <? c) eqn:Hlt.
    + apply Z.ltb_lt in Hlt.
      erewrite bind_Ok; cycle 1.
      { erewrite bind_Ok by apply poll_loop. reflexivity. }
      rewrite Hclose. cbn. do 3 f_equal. lia.
    + apply Z.ltb_ge in Hlt.
      erewrite bind_Ok by reflexivity. rewrite Hclose.
      rewrite (seqZ_nil (LogStream.lastStep stream + 1)) by lia.
      cbn [omap list_omap]. rewrite app_nil_r. do 3 f_equal. lia.
  - erewrite bind_Ok by reflexivity. rewrite Hclose.
    rewrite Z.sub_diag. cbn [omap list_omap seqZ]. rewrite app_nil_r.
    do 3 f_equal. lia.
Qed.

(** One poll, in every case. *)
Lemma streamJobLogs_poll_cases jobId stream w :
  let w1 := World.advance (Tick.elapsed (World.next_tick w)) w in
  (∃ msg, Tick.fault (World.next_tick w) = Some msg
          ∧ Orchestrator.streamJobLogs_poll jobId (stream, w)
            = (Throw msg, (stream, w1)))
  ∨ (Tick.fault (World.next_tick w) = None
     ∧ getJobStatus jobId (World.queue_kv w) = None
     ∧ Orchestrator.streamJobLogs_poll jobId (stream, w)
       = (Ok tt, (LogStream.close stream, w1)))
  ∨ (∃ status, Tick.fault (World.next_tick w) = None
               ∧ getJobStatus jobId (World.queue_kv w) = Some status).
Proof.
  intros w1. destruct (Tick.fault (World.next_tick w)) as [msg |] eqn:Hread.
  - left. exists msg. split; [done |]. unfold Orchestrator.streamJobLogs_poll.
    erewrite bind_Throw; [reflexivity |]. apply lift_Throw.
    unfold jobQueue_getJobStatus, await. by rewrite Hread.
  - right. destruct (getJobStatus jobId (World.queue_kv w)) as [status |] eqn:Hget.
    + right. by exists status.
    + left. split; [done |]. split; [done |].
      unfold Orchestrator.streamJobLogs_poll.
      erewrite bind_Ok; cycle 1.
      { apply lift_Ok. unfold jobQueue_getJobStatus, await. rewrite Hread.
        change (World.queue_kv (World.advance _ w)) with (World.queue_kv w).
        by rewrite Hget. }
      reflexivity.
Qed.

(** X27. One poll of [streamJobLogs], whatever it finds: what has been
    streamed stays streamed and in its place, [lastStep] does not go
    back, a stream that was closed stays closed, and the job queue's
    namespace is only read. *)
Theorem streamJobLogs_poll_monotone jobId stream w :
  let after := (Orchestrator.streamJobLogs_poll jobId (stream, w)).2 in
  LogStream.chunks stream `prefix_of` LogStream.chunks after.1
  ∧ LogStream.lastStep stream ≤ LogStream.lastStep after.1
  ∧ (LogStream.closed stream = true → LogStream.closed after.1 = true)
  ∧ World.queue_kv after.2 = World.queue_kv w.
Proof.
  destruct (streamJobLogs_poll_cases jobId stream w)
    as [(msg & _ & ->) | [(_ & _ & ->) | (status & Hread & Hget)]]; cbn zeta.
  - done.
  - done.
  - rewrite (streamJobLogs_poll_found jobId stream w status Hread Hget). cbn.
    split; [by apply prefix_app_r |]. split; [lia |]. split; [| done].
    by intros ->.
Qed.

(** X28. One poll of an open stream that the environment does not
    reject: it closes the stream exactly when the job has no status
    record or its status is success, failure, timeout or cancelled. *)
Theorem streamJobLogs_poll_closes jobId stream w
    (Hopen : LogStream.closed stream = false)
    (Hread : Tick.fault (World.next_tick w) = None) :
  LogStream.closed (Orchestrator.streamJobLogs_poll jobId (stream, w)).2.1 = true
  ↔ match getJobStatus jobId (World.queue_kv w) with
    | Some status => finished status
    | None => True
    end.
Proof.
  destruct (streamJobLogs_poll_cases jobId stream w)
    as [(msg & Hfault & _) | [(_ & Hget & ->) | (status & _ & Hget)]].
  - congruence.
  - by rewrite Hget.
  - rewrite (streamJobLogs_poll_found jobId stream w status Hread Hget), Hget.
    cbn. rewrite Hopen. cbn. apply bool_decide_eq_true.
Qed.

(** X29. The output a step gets after a poll has seen the job at that
    step is never streamed: once a poll has found [currentStep] at
    [c], a later poll that finds [currentStep] at [c] or before
    streams nothing, whatever the outputs of the steps are by then. *)
Theorem streamJobLogs_late_output_lost jobId stream w status c w2 status2 c2
    (Hread : Tick.fault (World.next_tick w) = None)
    (Hget : getJobStatus jobId (World.queue_kv w) = Some status)
    (Hc : JobStatus.currentStep status = Some c)
    (Hread2 : Tick.fault (World.next_tick w2) = None)
    (Hget2 : getJobStatus jobId (World.queue_kv w2) = Some status2)
    (Hc2 : JobStatus.currentStep status2 = Some c2)
    (Hle : c2 ≤ c) :
  let stream1 := (Orchestrator.streamJobLogs_poll jobId (stream, w)).2.1 in
  LogStream.chunks (Orchestrator.streamJobLogs_poll jobId (stream1, w2)).2.1
  = LogStream.chunks stream1.
Proof.
  cbn zeta.
  rewrite (streamJobLogs_poll_found jobId stream w status Hread Hget).
  cbn [fst snd].
  rewrite (streamJobLogs_poll_found jobId _ w2 status2 Hread2 Hget2).
  rewrite Hc, Hc2.
  cbn [fst snd default from_option LogStream.chunks LogStream.lastStep]. unfold id.
  rewrite (seqZ_nil (Z.max (LogStream.lastStep stream) c + 1)) by lia.
  cbn [omap list_omap]. by rewrite app_nil_r.
Qed.
End LogStreams.

Section OrchestratorWitnesses2.
Import RunSpec JobQueue QueueSpec OrchestratorSpec OrchestratorSpec2.

Lemma executeJob_minds_own_record_witness :
  World.queue_kv (Orchestrator.executeJob ToyJobs.green_job ToyJobs.green_world).2
    !! jobKey "green"
  = World.queue_kv ToyJobs.green_world !! jobKey "green".
Proof.
  apply (executeJob_minds_own_record ToyJobs.green_job ToyJobs.green_world
           (jobKey "green")).
  discriminate.
Defined.


Lemma executeJob_status_not_found_witness :
  ∃ w',
    Orchestrator.executeJob ToyJobs.green_job (Toy.world (Toy.mk ∅ []) ∅ [])
    = (Throw "Job status not found: green", w')
    ∧ World.queue_kv w' = ∅
    ∧ World.sandbox w' = Toy.mk ∅ []
    ∧ World.cache_bucket w' = ∅
    ∧ World.state_bucket w' = ∅.
Proof.
  apply (executeJob_status_not_found ToyJobs.green_job
           (Toy.world (Toy.mk ∅ []) ∅ []) eq_refl).
  vm_compute; reflexivity.
Defined.

Lemma streamJobLogs_poll_closes_witness :
  LogStream.closed
    (Orchestrator.streamJobLogs_poll "green"
       (LogStream.start, ToyLogs.world_of ToyLogs.at_end)).2.1 = true
  ↔ finished ToyLogs.at_end.
Proof.
  apply (streamJobLogs_poll_closes "green" LogStream.start
           (ToyLogs.world_of ToyLogs.at_end) eq_refl eq_refl).
Defined.

Lemma streamJobLogs_late_output_lost_witness :
  LogStream.chunks
    (Orchestrator.streamJobLogs_poll "green"
       ((Orchestrator.streamJobLogs_poll "green"
           (LogStream.start, ToyLogs.world_of ToyLogs.at_last_step)).2.1,
        ToyLogs.world_of ToyLogs.at_end)).2.1
  = LogStream.chunks
      (Orchestrator.streamJobLogs_poll "green"
         (LogStream.start, ToyLogs.world_of ToyLogs.at_last_step)).2.1.
Proof.
  apply (streamJobLogs_late_output_lost "green" LogStream.start
           (ToyLogs.world_of ToyLogs.at_last_step) ToyLogs.at_last_step 1
           (ToyLogs.world_of ToyLogs.at_end) ToyLogs.at_end 1
           eq_refl (getJobStatus_updateJobStatus _ _ _) eq_refl
           eq_refl (getJobStatus_updateJobStatus _ _ _) eq_refl).
  lia.
Defined.
End OrchestratorWitnesses2.
